(** * Michael-Scott lock-free queue (MichaelScottLockFreeQueue.cpp)

    A shallow embedding of the tagged pointer, the node, the queue
    constructor and the two operations [enqueue] and [dequeue].  Every
    access to shared memory (an atomic load, a compare-and-swap, the read
    of a node's value, [new], [delete]) is one step of a thread, so that a
    call can be run alone (single-threaded use) or interleaved with the
    steps of other calls. *)

From stdpp Require Import base option list gmap.
From Stdlib Require Import ZArith Lia.

Local Open Scope Z_scope.

(** ** Machine integers: [int count] *)

Definition int_min : Z := -2147483648.
Definition int_max : Z := 2147483647.

Definition int_range (z : Z) : Prop := int_min <= z <= int_max.

(** Two's complement reduction of a mathematical integer to [int]. *)
Definition wrap_int (z : Z) : Z := (z + 2147483648) mod 4294967296 - 2147483648.

(** [c + 1] on an [int]. *)
Definition int_succ (c : Z) : Z := wrap_int (c + 1).

(** ** Tagged pointer: [struct NodePointer] *)

(** Addresses of heap nodes; [None] is [nullptr]. *)
Definition loc := positive.

Record NodePointer := NP { ptr : option loc; count : Z }.

#[global] Instance NodePointer_eq_dec : EqDecision NodePointer.
Proof. solve_decision. Defined.

(** [NodePointer() : ptr(nullptr) {}]: only [ptr] is initialised, [count]
    keeps what the storage [raw] held. *)
Definition NodePointer_default (raw : NodePointer) : NodePointer :=
  NP None (count raw).

(** [NodePointer<T>& operator=(Node<T>* p) { ptr = p; return *this; }] *)
Definition NodePointer_assign (tp : NodePointer) (p : option loc) : NodePointer :=
  NP p (count tp).

(** [operator==]: [a.ptr == b.ptr && a.count == b.count]. *)
Definition NodePointer_eq (a b : NodePointer) : bool :=
  bool_decide (ptr a = ptr b) && bool_decide (count a = count b).

(** ** Results of running a call *)

Inductive outcome (A : Type) : Type :=
| Ret (a : A)
| Fault
| OutOfFuel.
Arguments Ret {A} a.
Arguments Fault {A}.
Arguments OutOfFuel {A}.

(** The cells that hold a tagged pointer: the queue's two fields and the
    [next] field of a node. *)
Inductive cell : Type :=
| Head
| Tail
| Next (a : loc).

#[global] Instance cell_eq_dec : EqDecision cell.
Proof. solve_decision. Defined.

(** What a step does to shared memory. *)
Inductive event : Type :=
| EvLoad (c : cell) (v : NodePointer)
| EvValue (a : loc)
| EvCas (c : cell) (expected desired : NodePointer) (ok : bool)
| EvNew (a : loc)
| EvDelete (p : option loc).

(** The nodes an event dereferences. *)
Definition deref (e : event) : list loc :=
  match e with
  | EvLoad (Next a) _ => [a]
  | EvCas (Next a) _ _ _ => [a]
  | EvValue a => [a]
  | _ => []
  end.

(** The nodes a trace dereferences, in order. *)
Definition derefs (tr : list event) : list loc := tr ≫= deref.

Section Queue.
Context {T : Type}.

(** ** [struct Node] and [class Queue] *)

Record Node := mkNode { value : T; next : NodePointer }.

(** [Node() {}]: [value] is left as the storage held it, [next] is
    default-constructed. *)
Definition Node_default (raw : Node) : Node :=
  mkNode (value raw) (NodePointer_default (next raw)).

Record Queue := mkQueue { _head : NodePointer; _tail : NodePointer }.

(** Shared memory: the heap of nodes and the queue object. *)
Record state := mkState { heap : gmap loc Node; queue : Queue }.

(** [new]: an address that is not in use. *)
Definition new_loc (h : gmap loc Node) : loc := fresh (dom h).

(** [Queue()]: one node from [new Node<T>()], whose storage held [raw];
    [_head] and [_tail] both store [NodePointer(node, 0)]. *)
Definition Queue_new (raw : Node) (h : gmap loc Node) : state :=
  let node := new_loc h in
  let p := NP (Some node) 0 in
  mkState (<[node := Node_default raw]> h) (mkQueue p p).

(** ** Atomic accesses *)

Definition load (st : state) (c : cell) : option NodePointer :=
  match c with
  | Head => Some (_head (queue st))
  | Tail => Some (_tail (queue st))
  | Next a => next <$> heap st !! a
  end.

Definition store (st : state) (c : cell) (v : NodePointer) : option state :=
  match c with
  | Head => Some (mkState (heap st) (mkQueue v (_tail (queue st))))
  | Tail => Some (mkState (heap st) (mkQueue (_head (queue st)) v))
  | Next a =>
      n ← heap st !! a;
      Some (mkState (<[a := mkNode (value n) v]> (heap st)) (queue st))
  end.

(** [atomic_compare_exchange_strong(&c, &expected, desired)]: the success
    flag, the new content of [expected], and the memory.  The content of
    the cell and [expected] are compared as values, by reference and
    generation, the two members of a [NodePointer]; the bytes of the
    object that hold neither member are not part of this model. *)
Definition cas (st : state) (c : cell) (expected desired : NodePointer)
  : option (bool * NodePointer * state) :=
  cur ← load st c;
  if decide (cur = expected)
  then st' ← store st c desired; Some (true, expected, st')
  else Some (false, cur, st).

(** ** [Queue::enqueue], one shared-memory access per step *)

Inductive enq_pc : Type :=
| ENew (val : T)
| ELoadTail (node : loc)
| ELoadNext (node : loc) (tail : NodePointer)
| ERecheck (node : loc) (tail next : NodePointer)
| ECasNext (node : loc) (tail next : NodePointer)
| ECasTail (node : loc) (tail next : NodePointer)
| ESwing (node : loc) (tail : NodePointer)
| EReturn.

Definition step_enq (st : state) (pc : enq_pc) : option (event * state * enq_pc) :=
  match pc with
  | ENew val =>
      (* auto node = new Node<T>(NodePointer<T>(nullptr, 0), val); *)
      let node := new_loc (heap st) in
      Some (EvNew node,
            mkState (<[node := mkNode val (NP None 0)]> (heap st)) (queue st),
            ELoadTail node)
  | ELoadTail node =>
      (* tail = _tail.load(); *)
      let tail := _tail (queue st) in
      Some (EvLoad Tail tail, st, ELoadNext node tail)
  | ELoadNext node tail =>
      (* auto next = tail.ptr->next.load(); *)
      a ← ptr tail;
      next ← load st (Next a);
      Some (EvLoad (Next a) next, st, ERecheck node tail next)
  | ERecheck node tail next =>
      (* if (tail == _tail.load()) { if (next.ptr == nullptr) ... else ... } *)
      let cur := _tail (queue st) in
      Some (EvLoad Tail cur, st,
            if NodePointer_eq tail cur
            then match ptr next with
                 | None => ECasNext node tail next
                 | Some _ => ECasTail node tail next
                 end
            else ELoadTail node)
  | ECasNext node tail next =>
      (* if (CAS(&tail.ptr->next, &next, NodePointer<T>(node, next.count + 1))) break; *)
      a ← ptr tail;
      let desired := NP (Some node) (int_succ (count next)) in
      '(ok, _, st') ← cas st (Next a) next desired;
      Some (EvCas (Next a) next desired ok, st',
            if ok : bool then ESwing node tail else ELoadTail node)
  | ECasTail node tail next =>
      (* CAS(&_tail, &tail, NodePointer<T>(next.ptr, tail.count + 1)); *)
      let desired := NP (ptr next) (int_succ (count tail)) in
      '(ok, _, st') ← cas st Tail tail desired;
      Some (EvCas Tail tail desired ok, st', ELoadTail node)
  | ESwing node tail =>
      (* CAS(&_tail, &tail, NodePointer<T>(node, tail.count + 1)); return *this; *)
      let desired := NP (Some node) (int_succ (count tail)) in
      '(ok, _, st') ← cas st Tail tail desired;
      Some (EvCas Tail tail desired ok, st', EReturn)
  | EReturn => None
  end.

(** ** [Queue::dequeue], one shared-memory access per step *)

Inductive deq_pc : Type :=
| DLoadHead
| DLoadTail (head : NodePointer)
| DLoadNext (head tail : NodePointer)
| DRecheck (head tail next : NodePointer)
| DCasTail (tail next : NodePointer)
| DReadValue (head next : NodePointer)
| DCasHead (head next : NodePointer)
| DDelete (head : NodePointer)
| DReturn (b : bool).

(** The second component is the caller's variable bound to [T& result]. *)
Definition step_deq (st : state) (pc : deq_pc) (result : T)
  : option (event * state * deq_pc * T) :=
  match pc with
  | DLoadHead =>
      (* head = _head.load(); *)
      let head := _head (queue st) in
      Some (EvLoad Head head, st, DLoadTail head, result)
  | DLoadTail head =>
      (* auto tail = _tail.load(); *)
      let tail := _tail (queue st) in
      Some (EvLoad Tail tail, st, DLoadNext head tail, result)
  | DLoadNext head tail =>
      (* auto next = head.ptr->next.load(); *)
      a ← ptr head;
      next ← load st (Next a);
      Some (EvLoad (Next a) next, st, DRecheck head tail next, result)
  | DRecheck head tail next =>
      (* if (head == _head.load()) { if (head.ptr == tail.ptr) { if (next.ptr == nullptr) return false; ... } else ... } *)
      let cur := _head (queue st) in
      Some (EvLoad Head cur, st,
            if NodePointer_eq head cur
            then if decide (ptr head = ptr tail)
                 then match ptr next with
                      | None => DReturn false
                      | Some _ => DCasTail tail next
                      end
                 else DReadValue head next
            else DLoadHead,
            result)
  | DCasTail tail next =>
      (* CAS(&_tail, &tail, NodePointer<T>(next.ptr, tail.count + 1)); *)
      let desired := NP (ptr next) (int_succ (count tail)) in
      '(ok, _, st') ← cas st Tail tail desired;
      Some (EvCas Tail tail desired ok, st', DLoadHead, result)
  | DReadValue head next =>
      (* result = next.ptr->value; *)
      a ← ptr next;
      n ← heap st !! a;
      Some (EvValue a, st, DCasHead head next, value n)
  | DCasHead head next =>
      (* if (CAS(&_head, &head, NodePointer<T>(next.ptr, head.count + 1))) break; *)
      let desired := NP (ptr next) (int_succ (count head)) in
      '(ok, head', st') ← cas st Head head desired;
      Some (EvCas Head head desired ok, st',
            if ok : bool then DDelete head' else DLoadHead,
            result)
  | DDelete head =>
      (* delete head.ptr; return true; *)
      match ptr head with
      | None => Some (EvDelete None, st, DReturn true, result)
      | Some a =>
          _ ← heap st !! a;
          Some (EvDelete (Some a), mkState (delete a (heap st)) (queue st),
                DReturn true, result)
      end
  | DReturn _ => None
  end.

(** ** Threads and their interleavings *)

(** A call in progress. *)
Inductive thread : Type :=
| TEnq (pc : enq_pc)
| TDeq (pc : deq_pc) (result : T).

Definition finished (th : thread) : bool :=
  match th with
  | TEnq EReturn => true
  | TDeq (DReturn _) _ => true
  | _ => false
  end.

Definition step_thread (st : state) (th : thread) : option (event * state * thread) :=
  match th with
  | TEnq pc =>
      '(e, st', pc') ← step_enq st pc; Some (e, st', TEnq pc')
  | TDeq pc result =>
      '(e, st', pc', result') ← step_deq st pc result; Some (e, st', TDeq pc' result')
  end.

(** Runs one thread alone until it returns. *)
Fixpoint run (fuel : nat) (st : state) (th : thread)
  : outcome (list event * state * thread) :=
  if finished th then Ret ([], st, th)
  else match fuel with
       | O => OutOfFuel
       | S fuel' =>
           match step_thread st th with
           | None => Fault
           | Some (e, st', th') =>
               match run fuel' st' th' with
               | Ret (tr, st'', th'') => Ret (e :: tr, st'', th'')
               | Fault => Fault
               | OutOfFuel => OutOfFuel
               end
           end
       end.

(** Runs several threads under a schedule: each entry names the thread
    that takes the next step; a thread that has returned stays as it is. *)
Fixpoint run_schedule (sched : list nat) (st : state) (ths : list thread)
  : option (state * list thread) :=
  match sched with
  | [] => Some (st, ths)
  | i :: sched' =>
      th ← ths !! i;
      if finished th then run_schedule sched' st ths
      else '(_, st', th') ← step_thread st th;
           run_schedule sched' st' (<[i := th']> ths)
  end.

(** ** The two operations as calls that run without interference *)

(** [q.enqueue(val)], with the trace of its memory accesses. *)
Definition enqueue_trace (fuel : nat) (st : state) (val : T)
  : outcome (list event * state) :=
  match run fuel st (TEnq (ENew val)) with
  | Ret (tr, st', _) => Ret (tr, st')
  | Fault => Fault
  | OutOfFuel => OutOfFuel
  end.

Definition enqueue (fuel : nat) (st : state) (val : T) : outcome state :=
  match enqueue_trace fuel st val with
  | Ret (_, st') => Ret st'
  | Fault => Fault
  | OutOfFuel => OutOfFuel
  end.

(** [q.dequeue(result)]: the trace, the returned flag, the content of
    [result] after the call, and the memory. *)
Definition dequeue_trace (fuel : nat) (st : state) (result : T)
  : outcome (list event * (bool * T * state)) :=
  match run fuel st (TDeq DLoadHead result) with
  | Ret (tr, st', TDeq (DReturn b) result') => Ret (tr, (b, result', st'))
  | Ret _ => Fault
  | Fault => Fault
  | OutOfFuel => OutOfFuel
  end.

Definition dequeue (fuel : nat) (st : state) (result : T)
  : outcome (bool * T * state) :=
  match dequeue_trace fuel st result with
  | Ret (_, r) => Ret r
  | Fault => Fault
  | OutOfFuel => OutOfFuel
  end.

(** ** The queue a memory represents *)

(** [linked h ns]: in [h], each node of [ns] points to the one after it
    and the last one has a null [next]. *)
Fixpoint linked (h : gmap loc Node) (ns : list loc) : Prop :=
  match ns with
  | [] => True
  | a :: ns' =>
      (∃ n, h !! a = Some n ∧ ptr (next n) = hd_error ns') ∧ linked h ns'
  end.

(** [values h ns vs]: [vs] are the values held by the nodes [ns]. *)
Definition values (h : gmap loc Node) (ns : list loc) (vs : list T) : Prop :=
  Forall2 (λ a v, value <$> h !! a = Some v) ns vs.

(** [repr st s ns vs]: [_head] points to the dummy node [s], the nodes
    linked after it are [ns] and hold the elements [vs], oldest first;
    [_tail] points into the list (it may lag behind the last node). *)
Record repr (st : state) (s : loc) (ns : list loc) (vs : list T) : Prop := {
  repr_head : ptr (_head (queue st)) = Some s;
  repr_linked : linked (heap st) (s :: ns);
  repr_nodup : NoDup (s :: ns);
  repr_tail : ∃ t, ptr (_tail (queue st)) = Some t ∧ t ∈ s :: ns;
  repr_values : values (heap st) ns vs
}.

(** The queue of [st] holds exactly the elements [vs], oldest first. *)
Definition holds (st : state) (vs : list T) : Prop :=
  ∃ s ns, repr st s ns vs.

(** Memories reached by single-threaded use of a new queue. *)
Inductive reachable : state → Prop :=
| reach_new raw h : reachable (Queue_new raw h)
| reach_enqueue st fuel val st' :
    reachable st → enqueue fuel st val = Ret st' → reachable st'
| reach_dequeue st fuel result b result' st' :
    reachable st → dequeue fuel st result = Ret (b, result', st') →
    reachable st'.

(** [n] calls of [dequeue] in a row, on the same variable [result]. *)
Fixpoint dequeue_many (fuel : nat) (n : nat) (st : state) (result : T)
  : outcome (list bool * T * state) :=
  match n with
  | O => Ret ([], result, st)
  | S n' =>
      match dequeue fuel st result with
      | Ret (b, result', st') =>
          match dequeue_many fuel n' st' result' with
          | Ret (bs, result'', st'') => Ret (b :: bs, result'', st'')
          | Fault => Fault
          | OutOfFuel => OutOfFuel
          end
      | Fault => Fault
      | OutOfFuel => OutOfFuel
      end
  end.


(** An empty queue at rest: [_head] and [_tail] both are [(s, c)] and the
    dummy node [s] has a null [next]. *)
Definition idle (st : state) (s : loc) (c : Z) : Prop :=
  _head (queue st) = NP (Some s) c ∧
  _tail (queue st) = NP (Some s) c ∧
  ∃ n, heap st !! s = Some n ∧ ptr (next n) = None.

(** A thread's steps, with their trace. *)
Inductive steps : state → thread → list event → state → thread → Prop :=
| steps_refl st th : steps st th [] st th
| steps_cons st th e st1 th1 tr st2 th2 :
    finished th = false →
    step_thread st th = Some (e, st1, th1) →
    steps st1 th1 tr st2 th2 →
    steps st th (e :: tr) st2 th2.

End Queue.
Arguments Node : clear implicits.
Arguments state : clear implicits.
Arguments enq_pc : clear implicits.
Arguments thread : clear implicits.


(** ** Example memories *)

(** A queue of [int] in which [enqueue(5)] has linked its node behind the
    dummy node and is about to swing [_tail]. *)
Definition mem_linked : state Z :=
  mkState (<[2%positive := mkNode 5 (NP None 0)]>
             {[1%positive := mkNode 0 (NP (Some 2%positive) 1)]})
          (mkQueue (NP (Some 1%positive) 0) (NP (Some 1%positive) 0)).


(** Storage whose [next.count] bytes hold 7 before [Node()] runs on it. *)
Definition raw_seven : Node Z := mkNode 0 (NP (Some 3%positive) 7).

(** ** Locals of a call in progress *)

Section Locals.
Context {T : Type}.

(** What the branches taken guarantee of the locals at a compare-and-swap:
    the link is attempted with a null [next], [_tail] and [_head] are
    advanced to a non-null [next.ptr]. *)
Definition thread_ok (th : thread T) : Prop :=
  match th with
  | TEnq (ECasNext _ _ next) => ptr next = None
  | TEnq (ECasTail _ _ next) => ptr next ≠ None
  | TDeq (DCasTail _ next) _ => ptr next ≠ None
  | TDeq (DCasHead _ next) _ => ptr next ≠ None
  | _ => True
  end.

End Locals.

(** [mem_linked] after a second [enqueue(9)] has allocated its node. *)
Definition mem_linked_new : state Z :=
  mkState (<[3%positive := mkNode 9 (NP None 0)]> (heap mem_linked))
          (queue mem_linked).

(** ** Single-threaded clients *)

Section Clients.
Context {T : Type}.

(** A call of a client: [q.enqueue(val)] or [q.dequeue(result)], the
    latter always on the same variable [result]. *)
Inductive call : Type :=
| CEnqueue (val : T)
| CDequeue.

(** What the client sees after a call: nothing for [enqueue]; for
    [dequeue] the returned flag and the content of [result]. *)
Inductive reply : Type :=
| REnqueue
| RDequeue (b : bool) (result : T).

Fixpoint run_calls (fuel : nat) (st : state T) (result : T) (cs : list call)
  : outcome (list reply * T * state T) :=
  match cs with
  | [] => Ret ([], result, st)
  | CEnqueue val :: cs' =>
      match enqueue fuel st val with
      | Ret st' =>
          match run_calls fuel st' result cs' with
          | Ret (rs, result', st'') => Ret (REnqueue :: rs, result', st'')
          | Fault => Fault
          | OutOfFuel => OutOfFuel
          end
      | Fault => Fault
      | OutOfFuel => OutOfFuel
      end
  | CDequeue :: cs' =>
      match dequeue fuel st result with
      | Ret (b, result', st') =>
          match run_calls fuel st' result' cs' with
          | Ret (rs, result'', st'') => Ret (RDequeue b result' :: rs, result'', st'')
          | Fault => Fault
          | OutOfFuel => OutOfFuel
          end
      | Fault => Fault
      | OutOfFuel => OutOfFuel
      end
  end.

(** The same calls on a first-in first-out list of elements. *)
Fixpoint fifo_calls (vs : list T) (result : T) (cs : list call)
  : list reply * T * list T :=
  match cs with
  | [] => ([], result, vs)
  | CEnqueue val :: cs' =>
      let '(rs, result', vs') := fifo_calls (vs ++ [val]) result cs' in
      (REnqueue :: rs, result', vs')
  | CDequeue :: cs' =>
      match vs with
      | [] =>
          let '(rs, result', vs') := fifo_calls [] result cs' in
          (RDequeue false result :: rs, result', vs')
      | v :: vs0 =>
          let '(rs, result', vs') := fifo_calls vs0 v cs' in
          (RDequeue true v :: rs, result', vs')
      end
  end.

(** Number of [enqueue] calls, and of [dequeue] calls that returned
    [true]. *)
Fixpoint enqueues (cs : list call) : nat :=
  match cs with
  | [] => 0
  | CEnqueue _ :: cs' => S (enqueues cs')
  | CDequeue :: cs' => enqueues cs'
  end.

Fixpoint dequeued (rs : list reply) : nat :=
  match rs with
  | [] => 0
  | RDequeue true _ :: rs' => S (dequeued rs')
  | _ :: rs' => dequeued rs'
  end.

(** [while (q.dequeue(numberToPrint)) { cout << numberToPrint << endl; }]
    with the numbers written, in order; [n] bounds the iterations. *)
Fixpoint drain (n : nat) (fuel : nat) (st : state T) (numberToPrint : T)
  : outcome (list T * T * state T) :=
  match n with
  | O => OutOfFuel
  | S n' =>
      match dequeue fuel st numberToPrint with
      | Ret (true, x, st') =>
          match drain n' fuel st' x with
          | Ret (out, x', st'') => Ret (x :: out, x', st'')
          | Fault => Fault
          | OutOfFuel => OutOfFuel
          end
      | Ret (false, x, st') => Ret ([], x, st')
      | Fault => Fault
      | OutOfFuel => OutOfFuel
      end
  end.

End Clients.
Arguments call : clear implicits.
Arguments reply : clear implicits.

(** ** Memories of single-threaded use, in full *)

Section Tight.
Context {T : Type}.

(** [tight h0 st s ns ne nd]: on top of [repr st s ns _], [_tail] points
    to the last node, the generations of [_tail] and [_head] count [ne]
    and [nd] in [int] arithmetic, and the heap consists of the nodes of
    the queue and of the heap [h0] that was there before the queue, the
    latter unchanged. *)
Definition tight (h0 : gmap loc (Node T)) (st : state T) (s : loc)
    (ns : list loc) (ne nd : nat) : Prop :=
  ptr (_tail (queue st)) = last (s :: ns) ∧
  count (_tail (queue st)) = wrap_int (Z.of_nat ne) ∧
  count (_head (queue st)) = wrap_int (Z.of_nat nd) ∧
  dom (heap st) = dom h0 ∪ list_to_set (s :: ns) ∧
  (∀ a, a ∈ s :: ns → h0 !! a = None) ∧
  (∀ a n, h0 !! a = Some n → heap st !! a = Some n).

End Tight.

(** ** The demo driver: [main] *)

Module Demo.

(** [const int RESULT_COUNT = 100;] *)
Definition RESULT_COUNT : Z := 100.

(** What [main] shares with its tasks: the heap, the two queues [q] and
    [results], and [counter]. *)
Record world := mkWorld {
  wheap : gmap loc (Node Z);
  q : Queue;
  results : Queue;
  counter : Z
}.

(** The memory as a call on [q] and as a call on [results] sees it. *)
Definition q_state (w : world) : state Z := mkState (wheap w) (q w).
Definition results_state (w : world) : state Z := mkState (wheap w) (results w).

(** The world after a call on [q], after a call on [results]. *)
Definition with_q (w : world) (st : state Z) : world :=
  mkWorld (heap st) (queue st) (results w) (counter w).
Definition with_results (w : world) (st : state Z) : world :=
  mkWorld (heap st) (q w) (queue st) (counter w).

(** [auto q = Queue<int>(); auto counter = 0; auto results = Queue<int>();]
    on storage [raw_q], [raw_results] and heap [h]. *)
Definition setup (raw_q raw_results : Node Z) (h : gmap loc (Node Z)) : world :=
  let st_q := Queue_new raw_q h in
  let st_r := Queue_new raw_results (heap st_q) in
  mkWorld (heap st_r) (queue st_q) (queue st_r) 0.

(** A line written to [cout]: a number, or
    ["leftovers from data race:"]. *)
Inductive line : Type :=
| Number (z : Z)
| Leftovers.

(** The end of [main], after the tasks have been joined:
    [auto numberToPrint = 0;], the loop over [results], the header, the
    loop over [q]. *)
Definition report (n fuel : nat) (w : world) : outcome (list line * world) :=
  match drain n fuel (results_state w) 0 with
  | Ret (out1, x, st1) =>
      let w1 := with_results w st1 in
      match drain n fuel (q_state w1) x with
      | Ret (out2, _, st2) =>
          Ret ((Number <$> out1) ++ Leftovers :: (Number <$> out2), with_q w1 st2)
      | Fault => Fault
      | OutOfFuel => OutOfFuel
      end
  | Fault => Fault
  | OutOfFuel => OutOfFuel
  end.

(** The inner loop of a task:
    [while (counter % 2 != 0 && q.dequeue(result)) { results.enqueue(result); ... }] *)
Fixpoint move (n fuel : nat) (w : world) (result : Z) : outcome (world * Z) :=
  match n with
  | O => OutOfFuel
  | S n' =>
      if Z.rem (counter w) 2 =? 0 then Ret (w, result)
      else
        match dequeue fuel (q_state w) result with
        | Ret (true, x, st1) =>
            let w1 := with_q w st1 in
            match enqueue fuel (results_state w1) x with
            | Ret st2 => move n' fuel (with_results w1 st2) x
            | Fault => Fault
            | OutOfFuel => OutOfFuel
            end
        | Ret (false, x, st1) => Ret (with_q w st1, x)
        | Fault => Fault
        | OutOfFuel => OutOfFuel
        end
  end.

(** The loop of a task, with [RESULT_COUNT] as [limit]:
    [while (counter < RESULT_COUNT) { q.enqueue(counter++); while ... }] *)
Fixpoint produce (n fuel : nat) (limit : Z) (w : world) (result : Z)
  : outcome (world * Z) :=
  match n with
  | O => OutOfFuel
  | S n' =>
      if counter w <? limit then
        match enqueue fuel (q_state w) (counter w) with
        | Ret st1 =>
            let w1 := mkWorld (heap st1) (queue st1) (results w)
                        (int_succ (counter w)) in
            match move n fuel w1 result with
            | Ret (w2, result') => produce n' fuel limit w2 result'
            | Fault => Fault
            | OutOfFuel => OutOfFuel
            end
        | Fault => Fault
        | OutOfFuel => OutOfFuel
        end
      else Ret (w, result)
  end.

(** The task's lambda, run without any other task taking a step:
    [int result = 0; while ...]. *)
Definition task (n fuel : nat) (w : world) : outcome world :=
  match produce n fuel RESULT_COUNT w 0 with
  | Ret (w', _) => Ret w'
  | Fault => Fault
  | OutOfFuel => OutOfFuel
  end.

(** What a task that runs alone has left in [q] and has moved to
    [results] when [counter] is [c]. *)
Definition kept (c : Z) : list Z :=
  if Z.even c && (0 <? c) then [c - 1] else [].

Definition moved (c : Z) : list Z := seqZ 0 (c - Z.of_nat (length (kept c))).

(** Both queues of [w] are represented, on separate nodes: [q] holds [vs]
    and [results] holds [rs]. *)
Definition both (w : world) (vs rs : list Z) : Prop :=
  ∃ s1 ns1 s2 ns2,
    repr (q_state w) s1 ns1 vs ∧
    repr (results_state w) s2 ns2 rs ∧
    (∀ a, a ∈ s1 :: ns1 → a ∉ s2 :: ns2).

End Demo.

(** ** Concurrent [enqueue] calls *)

Section Producers.
Context {T : Type}.

(** The new node [a] of a call that enqueues [x], before it is linked: it
    is not in the list [l] and holds [x] with [next = (null, 0)]. *)
Definition owns (st : state T) (l : list loc) (a : loc) (x : T) : Prop :=
  (a ∉ l) ∧ heap st !! a = Some (mkNode x (NP None 0)).

(** The local [tail] points to a node of the list. *)
Definition points_into (l : list loc) (tl : NodePointer) : Prop :=
  ∃ t, ptr tl = Some t ∧ t ∈ l.

(** A non-null local [next] is still what [tail.ptr->next] refers to. *)
Definition seen (st : state T) (tl nx : NodePointer) : Prop :=
  ptr nx ≠ None →
  ∃ t n, ptr tl = Some t ∧ heap st !! t = Some n ∧ ptr (next n) = ptr nx.

(** What holds of a call [enqueue(x)] in progress, where [l] is the list
    of nodes from the dummy node on. *)
Definition enq_inv (st : state T) (l : list loc) (th : thread T) (x : T)
  : Prop :=
  match th with
  | TEnq (ENew v) => v = x
  | TEnq (ELoadTail a) => owns st l a x
  | TEnq (ELoadNext a tl) => owns st l a x ∧ points_into l tl
  | TEnq (ERecheck a tl nx) => owns st l a x ∧ points_into l tl ∧ seen st tl nx
  | TEnq (ECasNext a tl nx) => owns st l a x ∧ points_into l tl ∧ ptr nx = None
  | TEnq (ECasTail a tl nx) =>
      owns st l a x ∧ points_into l tl ∧ seen st tl nx ∧ ptr nx ≠ None
  | TEnq (ESwing a _) => a ∈ l
  | TEnq EReturn => True
  | TDeq _ _ => False
  end.

(** The node of a call that is allocated and not yet linked. *)
Definition pending_node (th : thread T) : option loc :=
  match th with
  | TEnq (ELoadTail a) | TEnq (ELoadNext a _) | TEnq (ERecheck a _ _)
  | TEnq (ECasNext a _ _) | TEnq (ECasTail a _ _) => Some a
  | _ => None
  end.

(** The value of a call whose node is not yet linked. *)
Definition todo (th : thread T) (x : T) : list T :=
  match th with
  | TEnq (ESwing _ _) | TEnq EReturn => []
  | _ => [x]
  end.

(** The memory and the calls [ths], which enqueue [xs], on a queue that
    held [vs] when they started: [l] is the list of nodes from the dummy
    node on and [ys] are the values linked so far, in order. *)
Record producers_inv (vs : list T) (st : state T) (ths : list (thread T))
    (xs : list T) (l : list loc) (ys : list T) : Prop := {
  pi_head : hd_error l = ptr (_head (queue st));
  pi_nonempty : l ≠ [];
  pi_linked : linked (heap st) l;
  pi_nodup : NoDup l;
  pi_tail : points_into l (_tail (queue st));
  pi_values : values (heap st) (tail l) (vs ++ ys);
  pi_threads : Forall2 (enq_inv st l) ths xs;
  pi_apart : ∀ i j thi thj a,
    i ≠ j → ths !! i = Some thi → ths !! j = Some thj →
    pending_node thi = Some a → pending_node thj = Some a → False;
  pi_count : ys ++ concat (zip_with todo ths xs) ≡ₚ xs
}.

End Producers.

(** A schedule of two [enqueue] calls on [mem_linked] under which both
    return, with the memory and the threads it ends in. *)
Definition two_producers_schedule : list nat :=
  [0; 1; 1; 0; 0; 1; 1; 0; 0; 1; 1; 1; 1; 1; 1; 0; 0; 0; 0; 0; 0; 0; 0; 0; 0;
   0; 0; 0; 0; 0]%nat.

Definition two_producers_end : option (state Z * list (thread Z)) :=
  Eval vm_compute in
    run_schedule two_producers_schedule mem_linked
      ((λ v, TEnq (ENew v)) <$> [7; 8]).

Definition two_producers_state : state Z :=
  Eval vm_compute in
    match two_producers_end with Some (st, _) => st | None => mem_linked end.

Definition two_producers_threads : list (thread Z) :=
  Eval vm_compute in
    match two_producers_end with Some (_, ths) => ths | None => [] end.

(** ** One [enqueue] call racing with one [dequeue] call *)

Section Race.
Context {T : Type}.

(** The [enqueue] call has linked its node. *)
Definition e_linked (th : thread T) : bool :=
  match th with
  | TEnq (ESwing _ _) | TEnq EReturn => true
  | _ => false
  end.

(** The [dequeue] call has moved [_head]; its [result] holds the element
    it took. *)
Definition d_took (th : thread T) : option T :=
  match th with
  | TDeq (DDelete _) result | TDeq (DReturn true) result => Some result
  | _ => None
  end.

(** What holds of the call [enqueue(x)] while a [dequeue] call runs too;
    [s :: ns] is the list of nodes from the dummy node on. *)
Definition enq_race (st : state T) (s : loc) (ns : list loc) (th : thread T)
    (x : T) : Prop :=
  match th with
  | TEnq (ENew v) => v = x
  | TEnq (ELoadTail a) => owns st (s :: ns) a x
  | TEnq (ELoadNext a tl) => owns st (s :: ns) a x ∧ tl = _tail (queue st)
  | TEnq (ERecheck a tl nx) | TEnq (ECasNext a tl nx) =>
      owns st (s :: ns) a x ∧ tl = _tail (queue st) ∧
      ∃ t n, ptr tl = Some t ∧ heap st !! t = Some n ∧ next n = nx
  | TEnq (ECasTail _ _ _) => False
  | TEnq (ESwing a _) => last (s :: ns) = Some a
  | TEnq EReturn => True
  | TDeq _ _ => False
  end.

(** Where [_tail] points: to the last node, except between the link and
    the swing of the [enqueue] call, when it may still be the [tail] the
    call loaded, one node behind. *)
Definition tail_race (st : state T) (s : loc) (ns : list loc) (th : thread T)
  : Prop :=
  match th with
  | TEnq (ESwing a tl) =>
      ptr (_tail (queue st)) = Some a ∨
      (_tail (queue st) = tl ∧
       ∃ t n, ptr tl = Some t ∧ t ∈ s :: ns ∧ t ≠ a ∧ heap st !! t = Some n ∧
              ptr (next n) = Some a)
  | _ => ptr (_tail (queue st)) = last (s :: ns)
  end.

(** What holds of the call [dequeue(result)], started with [result = r],
    while an [enqueue] call runs too; [cur] are the elements in the nodes
    [ns], and [E] is what the call knows once it has seen a dummy node
    without a successor. *)
Definition deq_race (E : Prop) (r : T) (st : state T) (s : loc)
    (ns : list loc) (cur : list T) (th : thread T) : Prop :=
  let ahead tl := ptr tl = Some s ∨ ptr (_tail (queue st)) ≠ Some s in
  let next_of_dummy nx :=
    ∃ n, heap st !! s = Some n ∧ ptr (next n) = ptr nx in
  match th with
  | TDeq DLoadHead res => res = r
  | TDeq (DLoadTail hd) res => res = r ∧ hd = _head (queue st)
  | TDeq (DLoadNext hd tl) res => res = r ∧ hd = _head (queue st) ∧ ahead tl
  | TDeq (DRecheck hd tl nx) res =>
      res = r ∧ hd = _head (queue st) ∧ ahead tl ∧
      (ptr tl = Some s ∨ ptr nx ≠ None) ∧
      (ptr nx = None → E) ∧
      (ptr nx ≠ None → next_of_dummy nx)
  | TDeq (DCasTail tl nx) res =>
      res = r ∧ ptr tl = Some s ∧ ptr nx ≠ None ∧ next_of_dummy nx
  | TDeq (DReadValue hd nx) res =>
      res = r ∧ hd = _head (queue st) ∧
      ptr (_tail (queue st)) ≠ Some s ∧ ptr nx ≠ None ∧ next_of_dummy nx
  | TDeq (DCasHead hd nx) res =>
      hd = _head (queue st) ∧
      ptr (_tail (queue st)) ≠ Some s ∧ ptr nx ≠ None ∧ next_of_dummy nx ∧
      hd_error cur = Some res
  | TDeq (DDelete hd) _ =>
      ∃ o n, ptr hd = Some o ∧ heap st !! o = Some n ∧
             ptr (next n) ≠ None ∧ o ∉ s :: ns
  | TDeq (DReturn true) _ => True
  | TDeq (DReturn false) res => res = r ∧ E
  | TEnq _ => False
  end.

(** The element the [dequeue] call has taken, and the element the
    [enqueue(x)] call has linked. *)
Definition taken_by (thd : thread T) : list T :=
  match d_took thd with Some v => [v] | None => [] end.

Definition linked_by (the : thread T) (x : T) : list T :=
  if e_linked the then [x] else [].

(** The memory while [enqueue(x)] (thread [the]) races with
    [dequeue(result)] (thread [thd]): [sent] are the elements that were
    put in the queue before the two calls started and [got] those of
    them that were taken from it. *)
Record race_inv (E : Prop) (got sent : list T) (x r : T) (st : state T)
    (the thd : thread T) (s : loc) (ns : list loc) (cur : list T) : Prop := {
  ri_head : ptr (_head (queue st)) = Some s;
  ri_linked : linked (heap st) (s :: ns);
  ri_nodup : NoDup (s :: ns);
  ri_values : values (heap st) ns cur;
  ri_tail : tail_race st s ns the;
  ri_enq : enq_race st s ns the x;
  ri_deq : deq_race E r st s ns cur thd;
  ri_base : got ++ taken_by thd ++ cur = sent ++ linked_by the x
}.

End Race.

(** ** Client threads *)

Section Threads.
Context {T : Type}.

(** A thread that makes calls one after the other: the call in progress,
    its variable [result], the calls still to make and the replies so
    far. *)
Record client : Type := mkClient {
  running : option (thread T);
  result_var : T;
  later : list (call T);
  replies : list (reply T)
}.

(** A call before its first step. *)
Definition start (c : call T) (result : T) : thread T :=
  match c with
  | CEnqueue val => TEnq (ENew val)
  | CDequeue => TDeq DLoadHead result
  end.

(** The client after a step of its call: a call that has returned leaves
    its reply, and [dequeue] the content of [result]. *)
Definition settle (th : thread T) (result : T) (cs : list (call T))
    (rs : list (reply T)) : client :=
  match th with
  | TEnq EReturn => mkClient None result cs (rs ++ [REnqueue])
  | TDeq (DReturn b) result' =>
      mkClient None result' cs (rs ++ [RDequeue b result'])
  | _ => mkClient (Some th) result cs rs
  end.

(** One step of a client: the next memory access of the call in progress
    or, when there is none, of the next call. A client that has made all
    its calls stays as it is. *)
Definition step_client (st : state T) (c : client)
  : option (state T * client) :=
  match running c, later c with
  | Some th, cs =>
      '(_, st', th') ← step_thread st th;
      Some (st', settle th' (result_var c) cs (replies c))
  | None, k :: cs =>
      '(_, st', th') ← step_thread st (start k (result_var c));
      Some (st', settle th' (result_var c) cs (replies c))
  | None, [] => Some (st, c)
  end.

(** Runs several clients under a schedule: each entry names the client
    that takes the next step. *)
Fixpoint run_clients (sched : list nat) (st : state T) (cs : list client)
  : option (state T * list client) :=
  match sched with
  | [] => Some (st, cs)
  | i :: sched' =>
      c ← cs !! i;
      '(st', c') ← step_client st c;
      run_clients sched' st' (<[i := c']> cs)
  end.

End Threads.
Arguments client : clear implicits.

(** A schedule of [enqueue(7)] and [dequeue(result)] on a new queue under
    which the [dequeue] call swings [_tail] for the [enqueue] call and
    takes its element, with the memory and the threads it ends in. *)
Definition race_schedule : list nat :=
  [0; 0; 0; 0; 0; 1; 1; 1; 1; 1; 0; 1; 1; 1; 1; 1; 1; 1; 1]%nat.

Definition race_outcome : option (state Z * list (thread Z)) :=
  Eval vm_compute in
    run_schedule race_schedule (Queue_new raw_seven ∅)
      [TEnq (ENew 7); TDeq DLoadHead 0].

Definition race_state : state Z :=
  Eval vm_compute in
    match race_outcome with Some (st, _) => st | None => mem_linked end.

Definition race_threads : list (thread Z) :=
  Eval vm_compute in
    match race_outcome with Some (_, ths) => ths | None => [] end.





(** The two queues of [main] after tasks that have left 7 in [q] and
    3, 4 in [results]. *)
Definition world_joined : Demo.world :=
  Demo.mkWorld
    (<[5%positive := mkNode 4 (NP None 0)]>
       (<[4%positive := mkNode 3 (NP (Some 5%positive) 1)]>
          (<[3%positive := mkNode 7 (NP None 0)]>
             (<[2%positive := mkNode 0 (NP (Some 4%positive) 1)]>
                {[1%positive := mkNode 0 (NP (Some 3%positive) 1)]}))))
    (mkQueue (NP (Some 1%positive) 0) (NP (Some 3%positive) 1))
    (mkQueue (NP (Some 2%positive) 0) (NP (Some 5%positive) 2))
    3.





(** ** Schedules with their traces *)

Section Traces.
Context {T : Type}.

(** [run_schedule] with the events of the steps taken, in order. *)
Fixpoint run_schedule_trace (sched : list nat) (st : state T)
    (ths : list (thread T)) : option (list event * state T * list (thread T)) :=
  match sched with
  | [] => Some ([], st, ths)
  | i :: sched' =>
      th ← ths !! i;
      if finished th then run_schedule_trace sched' st ths
      else '(e, st', th') ← step_thread st th;
           '(tr, st'', ths'') ← run_schedule_trace sched' st' (<[i := th']> ths);
           Some (e :: tr, st'', ths'')
  end.


End Traces.








(** Three threads on a new queue: one calls [enqueue(5)], two call
    [dequeue].  Under [unsafe_schedule] the first runs its call, the
    second loads [_head], the third runs its call, which deletes the node
    [_head] pointed to, and the second loads [_tail]; its next step is
    [head.ptr->next.load()]. *)
Definition unsafe_clients : list (client Z) :=
  [mkClient None 0 [CEnqueue 5] [];
   mkClient None 0 [CDequeue] [];
   mkClient None 0 [CDequeue] []].

Definition unsafe_schedule : list nat :=
  replicate 6 0%nat ++ [1%nat] ++ replicate 7 2%nat ++ [1%nat].

Definition unsafe_outcome : option (state Z * list (client Z)) :=
  Eval vm_compute in
    run_clients unsafe_schedule (Queue_new raw_seven ∅) unsafe_clients.

Definition unsafe_state : state Z :=
  Eval vm_compute in
    match unsafe_outcome with Some (st, _) => st | None => mem_linked end.

Definition unsafe_end : list (client Z) :=
  Eval vm_compute in
    match unsafe_outcome with Some (_, cs) => cs | None => [] end.

(** ** A [dequeue] call among [enqueue] calls *)

Section Among.
Context {T : Type}.






End Among.





(** * Properties *)

Section Run.
Context {T : Type}.
Implicit Types (st : state T) (th : thread T) (h : gmap loc (Node T)).

Lemma steps_trans st th tr1 st1 th1 tr2 st2 th2 :
  steps st th tr1 st1 th1 → steps st1 th1 tr2 st2 th2 →
  steps st th (tr1 ++ tr2) st2 th2.
Proof.
  induction 1 as [|? ? ? ? ? ? ? ? Hf Hs _ IH]; intros H2; [done|].
  simpl. eapply steps_cons; eauto.
Qed.

Lemma steps_run st th tr st' th' :
  steps st th tr st' th' → finished th' = true →
  ∀ fuel, (length tr ≤ fuel)%nat → run fuel st th = Ret (tr, st', th').
Proof.
  induction 1 as [st th|st th e st1 th1 tr st2 th2 Hf Hs _ IH]; intros Hfin fuel Hle.
  - destruct fuel; simpl; by rewrite Hfin.
  - destruct fuel as [|fuel]; simpl in Hle; [lia|].
    simpl. rewrite Hf, Hs, (IH Hfin fuel) by lia. done.
Qed.

Lemma run_steps fuel st th tr st' th' :
  run fuel st th = Ret (tr, st', th') →
  steps st th tr st' th' ∧ finished th' = true.
Proof.
  revert st th tr. induction fuel as [|fuel IH]; intros st th tr; simpl.
  - destruct (finished th) eqn:Hf; [|done].
    intros [= <- <- <-]. split; [constructor|done].
  - destruct (finished th) eqn:Hf.
    { intros [= <- <- <-]. split; [constructor|done]. }
    destruct (step_thread st th) as [[[e st1] th1]|] eqn:Hs; [|done].
    destruct (run fuel st1 th1) as [[[tr1 st2] th2]| |] eqn:Hr; try done.
    intros [= <- <- <-]. destruct (IH _ _ _ Hr) as [? ?].
    split; [|done]. eapply steps_cons; eauto.
Qed.

End Run.

(** ** Heap lemmas *)

Section Heap.
Context {T : Type}.
Implicit Types (h : gmap loc (Node T)) (ns : list loc) (vs : list T).

Lemma linked_frame h h' ns :
  (∀ a, a ∈ ns → h' !! a = h !! a) → linked h ns → linked h' ns.
Proof.
  induction ns as [|a ns IH]; simpl; [done|].
  intros Hsame [(n & Hn & Hnext) Hl]. split.
  - exists n. rewrite Hsame; [done|]. by left.
  - apply IH; [|done]. intros b Hb. apply Hsame. by right.
Qed.

Lemma values_frame h h' ns vs :
  (∀ a, a ∈ ns → value <$> h' !! a = value <$> h !! a) →
  values h ns vs → values h' ns vs.
Proof.
  unfold values. intros Hsame Hv.
  induction Hv as [|a v ns vs Ha _ IH]; constructor.
  - rewrite Hsame; [done|]. by left.
  - apply IH. intros b Hb. apply Hsame. by right.
Qed.

Lemma linked_lookup h ns a :
  linked h ns → a ∈ ns → is_Some (h !! a).
Proof.
  induction ns as [|b ns IH]; simpl; [by intros _ ?%elem_of_nil|].
  intros [(n & Hn & _) Hl] [->|Hin]%elem_of_cons; eauto.
Qed.

Lemma linked_split h pre t post :
  linked h (pre ++ t :: post) →
  ∃ n, h !! t = Some n ∧ ptr (next n) = hd_error post.
Proof.
  induction pre as [|a pre IH]; simpl.
  - intros [(n & Hn & Hnext) _]. eauto.
  - intros [_ Hl]. auto.
Qed.

Lemma linked_suffix h pre post :
  linked h (pre ++ post) → linked h post.
Proof. induction pre as [|a pre IH]; simpl; [done|]. intros [_ ?]. auto. Qed.

(** Linking a node [a] with a null [next] behind the last node [t]. *)
Lemma linked_snoc h pre t a n na c :
  linked h (pre ++ [t]) → NoDup (pre ++ [t]) → a ∉ pre ++ [t] →
  h !! t = Some n → h !! a = Some na → ptr (next na) = None →
  linked (<[t := mkNode (value n) (NP (Some a) c)]> h) (pre ++ [t; a]).
Proof.
  intros Hl Hnd Ha Ht Hna Hnull.
  induction pre as [|b pre IH]; simpl in *.
  - repeat split; try done.
    + eexists. rewrite lookup_insert_eq. done.
    + exists na. rewrite lookup_insert_ne; [done|].
      intros ->. apply Ha. by left.
  - destruct Hl as [(nb & Hb & Hnext) Hl].
    apply NoDup_cons in Hnd as [Hb_notin Hnd].
    split.
    + exists nb. rewrite lookup_insert_ne; [split; [done|]|].
      * rewrite Hnext. by destruct pre.
      * intros ->. apply Hb_notin. apply elem_of_app. right. by left.
    + apply IH; [done|done|]. intros Hin. apply Ha. by right.
Qed.

Lemma values_unique h ns vs vs' :
  values h ns vs → values h ns vs' → vs = vs'.
Proof.
  unfold values. intros Hv. revert vs'.
  induction Hv as [|a v ns vs Ha _ IH]; intros vs' Hv'.
  - by inversion Hv'.
  - inversion Hv' as [|? v' ? vs'' Ha' Hv'']; subst.
    f_equal; [congruence|auto].
Qed.

End Heap.

(** ** Single steps of a call that runs without interference *)

Section Steps.
Context {T : Type}.
Implicit Types (st : state T) (h : gmap loc (Node T)) (r : T).

Lemma NodePointer_eq_refl (a : NodePointer) : NodePointer_eq a a = true.
Proof. unfold NodePointer_eq. by rewrite !bool_decide_eq_true_2. Qed.


Lemma cas_same st c v d st' :
  load st c = Some v → store st c d = Some st' →
  cas st c v d = Some (true, v, st').
Proof.
  intros Hl Hs. unfold cas. rewrite Hl. simpl.
  rewrite decide_True by done. rewrite Hs. done.
Qed.

Lemma step_DLoadNext st hd tl r a n :
  ptr hd = Some a → heap st !! a = Some n →
  step_thread st (TDeq (DLoadNext hd tl) r)
  = Some (EvLoad (Next a) (next n), st, TDeq (DRecheck hd tl (next n)) r).
Proof. intros Hp Hn. simpl. rewrite Hp. simpl. rewrite Hn. done. Qed.

Lemma step_DRecheck_empty st hd tl nx r :
  _head (queue st) = hd → ptr hd = ptr tl → ptr nx = None →
  step_thread st (TDeq (DRecheck hd tl nx) r)
  = Some (EvLoad Head hd, st, TDeq (DReturn false) r).
Proof.
  intros Hh Hp Hn. simpl. rewrite Hh, NodePointer_eq_refl.
  rewrite decide_True by done. rewrite Hn. done.
Qed.

Lemma step_DRecheck_lag st hd tl nx r b :
  _head (queue st) = hd → ptr hd = ptr tl → ptr nx = Some b →
  step_thread st (TDeq (DRecheck hd tl nx) r)
  = Some (EvLoad Head hd, st, TDeq (DCasTail tl nx) r).
Proof.
  intros Hh Hp Hn. simpl. rewrite Hh, NodePointer_eq_refl.
  rewrite decide_True by done. rewrite Hn. done.
Qed.

Lemma step_DRecheck_ne st hd tl nx r :
  _head (queue st) = hd → ptr hd ≠ ptr tl →
  step_thread st (TDeq (DRecheck hd tl nx) r)
  = Some (EvLoad Head hd, st, TDeq (DReadValue hd nx) r).
Proof.
  intros Hh Hp. simpl. rewrite Hh, NodePointer_eq_refl.
  rewrite decide_False by done. done.
Qed.

Lemma step_DCasTail st tl nx r :
  _tail (queue st) = tl →
  step_thread st (TDeq (DCasTail tl nx) r)
  = Some (EvCas Tail tl (NP (ptr nx) (int_succ (count tl))) true,
          mkState (heap st)
            (mkQueue (_head (queue st)) (NP (ptr nx) (int_succ (count tl)))),
          TDeq DLoadHead r).
Proof.
  intros Ht. simpl. erewrite cas_same; [done| |done]. simpl. by rewrite Ht.
Qed.

Lemma step_DReadValue st hd nx r b nb :
  ptr nx = Some b → heap st !! b = Some nb →
  step_thread st (TDeq (DReadValue hd nx) r)
  = Some (EvValue b, st, TDeq (DCasHead hd nx) (value nb)).
Proof. intros Hp Hn. simpl. rewrite Hp. simpl. rewrite Hn. done. Qed.

Lemma step_DCasHead st hd nx r :
  _head (queue st) = hd →
  step_thread st (TDeq (DCasHead hd nx) r)
  = Some (EvCas Head hd (NP (ptr nx) (int_succ (count hd))) true,
          mkState (heap st)
            (mkQueue (NP (ptr nx) (int_succ (count hd))) (_tail (queue st))),
          TDeq (DDelete hd) r).
Proof.
  intros Hh. simpl. erewrite cas_same; [done| |done]. simpl. by rewrite Hh.
Qed.

Lemma step_DDelete st hd r a n :
  ptr hd = Some a → heap st !! a = Some n →
  step_thread st (TDeq (DDelete hd) r)
  = Some (EvDelete (Some a), mkState (delete a (heap st)) (queue st),
          TDeq (DReturn true) r).
Proof. intros Hp Hn. simpl. rewrite Hp, Hn. done. Qed.

Lemma step_ELoadNext st node tl a n :
  ptr tl = Some a → heap st !! a = Some n →
  step_thread st (TEnq (ELoadNext node tl))
  = Some (EvLoad (Next a) (next n), st, TEnq (ERecheck node tl (next n))).
Proof. intros Hp Hn. simpl. rewrite Hp. simpl. rewrite Hn. done. Qed.

Lemma step_ERecheck_last st node tl nx :
  _tail (queue st) = tl → ptr nx = None →
  step_thread st (TEnq (ERecheck node tl nx))
  = Some (EvLoad Tail tl, st, TEnq (ECasNext node tl nx)).
Proof.
  intros Ht Hn. simpl. rewrite Ht, NodePointer_eq_refl, Hn. done.
Qed.

Lemma step_ERecheck_lag st node tl nx b :
  _tail (queue st) = tl → ptr nx = Some b →
  step_thread st (TEnq (ERecheck node tl nx))
  = Some (EvLoad Tail tl, st, TEnq (ECasTail node tl nx)).
Proof.
  intros Ht Hn. simpl. rewrite Ht, NodePointer_eq_refl, Hn. done.
Qed.

Lemma step_ECasNext st node tl a n :
  ptr tl = Some a → heap st !! a = Some n →
  step_thread st (TEnq (ECasNext node tl (next n)))
  = Some (EvCas (Next a) (next n)
            (NP (Some node) (int_succ (count (next n)))) true,
          mkState (<[a := mkNode (value n)
                            (NP (Some node) (int_succ (count (next n))))]>
                     (heap st)) (queue st),
          TEnq (ESwing node tl)).
Proof.
  intros Hp Hn. simpl. rewrite Hp. simpl.
  erewrite cas_same; [done| |]; simpl; rewrite Hn; done.
Qed.

Lemma step_ECasTail st node tl nx :
  _tail (queue st) = tl →
  step_thread st (TEnq (ECasTail node tl nx))
  = Some (EvCas Tail tl (NP (ptr nx) (int_succ (count tl))) true,
          mkState (heap st)
            (mkQueue (_head (queue st)) (NP (ptr nx) (int_succ (count tl)))),
          TEnq (ELoadTail node)).
Proof.
  intros Ht. simpl. erewrite cas_same; [done| |done]. simpl. by rewrite Ht.
Qed.

Lemma step_ESwing st node tl :
  _tail (queue st) = tl →
  step_thread st (TEnq (ESwing node tl))
  = Some (EvCas Tail tl (NP (Some node) (int_succ (count tl))) true,
          mkState (heap st)
            (mkQueue (_head (queue st)) (NP (Some node) (int_succ (count tl)))),
          TEnq EReturn).
Proof.
  intros Ht. simpl. erewrite cas_same; [done| |done]. simpl. by rewrite Ht.
Qed.

End Steps.

(** ** [dequeue] on a represented queue *)

Section Dequeue.
Context {T : Type}.
Implicit Types (st : state T) (h : gmap loc (Node T)) (r v : T)
  (ns : list loc) (vs : list T).

Lemma repr_nil_nodes st s ns : repr st s ns [] → ns = [].
Proof. intros [_ _ _ _ Hv]. by inversion Hv. Qed.

Lemma repr_unique st s ns vs s' ns' vs' :
  repr st s ns vs → repr st s' ns' vs' → vs = vs'.
Proof.
  intros [Hh Hl _ _ Hv] [Hh' Hl' _ _ Hv'].
  assert (s' = s) as -> by congruence. clear Hh Hh'.
  revert s vs ns' vs' Hl Hl' Hv Hv'.
  induction ns as [|a ns IH]; intros s vs ns' vs' Hl Hl' Hv Hv'.
  - destruct Hl as [(n & Hn & Hnext) _], Hl' as [(n' & Hn' & Hnext') _].
    assert (n' = n) as -> by congruence.
    destruct ns'; simpl in *; [|congruence].
    inversion Hv; inversion Hv'; done.
  - destruct Hl as [(n & Hn & Hnext) Hl], Hl' as [(n' & Hn' & Hnext') Hl'].
    assert (n' = n) as -> by congruence.
    destruct ns' as [|a' ns']; simpl in *; [congruence|].
    assert (a' = a) as -> by congruence.
    inversion Hv as [|? v ? vs0 Ha Hvs]; subst.
    inversion Hv' as [|? v' ? vs0' Ha' Hvs']; subst.
    f_equal; [congruence|]. eapply IH; eauto.
Qed.

Lemma holds_unique st vs vs' : holds st vs → holds st vs' → vs = vs'.
Proof. intros (s & ns & H) (s' & ns' & H'). eapply repr_unique; eauto. Qed.

(** The empty path: four loads, no write. *)
Lemma dequeue_steps_empty st s r :
  repr st s [] [] →
  ∃ nx, steps st (TDeq DLoadHead r)
          [EvLoad Head (_head (queue st)); EvLoad Tail (_tail (queue st));
           EvLoad (Next s) nx; EvLoad Head (_head (queue st))]
          st (TDeq (DReturn false) r).
Proof.
  intros [Hh Hl _ (t & Ht & Hin) _].
  destruct Hl as [(n & Hn & Hnext) _]. simpl in Hnext.
  assert (t = s) as -> by by apply list_elem_of_singleton in Hin.
  exists (next n).
  eapply steps_cons; [done|done|].
  eapply steps_cons; [done|done|].
  eapply steps_cons; [done|by eapply step_DLoadNext|].
  eapply steps_cons; [done|eapply step_DRecheck_empty; congruence|].
  constructor.
Qed.

(** [_tail] still points to the dummy node although a node is linked after
    it: the call first helps [_tail] forward. *)
Lemma dequeue_steps_help st s b ns vs r :
  repr st s (b :: ns) vs → ptr (_tail (queue st)) = Some s →
  ∃ tr st',
    steps st (TDeq DLoadHead r) tr st' (TDeq DLoadHead r) ∧
    length tr = 5%nat ∧
    repr st' s (b :: ns) vs ∧ ptr (_tail (queue st')) = Some b.
Proof.
  intros [Hh Hl Hnd _ Hv] Ht.
  destruct Hl as [(n & Hn & Hnext) Hl]. simpl in Hnext.
  eexists _, _. split; [|split; [|split]].
  - eapply steps_cons; [done|done|].
    eapply steps_cons; [done|done|].
    eapply steps_cons; [done|by eapply step_DLoadNext|].
    eapply steps_cons; [done|eapply step_DRecheck_lag; [done|congruence|done]|].
    eapply steps_cons; [done|by eapply step_DCasTail|].
    constructor.
  - done.
  - split; simpl; try done.
    + split; [eauto|done].
    + exists b. rewrite Hnext. split; [done|]. right. by left.
  - simpl. done.
Qed.

(** [_tail] is ahead of the dummy node: the call takes the first element. *)
Lemma dequeue_steps_take st s b ns v vs r :
  repr st s (b :: ns) (v :: vs) → ptr (_tail (queue st)) ≠ Some s →
  ∃ tr st',
    steps st (TDeq DLoadHead r) tr st' (TDeq (DReturn true) v) ∧
    length tr = 7%nat ∧ repr st' b ns vs.
Proof.
  intros [Hh Hl Hnd (t & Ht & Hin) Hv] Hne.
  destruct Hl as [(n & Hn & Hnext) Hl]. simpl in Hnext.
  inversion Hv as [|? ? ? ? Hb Hvs]; subst.
  destruct (heap st !! b) as [nb|] eqn:Hnb; [|done]. simpl in Hb.
  injection Hb as <-.
  apply NoDup_cons in Hnd as [Hs_notin Hnd].
  eexists _, _. split; [|split].
  - eapply steps_cons; [done|done|].
    eapply steps_cons; [done|done|].
    eapply steps_cons; [done|by eapply step_DLoadNext|].
    eapply steps_cons; [done|eapply step_DRecheck_ne; [done|congruence]|].
    eapply steps_cons; [done|by eapply step_DReadValue|].
    eapply steps_cons; [done|by eapply step_DCasHead|].
    eapply steps_cons; [done|by eapply step_DDelete|].
    constructor.
  - done.
  - split; cbn [heap queue _head _tail ptr].
    + done.
    + eapply (linked_frame (heap st)); [|exact Hl].
      intros a Ha. apply lookup_delete_ne. intros ->. done.
    + done.
    + exists t. split; [done|].
      apply elem_of_cons in Hin as [->|Hin]; [congruence|done].
    + eapply (values_frame (heap st)); [|exact Hvs].
      intros a Ha. rewrite lookup_delete_ne; [done|]. intros ->.
      apply Hs_notin. by right.
Qed.

Lemma dequeue_of_steps st r tr st' b r' :
  steps st (TDeq DLoadHead r) tr st' (TDeq (DReturn b) r') →
  ∀ fuel, (length tr ≤ fuel)%nat →
  dequeue_trace fuel st r = Ret (tr, (b, r', st')) ∧
  dequeue fuel st r = Ret (b, r', st').
Proof.
  intros Hs fuel Hle. unfold dequeue.
  assert (dequeue_trace fuel st r = Ret (tr, (b, r', st'))) as ->; [|done].
  unfold dequeue_trace. by rewrite (steps_run _ _ _ _ _ Hs) by done.
Qed.

Lemma dequeue_empty st r fuel :
  holds st [] → (4 ≤ fuel)%nat → dequeue fuel st r = Ret (false, r, st).
Proof.
  intros (s & ns & Hr) Hle.
  pose proof (repr_nil_nodes _ _ _ Hr) as ->.
  destruct (dequeue_steps_empty st s r Hr) as (nx & Hs).
  by apply (dequeue_of_steps _ _ _ _ _ _ Hs).
Qed.

Lemma dequeue_cons st r v vs fuel :
  holds st (v :: vs) → (12 ≤ fuel)%nat →
  ∃ st', dequeue fuel st r = Ret (true, v, st') ∧ holds st' vs.
Proof.
  intros (s & ns & Hr) Hle.
  destruct ns as [|b ns]; [destruct Hr as [_ _ _ _ Hv]; inversion Hv|].
  destruct (decide (ptr (_tail (queue st)) = Some s)) as [Ht|Ht].
  - destruct (dequeue_steps_help st s b ns _ r Hr Ht)
      as (tr1 & st1 & Hs1 & Hlen1 & Hr1 & Ht1).
    assert (ptr (_tail (queue st1)) ≠ Some s) as Hne.
    { rewrite Ht1. intros [= ->]. destruct Hr as [_ _ Hnd _ _].
      apply NoDup_cons in Hnd as [Hnotin _]. apply Hnotin. by left. }
    destruct (dequeue_steps_take st1 s b ns v vs r Hr1 Hne)
      as (tr2 & st2 & Hs2 & Hlen2 & Hr2).
    exists st2. split; [|by exists b, ns].
    eapply (dequeue_of_steps _ _ _ _ _ _ (steps_trans _ _ _ _ _ _ _ _ Hs1 Hs2)).
    rewrite length_app. lia.
  - destruct (dequeue_steps_take st s b ns v vs r Hr Ht)
      as (tr2 & st2 & Hs2 & Hlen2 & Hr2).
    exists st2. split; [|by exists b, ns].
    eapply (dequeue_of_steps _ _ _ _ _ _ Hs2). lia.
Qed.

End Dequeue.

(** ** [enqueue] on a represented queue *)

Section Enqueue.
Context {T : Type}.
Implicit Types (st : state T) (h : gmap loc (Node T)) (r v : T)
  (ns : list loc) (vs : list T).

(** The retry loop, entered with the new node [a] allocated and [_tail]
    pointing to [t], which has [post] behind it. *)
Lemma enqueue_loop_steps post : ∀ pre t st s ns vs a na,
  s :: ns = pre ++ t :: post →
  repr st s ns vs → ptr (_tail (queue st)) = Some t →
  heap st !! a = Some na → ptr (next na) = None → a ∉ s :: ns →
  ∃ tr st',
    steps st (TEnq (ELoadTail a)) tr st' (TEnq EReturn) ∧
    length tr = (4 * length post + 5)%nat ∧
    repr st' s (ns ++ [a]) (vs ++ [value na]) ∧
    ptr (_tail (queue st')) = Some a.
Proof.
  induction post as [|b post IH];
    intros pre t st s ns vs a na Hsplit Hr Ht Ha Hnull Hfresh.
  - destruct Hr as [Hh Hl Hnd _ Hv].
    destruct (linked_split (heap st) pre t []) as (n & Hn & Hnext);
      [by rewrite <- Hsplit|]. simpl in Hnext.
    assert (a ≠ t) as Hat.
    { intros ->. apply Hfresh. rewrite Hsplit. apply elem_of_app. right. by left. }
    eexists _, _. split; [|split; [|split]].
    + eapply steps_cons; [done|done|].
      eapply steps_cons; [done|by eapply step_ELoadNext|].
      eapply steps_cons; [done|by eapply step_ERecheck_last|].
      eapply steps_cons; [done|by eapply step_ECasNext|].
      eapply steps_cons; [done|by eapply step_ESwing|].
      constructor.
    + done.
    + split; cbn [heap queue _head _tail ptr].
      * done.
      * change (s :: ns ++ [a]) with ((s :: ns) ++ [a]).
        rewrite Hsplit, <- app_assoc. simpl.
        eapply linked_snoc; rewrite <- ?Hsplit; eauto.
      * change (s :: ns ++ [a]) with ((s :: ns) ++ [a]).
        apply NoDup_app. split; [done|]. split; [|apply NoDup_singleton].
        intros x Hx ->%list_elem_of_singleton. done.
      * exists a. split; [done|]. apply elem_of_cons. right.
        apply elem_of_app. right. by left.
      * apply Forall2_app.
        -- eapply (values_frame (heap st)); [|exact Hv].
           intros x Hx. destruct (decide (x = t)) as [->|Hxt].
           ++ rewrite lookup_insert_eq, Hn. done.
           ++ rewrite lookup_insert_ne by done. done.
        -- constructor; [|constructor].
           rewrite lookup_insert_ne by done. by rewrite Ha.
    + done.
  - pose proof Hr as Hr0. destruct Hr as [Hh Hl Hnd _ Hv].
    destruct (linked_split (heap st) pre t (b :: post)) as (n & Hn & Hnext);
      [by rewrite <- Hsplit|]. simpl in Hnext.
    set (st1 := mkState (heap st)
                  (mkQueue (_head (queue st))
                     (NP (ptr (next n)) (int_succ (count (_tail (queue st))))))).
    destruct (IH (pre ++ [t]) b st1 s ns vs a na) as (tr & st' & Hs & Hlen & Hr' & Ht').
    + rewrite Hsplit, <- app_assoc. done.
    + split; cbn [st1 heap queue _head _tail ptr]; try done.
      exists b. split; [done|]. rewrite Hsplit.
      apply elem_of_app. right. right. by left.
    + done.
    + done.
    + done.
    + done.
    + eexists _, st'. split; [|split; [|split]].
      * eapply steps_cons; [done|done|].
        eapply steps_cons; [done|by eapply step_ELoadNext|].
        eapply steps_cons; [done|by eapply step_ERecheck_lag|].
        eapply steps_cons; [done|by eapply step_ECasTail|].
        exact Hs.
      * simpl. rewrite Hlen. lia.
      * done.
      * done.
Qed.

Lemma new_loc_fresh h : h !! new_loc h = None.
Proof. apply not_elem_of_dom. unfold new_loc. apply is_fresh. Qed.

Lemma enqueue_steps st s ns vs v :
  repr st s ns vs →
  ∃ tr st',
    steps st (TEnq (ENew v)) tr st' (TEnq EReturn) ∧
    (length tr ≤ 4 * length ns + 6)%nat ∧
    repr st' s (ns ++ [new_loc (heap st)]) (vs ++ [v]) ∧
    ptr (_tail (queue st')) = Some (new_loc (heap st)).
Proof.
  intros Hr. pose proof Hr as [Hh Hl Hnd (t & Ht & Hin) Hv].
  set (a := new_loc (heap st)).
  assert (heap st !! a = None) as Ha by apply new_loc_fresh.
  assert (a ∉ s :: ns) as Hfresh.
  { intros Hin'. destruct (linked_lookup _ _ _ Hl Hin') as [? ?]. congruence. }
  assert (∀ x, x ∈ s :: ns →
            <[a := mkNode v (NP None 0)]> (heap st) !! x = heap st !! x) as Hsame.
  { intros x Hx. apply lookup_insert_ne. intros ->. done. }
  set (st1 := mkState (<[a := mkNode v (NP None 0)]> (heap st)) (queue st)).
  destruct (list_elem_of_split _ _ Hin) as (pre & post & Hsplit).
  destruct (enqueue_loop_steps post pre t st1 s ns vs a (mkNode v (NP None 0)))
    as (tr & st' & Hs & Hlen & Hr' & Ht'); try done.
  - split; cbn [st1 heap queue]; try done.
    + by eapply linked_frame.
    + by exists t.
    + eapply (values_frame (heap st)); [|done].
      intros x Hx. rewrite Hsame; [done|]. by right.
  - cbn [st1 heap]. apply lookup_insert_eq.
  - exists (EvNew a :: tr), st'. split; [|split; [|split]]; try done.
    + eapply steps_cons; [done|done|exact Hs].
    + simpl. rewrite Hlen.
      assert (length (s :: ns) = length (pre ++ t :: post)) as Hl' by by rewrite Hsplit.
      rewrite length_app in Hl'. simpl in Hl'. lia.
Qed.

Lemma enqueue_of_steps st v tr st' :
  steps st (TEnq (ENew v)) tr st' (TEnq EReturn) →
  ∀ fuel, (length tr ≤ fuel)%nat →
  enqueue_trace fuel st v = Ret (tr, st') ∧ enqueue fuel st v = Ret st'.
Proof.
  intros Hs fuel Hle. unfold enqueue.
  assert (enqueue_trace fuel st v = Ret (tr, st')) as ->; [|done].
  unfold enqueue_trace. by rewrite (steps_run _ _ _ _ _ Hs) by done.
Qed.

Lemma enqueue_holds st vs v fuel :
  holds st vs → (4 * length vs + 6 ≤ fuel)%nat →
  ∃ st', enqueue fuel st v = Ret st' ∧ holds st' (vs ++ [v]).
Proof.
  intros (s & ns & Hr) Hle.
  destruct (enqueue_steps st s ns vs v Hr) as (tr & st' & Hs & Hlen & Hr' & _).
  exists st'. split; [|by eexists _, _].
  eapply (enqueue_of_steps _ _ _ _ Hs).
  destruct Hr as [_ _ _ _ Hv]. apply Forall2_length in Hv. lia.
Qed.

End Enqueue.

(** ** Single-threaded use *)

Section Sequential.
Context {T : Type}.
Implicit Types (st : state T) (th : thread T) (h : gmap loc (Node T))
  (r v : T) (ns : list loc) (vs : list T).

Lemma steps_det st th tr1 st1 th1 tr2 st2 th2 :
  steps st th tr1 st1 th1 → finished th1 = true →
  steps st th tr2 st2 th2 → finished th2 = true →
  tr1 = tr2 ∧ st1 = st2 ∧ th1 = th2.
Proof.
  intros H1. revert tr2 st2 th2.
  induction H1 as [st th|st th e sta tha tr stb thb Hf Hs _ IH];
    intros tr2 st2 th2 Hfin1 H2 Hfin2.
  - inversion H2; subst; [done|congruence].
  - inversion H2; subst; [congruence|].
    match goal with
    | H : step_thread st th = Some (?e', ?s', ?t') |- _ =>
        rewrite Hs in H; injection H as <- <- <-
    end.
    destruct (IH _ _ _ Hfin1 ltac:(eassumption) Hfin2) as (-> & -> & ->).
    done.
Qed.

Lemma Queue_new_repr (raw : Node T) h :
  repr (Queue_new raw h) (new_loc h) [] [].
Proof.
  split; cbn [Queue_new heap queue _head _tail ptr].
  - done.
  - split; [|done]. eexists. rewrite lookup_insert_eq. done.
  - apply NoDup_singleton.
  - exists (new_loc h). split; [done|]. by left.
  - constructor.
Qed.

Lemma Queue_new_holds (raw : Node T) h : holds (Queue_new raw h) [].
Proof. eexists _, _. apply Queue_new_repr. Qed.

Lemma enqueue_inv st vs v fuel st' :
  holds st vs → enqueue fuel st v = Ret st' → holds st' (vs ++ [v]).
Proof.
  intros (s & ns & Hr) He.
  destruct (enqueue_steps st s ns vs v Hr) as (tr & st1 & Hs & _ & Hr1 & _).
  unfold enqueue, enqueue_trace in He.
  destruct (run fuel st (TEnq (ENew v))) as [[[tr2 st2] th2]| |] eqn:Hrun;
    try done.
  injection He as ->.
  apply run_steps in Hrun as [Hs2 Hfin2].
  destruct (steps_det _ _ _ _ _ _ _ _ Hs eq_refl Hs2 Hfin2) as (_ & -> & _).
  by eexists _, _.
Qed.

Lemma dequeue_inv st vs r fuel b r' st' :
  holds st vs → dequeue fuel st r = Ret (b, r', st') →
  match vs with
  | [] => b = false ∧ r' = r ∧ st' = st
  | v :: vs' => b = true ∧ r' = v ∧ holds st' vs'
  end.
Proof.
  intros Hh Hd.
  assert (∃ tr, steps st (TDeq DLoadHead r) tr st' (TDeq (DReturn b) r'))
    as [tr Hs].
  { unfold dequeue, dequeue_trace in Hd.
    destruct (run fuel st (TDeq DLoadHead r)) as [[[tr2 st2] th2]| |] eqn:Hrun;
      try done.
    apply run_steps in Hrun as [Hs2 _].
    destruct th2 as [|[] ?]; try done. injection Hd as <- <- <-. eauto. }
  destruct vs as [|v vs'].
  - pose proof (dequeue_empty st r 4 Hh (le_n _)) as Hd4.
    unfold dequeue, dequeue_trace in Hd4.
    destruct (run 4 st (TDeq DLoadHead r)) as [[[tr2 st2] th2]| |] eqn:Hrun;
      try done.
    apply run_steps in Hrun as [Hs2 Hfin2].
    destruct (steps_det _ _ _ _ _ _ _ _ Hs eq_refl Hs2 Hfin2) as (_ & <- & <-).
    by injection Hd4 as -> -> ->.
  - destruct (dequeue_cons st r v vs' 12 Hh (le_n _)) as (st1 & Hd12 & Hh1).
    unfold dequeue, dequeue_trace in Hd12.
    destruct (run 12 st (TDeq DLoadHead r)) as [[[tr2 st2] th2]| |] eqn:Hrun;
      try done.
    apply run_steps in Hrun as [Hs2 Hfin2].
    destruct (steps_det _ _ _ _ _ _ _ _ Hs eq_refl Hs2 Hfin2) as (_ & <- & <-).
    injection Hd12 as -> -> ->. done.
Qed.

(** Every memory reached by single-threaded use represents a queue. *)
Lemma reachable_holds st : reachable st → ∃ vs, holds st vs.
Proof.
  induction 1 as [raw h|st fuel v st' _ [vs IH] He
                 |st fuel r b r' st' _ [vs IH] Hd].
  - exists []. apply Queue_new_holds.
  - exists (vs ++ [v]). by eapply enqueue_inv.
  - pose proof (dequeue_inv _ _ _ _ _ _ _ IH Hd) as Hm.
    destruct vs as [|v vs'].
    + destruct Hm as (_ & _ & ->). by exists [].
    + destruct Hm as (_ & _ & ?). by exists vs'.
Qed.

End Sequential.

(** * The specification's claims *)

(** C1. FIFO under single-threaded use: on a new queue, [enqueue(1)],
    [enqueue(2)], [enqueue(3)] return, the next three [dequeue] calls
    return [true] with 1, then 2, then 3, and the fourth returns [false]
    (whatever storage [new] hands out and whatever the heap held). *)
Theorem fifo_sequential (raw : Node Z) (h : gmap loc (Node Z)) (r0 : Z)
    (fuel : nat) :
  (14 ≤ fuel)%nat →
  ∃ st1 st2 st3 st4 st5 st6,
    enqueue fuel (Queue_new raw h) 1 = Ret st1 ∧
    enqueue fuel st1 2 = Ret st2 ∧
    enqueue fuel st2 3 = Ret st3 ∧
    dequeue fuel st3 r0 = Ret (true, 1, st4) ∧
    dequeue fuel st4 1 = Ret (true, 2, st5) ∧
    dequeue fuel st5 2 = Ret (true, 3, st6) ∧
    dequeue fuel st6 3 = Ret (false, 3, st6).
Proof.
  intros Hfuel.
  pose proof (Queue_new_holds raw h) as H0.
  destruct (enqueue_holds _ _ 1 fuel H0) as (st1 & E1 & H1); [simpl; lia|].
  destruct (enqueue_holds _ _ 2 fuel H1) as (st2 & E2 & H2); [simpl; lia|].
  destruct (enqueue_holds _ _ 3 fuel H2) as (st3 & E3 & H3); [simpl; lia|].
  simpl in H3.
  destruct (dequeue_cons _ r0 _ _ fuel H3) as (st4 & D1 & H4); [lia|].
  destruct (dequeue_cons _ 1 _ _ fuel H4) as (st5 & D2 & H5); [lia|].
  destruct (dequeue_cons _ 2 _ _ fuel H5) as (st6 & D3 & H6); [lia|].
  pose proof (dequeue_empty _ 3 fuel H6 ltac:(lia)) as D4.
  exists st1, st2, st3, st4, st5, st6. done.
Qed.

Lemma fifo_sequential_witness :
  (14 ≤ 14)%nat ∧
  ∃ st1 st2 st3 st4 st5 st6,
    enqueue 14 (Queue_new (mkNode 0 (NP None 0)) ∅) 1 = Ret st1 ∧
    enqueue 14 st1 2 = Ret st2 ∧
    enqueue 14 st2 3 = Ret st3 ∧
    dequeue 14 st3 0 = Ret (true, 1, st4) ∧
    dequeue 14 st4 1 = Ret (true, 2, st5) ∧
    dequeue 14 st5 2 = Ret (true, 3, st6) ∧
    dequeue 14 st6 3 = Ret (false, 3, st6).
Proof.
  split; [lia|]. apply (fifo_sequential (mkNode 0 (NP None 0)) ∅ 0 14). lia.
Defined.

(** C3. Round trip: on every memory reached by single-threaded use of a
    new queue that holds no element, [enqueue(v)] followed by [dequeue]
    returns [true] and yields exactly [v]. *)
Theorem enqueue_dequeue_round_trip {T : Type} (st : state T) (v r : T)
    (fuel : nat) :
  reachable st → holds st [] → (12 ≤ fuel)%nat →
  ∃ st1 st2,
    enqueue fuel st v = Ret st1 ∧
    dequeue fuel st1 r = Ret (true, v, st2) ∧
    holds st2 [].
Proof.
  intros _ Hh Hfuel.
  destruct (enqueue_holds st [] v fuel Hh) as (st1 & He & Hh1); [simpl; lia|].
  destruct (dequeue_cons st1 r v [] fuel Hh1 Hfuel) as (st2 & Hd & Hh2).
  by exists st1, st2.
Qed.

Lemma enqueue_dequeue_round_trip_witness :
  reachable (Queue_new (mkNode 0 (NP None 0)) ∅) ∧
  holds (Queue_new (mkNode 0 (NP None 0)) ∅) [] ∧ (12 ≤ 12)%nat ∧
  ∃ st1 st2,
    enqueue 12 (Queue_new (mkNode 0 (NP None 0)) ∅) 42 = Ret st1 ∧
    dequeue 12 st1 0 = Ret (true, 42, st2) ∧
    holds st2 [].
Proof.
  assert (holds (Queue_new (mkNode 0%Z (NP None 0)) ∅) []) as Hh.
  { exists 1%positive, []. split.
    - reflexivity.
    - split; [|exact I]. exists (mkNode 0 (NP None 0)). split; reflexivity.
    - apply NoDup_singleton.
    - exists 1%positive. split; [reflexivity|]. by left.
    - constructor. }
  split; [apply reach_new|]. split; [exact Hh|]. split; [lia|].
  apply (enqueue_dequeue_round_trip _ 42 0 12); [apply reach_new|exact Hh|lia].
Defined.

(** C6. Empty start, for every element type: the first [dequeue] on a
    new queue returns [false], leaves [result] and the memory as they
    were, and the only node it dereferences is the dummy node. *)
Theorem dequeue_new_queue_empty {T : Type} (raw : Node T)
    (h : gmap loc (Node T)) (r : T) (fuel : nat) :
  (4 ≤ fuel)%nat →
  ∃ tr,
    dequeue_trace fuel (Queue_new raw h) r
    = Ret (tr, (false, r, Queue_new raw h)) ∧
    derefs tr = [new_loc h].
Proof.
  intros Hfuel.
  destruct (dequeue_steps_empty _ _ r (Queue_new_repr raw h)) as (nx & Hs).
  eexists. split.
  - by apply (dequeue_of_steps _ _ _ _ _ _ Hs).
  - reflexivity.
Qed.

Lemma dequeue_new_queue_empty_witness :
  (4 ≤ 4)%nat ∧
  ∃ tr,
    dequeue_trace 4 (Queue_new (mkNode 0 (NP None 0)) ∅) 7
    = Ret (tr, (false, 7, Queue_new (mkNode 0 (NP None 0)) ∅)) ∧
    derefs tr = [new_loc (∅ : gmap loc (Node Z))].
Proof.
  split; [lia|]. apply (dequeue_new_queue_empty (mkNode 0 (NP None 0)) ∅ 7 4).
  lia.
Defined.

(** C8. Assignment from a raw pointer writes only the reference: after
    [tp = p] the reference is [p] and the generation is the one [tp] held
    before. *)
Theorem NodePointer_assign_keeps_count (tp : NodePointer) (p : option loc) :
  ptr (NodePointer_assign tp p) = p ∧
  count (NodePointer_assign tp p) = count tp.
Proof. split; reflexivity. Qed.

(** C9. Idempotent emptiness: on a memory whose queue holds no element,
    any number of [dequeue] calls in a row all return [false], and after
    them [_head], [_tail] (and the rest of the memory, and [result]) are
    exactly as before. *)
Theorem dequeue_empty_idempotent {T : Type} (st : state T) (r : T)
    (n fuel : nat) :
  holds st [] → (4 ≤ fuel)%nat →
  ∃ st',
    dequeue_many fuel n st r = Ret (replicate n false, r, st') ∧
    _head (queue st') = _head (queue st) ∧
    _tail (queue st') = _tail (queue st) ∧
    st' = st.
Proof.
  intros Hh Hfuel. exists st. split; [|done].
  induction n as [|n IH]; simpl; [done|].
  rewrite (dequeue_empty st r fuel Hh Hfuel), IH. done.
Qed.

Lemma dequeue_empty_idempotent_witness :
  holds (Queue_new (mkNode 0 (NP None 0)) ∅) [] ∧ (4 ≤ 4)%nat ∧
  ∃ st',
    dequeue_many 4 3 (Queue_new (mkNode 0 (NP None 0)) ∅) 7
    = Ret (replicate 3 false, 7, st') ∧
    _head (queue st') = _head (queue (Queue_new (mkNode 0 (NP None 0)) ∅)) ∧
    _tail (queue st') = _tail (queue (Queue_new (mkNode 0 (NP None 0)) ∅)) ∧
    st' = Queue_new (mkNode 0 (NP None 0)) ∅.
Proof.
  assert (holds (Queue_new (mkNode 0%Z (NP None 0)) ∅) []) as Hh.
  { exists 1%positive, []. split.
    - reflexivity.
    - split; [|exact I]. exists (mkNode 0 (NP None 0)). split; reflexivity.
    - apply NoDup_singleton.
    - exists 1%positive. split; [reflexivity|]. by left.
    - constructor. }
  split; [exact Hh|]. split; [lia|].
  apply (dequeue_empty_idempotent _ 7 3 4 Hh). lia.
Defined.

Section Interference.
Context {T : Type}.
Implicit Types (st : state T) (th : thread T) (r : T).

Lemma cas_inv st c expd des ok expd' st' :
  cas st c expd des = Some (ok, expd', st') →
  (ok = true ∧ expd' = expd ∧ load st c = Some expd ∧
   store st c des = Some st') ∨
  (ok = false ∧ st' = st ∧ load st c = Some expd' ∧ expd' ≠ expd).
Proof.
  unfold cas. destruct (load st c) as [cur|] eqn:Hl; simpl; [|done].
  destruct (decide (cur = expd)) as [->|Hne].
  - destruct (store st c des) as [st1|] eqn:Hs; simpl; [|done].
    intros [= <- <- <-]. left. done.
  - intros [= <- <- <-]. right. done.
Qed.





End Interference.




Section Generations.
Context {T : Type}.
Implicit Types (st : state T) (th : thread T) (c : cell).

Lemma int_succ_no_overflow (g : Z) :
  int_min <= g < int_max → int_succ g = g + 1.
Proof.
  unfold int_min, int_max, int_succ, wrap_int. intros Hg.
  rewrite Z.mod_small by lia. lia.
Qed.






End Generations.

(** ** Generations under single-threaded use *)

Section Cycle.
Context {T : Type}.
Implicit Types (st : state T) (v r : T).

Lemma idle_holds st s c : idle st s c → holds st [].
Proof.
  intros (Hh & Ht & n & Hn & Hnext). exists s, []. split.
  - by rewrite Hh.
  - split; [eauto|done].
  - apply NoDup_singleton.
  - exists s. rewrite Ht. split; [done|]. by left.
  - constructor.
Qed.

Lemma Queue_new_idle (raw : Node T) (h : gmap loc (Node T)) :
  idle (Queue_new raw h) (new_loc h) 0.
Proof.
  split; [done|]. split; [done|]. eexists. split; [apply lookup_insert_eq|done].
Qed.

(** [enqueue] on an empty queue at rest: the last access swings [_tail]
    from generation [c] to [int_succ c]. *)
Lemma idle_enqueue st s c v :
  idle st s c →
  ∃ tr st',
    enqueue_trace 6 st v = Ret (tr, st') ∧
    last tr = Some (EvCas Tail (NP (Some s) c)
                      (NP (Some (new_loc (heap st))) (int_succ c)) true) ∧
    _head (queue st') = NP (Some s) c ∧
    _tail (queue st') = NP (Some (new_loc (heap st))) (int_succ c) ∧
    (∃ n, heap st' !! s = Some n ∧ ptr (next n) = Some (new_loc (heap st))) ∧
    heap st' !! new_loc (heap st) = Some (mkNode v (NP None 0)).
Proof.
  intros (Hh & Ht & n & Hn & Hnext).
  set (a := new_loc (heap st)).
  assert (a ≠ s) as Has.
  { intros Heq. pose proof (new_loc_fresh (heap st)) as Hf.
    fold a in Hf. rewrite Heq in Hf. congruence. }
  set (st1 := mkState (<[a := mkNode v (NP None 0)]> (heap st)) (queue st)).
  assert (heap st1 !! s = Some n) as Hn1.
  { cbn [st1 heap]. by rewrite lookup_insert_ne. }
  assert (steps st (TEnq (ENew v))
            [EvNew a; EvLoad Tail (NP (Some s) c); EvLoad (Next s) (next n);
             EvLoad Tail (NP (Some s) c);
             EvCas (Next s) (next n)
               (NP (Some a) (int_succ (count (next n)))) true;
             EvCas Tail (NP (Some s) c) (NP (Some a) (int_succ c)) true]
            (mkState
               (<[s := mkNode (value n)
                        (NP (Some a) (int_succ (count (next n))))]> (heap st1))
               (mkQueue (_head (queue st)) (NP (Some a) (int_succ c))))
            (TEnq EReturn)) as Hs.
  { eapply steps_cons; [done|done|]. fold a. fold st1.
    eapply steps_cons; [done|by cbn; rewrite Ht|].
    eapply steps_cons; [done|by eapply step_ELoadNext|].
    eapply steps_cons; [done|by eapply step_ERecheck_last|].
    eapply steps_cons; [done|by eapply step_ECasNext|].
    eapply steps_cons; [done|by eapply step_ESwing|].
    constructor. }
  eexists _, _. split; [by apply (enqueue_of_steps _ _ _ _ Hs)|].
  split; [reflexivity|].
  - cbn [heap queue _head _tail]. split; [done|]. split; [done|]. split.
    + eexists. rewrite lookup_insert_eq. done.
    + rewrite lookup_insert_ne by done. cbn [st1 heap].
      by rewrite lookup_insert_eq.
Qed.

(** [enqueue] then [dequeue] on an empty queue at rest leave an empty
    queue at rest whose generation is one step further. *)
Lemma idle_cycle st s c v r :
  idle st s c →
  ∃ st1 st2,
    enqueue 6 st v = Ret st1 ∧
    dequeue 7 st1 r = Ret (true, v, st2) ∧
    idle st2 (new_loc (heap st)) (int_succ c).
Proof.
  intros Hi.
  destruct (idle_enqueue st s c v Hi)
    as (tr & st1 & He & _ & Hh1 & Ht1 & (n1 & Hn1 & Hnext1) & Ha1).
  set (a := new_loc (heap st)) in *.
  assert (a ≠ s) as Has.
  { intros Heq. destruct Hi as (_ & _ & n & Hn & _).
    pose proof (new_loc_fresh (heap st)) as Hf.
    fold a in Hf. rewrite Heq in Hf. congruence. }
  assert (steps st1 (TDeq DLoadHead r)
            [EvLoad Head (NP (Some s) c); EvLoad Tail (NP (Some a) (int_succ c));
             EvLoad (Next s) (next n1); EvLoad Head (NP (Some s) c);
             EvValue a;
             EvCas Head (NP (Some s) c) (NP (ptr (next n1)) (int_succ c)) true;
             EvDelete (Some s)]
            (mkState (delete s (heap st1))
               (mkQueue (NP (ptr (next n1)) (int_succ c)) (_tail (queue st1))))
            (TDeq (DReturn true) v)) as Hs.
  { eapply steps_cons; [done|by cbn; rewrite Hh1|].
    eapply steps_cons; [done|by cbn; rewrite Ht1|].
    eapply steps_cons; [done|by eapply step_DLoadNext|].
    eapply steps_cons; [done|eapply step_DRecheck_ne; [done|]|].
    { simpl. congruence. }
    eapply steps_cons; [done|by eapply step_DReadValue|].
    eapply steps_cons; [done|by eapply step_DCasHead|].
    eapply steps_cons; [done|by eapply step_DDelete|].
    constructor. }
  eexists st1, _. split; [|split].
  - unfold enqueue. by rewrite He.
  - by apply (dequeue_of_steps _ _ _ _ _ _ Hs).
  - split; cbn [heap queue _head _tail]; [by rewrite Hnext1|].
    split; [done|]. eexists. rewrite lookup_delete_ne by done. done.
Qed.

(** After [n] rounds of [enqueue] and [dequeue] on a new queue, the two
    fields have generation [int_succ] iterated [n] times from 0. *)
Lemma reachable_generation (raw : Node T) (h : gmap loc (Node T)) (v r : T)
    (n : nat) :
  ∃ st s, reachable st ∧ idle st s (Nat.iter n int_succ 0).
Proof.
  induction n as [|n (st & s & Hreach & Hi)].
  - exists (Queue_new raw h), (new_loc h). split; [constructor|].
    apply Queue_new_idle.
  - destruct (idle_cycle st s _ v r Hi) as (st1 & st2 & He & Hd & Hi2).
    exists st2, (new_loc (heap st)). split; [|exact Hi2].
    eapply reach_dequeue; [|exact Hd]. eapply reach_enqueue; [|exact He]. done.
Qed.

Lemma iter_int_succ (n : nat) :
  Z.of_nat n <= int_max → Nat.iter n int_succ 0 = Z.of_nat n.
Proof.
  induction n as [|n IH]; [reflexivity|].
  intros Hle. rewrite Nat.iter_succ, IH by lia.
  rewrite int_succ_no_overflow; unfold int_min, int_max in *; lia.
Qed.

(** Single-threaded use reaches an empty queue whose [_head] and [_tail]
    have generation [INT_MAX]; the next [enqueue] on it swings [_tail] to
    generation [INT_MIN]. *)
Lemma reachable_generation_overflow (raw : Node T) (h : gmap loc (Node T))
    (v r : T) :
  ∃ st s tr st',
    reachable st ∧ holds st [] ∧
    load st Tail = Some (NP (Some s) int_max) ∧
    enqueue_trace 6 st v = Ret (tr, st') ∧
    last tr = Some (EvCas Tail (NP (Some s) int_max)
                      (NP (Some (new_loc (heap st))) int_min) true) ∧
    load st' Tail = Some (NP (Some (new_loc (heap st))) int_min).
Proof.
  assert (∃ n : nat, Z.of_nat n = int_max) as [n Hn].
  { exists (Z.to_nat int_max). apply Z2Nat.id. unfold int_max. lia. }
  destruct (reachable_generation raw h v r n) as (st & s & Hreach & Hi).
  rewrite iter_int_succ, Hn in Hi by lia.
  destruct (idle_enqueue st s _ v Hi) as (tr & st' & He & Hlast & _ & Ht' & _).
  assert (int_succ int_max = int_min) as Hw by reflexivity.
  rewrite Hw in Hlast, Ht'.
  exists st, s, tr, st'. split; [done|]. split; [by eapply idle_holds|].
  split; [|split; [done|split; [done|]]].
  - simpl. by destruct Hi as (_ & -> & _).
  - simpl. by rewrite Ht'.
Qed.

End Cycle.

(** The constructor, on any storage and any heap: one node is added to
    the heap, [_head] and [_tail] are [(node, 0)], and the node's [next]
    has a null reference and the generation the storage held. *)
Lemma Queue_new_post {T : Type} (raw : Node T) (h : gmap loc (Node T)) :
  h !! new_loc h = None ∧
  dom (heap (Queue_new raw h)) = {[new_loc h]} ∪ dom h ∧
  (∀ a, a ≠ new_loc h → heap (Queue_new raw h) !! a = h !! a) ∧
  _head (queue (Queue_new raw h)) = NP (Some (new_loc h)) 0 ∧
  _tail (queue (Queue_new raw h)) = NP (Some (new_loc h)) 0 ∧
  load (Queue_new raw h) (Next (new_loc h))
  = Some (NP None (count (next raw))).
Proof.
  split; [apply new_loc_fresh|]. split; [apply dom_insert_L|].
  split; [intros a Ha; by apply lookup_insert_ne|].
  split; [done|]. split; [done|].
  simpl. by rewrite lookup_insert_eq.
Qed.

(** C5. The constructor allocates one node and sets [_head] and [_tail] to
    [(node, 0)], but it leaves the generation of the node's [next] as the
    storage held it: on storage that held 7 there, [next] is [(null, 7)],
    not [(null, 0)]. *)
Theorem Queue_new_next_generation_unset :
  heap (Queue_new raw_seven ∅)
  = {[1%positive := mkNode 0 (NP None 7)]} ∧
  _head (queue (Queue_new raw_seven ∅)) = NP (Some 1%positive) 0 ∧
  _tail (queue (Queue_new raw_seven ∅)) = NP (Some 1%positive) 0 ∧
  load (Queue_new raw_seven ∅) (Next 1%positive) = Some (NP None 7) ∧
  load (Queue_new raw_seven ∅) (Next 1%positive) ≠ Some (NP None 0).
Proof. repeat split; try reflexivity. discriminate. Qed.

(** ** Concurrent use and [delete] *)

(** Two [dequeue] calls on a queue that holds one element: thread 0 loads
    [_head], thread 1 completes its call and deletes the old dummy node,
    thread 0 goes on to [head.ptr->next.load()] on the deleted node.  The
    memory has no node at that address any more, so the step has no
    result. *)
Lemma concurrent_dequeue_loads_deleted_node :
  ∃ st,
    enqueue 6 (Queue_new (mkNode 0 (NP None 0)) ∅) 5 = Ret st ∧
    run_schedule [0; 1; 1; 1; 1; 1; 1; 1; 0; 0]%nat
      st [TDeq DLoadHead 0; TDeq DLoadHead 0]
    = None.
Proof.
  eexists. split; [vm_compute; reflexivity|]. vm_compute. reflexivity.
Qed.

(** C4. Concurrent use reads a deleted node.  One thread calls
    [enqueue(5)] and two threads call [dequeue] on a new queue.  Under
    [unsafe_schedule] the third thread has returned [true] with 5 and has
    deleted the node that the second thread loaded from [_head]; the
    second thread's next step, [head.ptr->next.load()], reads that
    node: it has no result, and the threads never complete. *)
Theorem concurrent_use_reads_deleted_node :
  run_clients unsafe_schedule (Queue_new raw_seven ∅) unsafe_clients
  = Some (unsafe_state, unsafe_end) ∧
  unsafe_end
  = [mkClient None 0 [] [REnqueue];
     mkClient (Some (TDeq (DLoadNext (NP (Some 1%positive) 0)
                             (NP (Some 2%positive) 1)) 0)) 0 [] [];
     mkClient None 5 [] [RDequeue true 5]] ∧
  is_Some (heap (Queue_new raw_seven ∅) !! 1%positive) ∧
  heap unsafe_state !! 1%positive = None ∧
  run_clients (unsafe_schedule ++ [1%nat]) (Queue_new raw_seven ∅)
    unsafe_clients = None.
Proof.
  split; [vm_compute; reflexivity|]. split; [reflexivity|].
  split; [by eexists|]. split; [reflexivity|].
  vm_compute. reflexivity.
Qed.

(** * Further properties of the code *)

(** ** Steps under arbitrary interleaving *)

Section AnyStep.
Context {T : Type}.
Implicit Types (st : state T) (th : thread T) (c : cell).

Lemma step_heap_cases st th e st' th' :
  step_thread st th = Some (e, st', th') →
  heap st' = heap st ∨
  (∃ v, th = TEnq (ENew v) ∧ e = EvNew (new_loc (heap st)) ∧
        heap st' = <[new_loc (heap st) := mkNode v (NP None 0)]> (heap st)) ∨
  (∃ a n d, e = EvCas (Next a) (next n) d true ∧ heap st !! a = Some n ∧
            heap st' = <[a := mkNode (value n) d]> (heap st) ∧
            ∃ node tl, th = TEnq (ECasNext node tl (next n))) ∨
  (∃ a n, e = EvDelete (Some a) ∧ heap st !! a = Some n ∧
          heap st' = delete a (heap st)).
Proof.
  intros Hs.
  destruct th as [pc|pc res]; simpl in Hs.
  - destruct (step_enq st pc) as [[[e1 st1] pc1]|] eqn:Hd; [|done].
    injection Hs as <- <- <-.
    destruct pc; simpl in Hd.
    + injection Hd as <- <- <-. right. left. eauto.
    + injection Hd as <- <- <-. by left.
    + destruct (ptr tail) as [a|]; [|done]. simpl in Hd.
      destruct (heap st !! a) as [n|]; [|done]. simpl in Hd.
      injection Hd as <- <- <-. by left.
    + injection Hd as <- <- <-. by left.
    + destruct (ptr tail) as [a|]; [|done]. simpl in Hd.
      destruct (cas st (Next a) next0 _) as [[[ok e'] st2]|] eqn:Hc; [|done].
      simpl in Hd. injection Hd as <- <- <-.
      apply cas_inv in Hc as [(-> & _ & Hl & Hst)|(-> & -> & _)]; [|by left].
      simpl in Hl, Hst. destruct (heap st !! a) as [n|] eqn:Hn; [|done].
      simpl in Hl, Hst. injection Hl as <-. injection Hst as <-.
      right. right. left. eexists a, n, _. simpl. eauto 10.
    + destruct (cas st Tail tail _) as [[[ok e'] st2]|] eqn:Hc; [|done].
      simpl in Hd. injection Hd as <- <- <-.
      apply cas_inv in Hc as [(-> & _ & Hl & Hst)|(-> & -> & _)]; [|by left].
      simpl in Hst. injection Hst as <-. by left.
    + destruct (cas st Tail tail _) as [[[ok e'] st2]|] eqn:Hc; [|done].
      simpl in Hd. injection Hd as <- <- <-.
      apply cas_inv in Hc as [(-> & _ & Hl & Hst)|(-> & -> & _)]; [|by left].
      simpl in Hst. injection Hst as <-. by left.
    + done.
  - destruct (step_deq st pc res) as [[[[e1 st1] pc1] res1]|] eqn:Hd; [|done].
    injection Hs as <- <- <-.
    destruct pc; simpl in Hd.
    + injection Hd as <- <- <- <-. by left.
    + injection Hd as <- <- <- <-. by left.
    + destruct (ptr head) as [a|]; [|done]. simpl in Hd.
      destruct (heap st !! a) as [n|]; [|done]. simpl in Hd.
      injection Hd as <- <- <- <-. by left.
    + injection Hd as <- <- <- <-. by left.
    + destruct (cas st Tail tail _) as [[[ok e'] st2]|] eqn:Hc; [|done].
      simpl in Hd. injection Hd as <- <- <- <-.
      apply cas_inv in Hc as [(-> & _ & Hl & Hst)|(-> & -> & _)]; [|by left].
      simpl in Hst. injection Hst as <-. by left.
    + destruct (ptr next0) as [a|]; [|done]. simpl in Hd.
      destruct (heap st !! a) as [n|]; [|done]. simpl in Hd.
      injection Hd as <- <- <- <-. by left.
    + destruct (cas st Head head _) as [[[ok e'] st2]|] eqn:Hc; [|done].
      simpl in Hd. injection Hd as <- <- <- <-.
      apply cas_inv in Hc as [(-> & _ & Hl & Hst)|(-> & -> & _)]; [|by left].
      simpl in Hst. injection Hst as <-. by left.
    + destruct (ptr head) as [a|].
      * destruct (heap st !! a) as [n|] eqn:Hn; [|done]. simpl in Hd.
        injection Hd as <- <- <- <-. right. right. right. eauto.
      * injection Hd as <- <- <- <-. by left.
    + done.
Qed.

Lemma step_thread_ok st th e st' th' :
  step_thread st th = Some (e, st', th') → thread_ok th'.
Proof.
  intros Hs.
  destruct th as [pc|pc res]; simpl in Hs.
  - destruct (step_enq st pc) as [[[e1 st1] pc1]|] eqn:Hd; [|done].
    injection Hs as <- <- <-.
    destruct pc; simpl in Hd.
    + by injection Hd as <- <- <-.
    + by injection Hd as <- <- <-.
    + destruct (ptr tail) as [a|]; [|done]. simpl in Hd.
      destruct (heap st !! a) as [n|]; [|done]. simpl in Hd.
      by injection Hd as <- <- <-.
    + injection Hd as <- <- <-.
      destruct (NodePointer_eq tail _); [|done].
      destruct (ptr next0) eqn:Hp; simpl; (done || congruence).
    + destruct (ptr tail) as [a|]; [|done]. simpl in Hd.
      destruct (cas st (Next a) next0 _) as [[[ok e'] st2]|] eqn:Hc; [|done].
      simpl in Hd. injection Hd as <- <- <-. by destruct ok.
    + destruct (cas st Tail tail _) as [[[ok e'] st2]|] eqn:Hc; [|done].
      simpl in Hd. by injection Hd as <- <- <-.
    + destruct (cas st Tail tail _) as [[[ok e'] st2]|] eqn:Hc; [|done].
      simpl in Hd. by injection Hd as <- <- <-.
    + done.
  - destruct (step_deq st pc res) as [[[[e1 st1] pc1] res1]|] eqn:Hd; [|done].
    injection Hs as <- <- <-.
    destruct pc; simpl in Hd.
    + by injection Hd as <- <- <- <-.
    + by injection Hd as <- <- <- <-.
    + destruct (ptr head) as [a|]; [|done]. simpl in Hd.
      destruct (heap st !! a) as [n|]; [|done]. simpl in Hd.
      by injection Hd as <- <- <- <-.
    + injection Hd as <- <- <- <-.
      destruct (NodePointer_eq head _); [|done].
      destruct (decide (ptr head = ptr tail)); [|done].
      destruct (ptr next0) eqn:Hp; simpl; (done || congruence).
    + destruct (cas st Tail tail _) as [[[ok e'] st2]|] eqn:Hc; [|done].
      simpl in Hd. by injection Hd as <- <- <- <-.
    + destruct (ptr next0) as [a|] eqn:Hp; [|done]. simpl in Hd.
      destruct (heap st !! a) as [n|]; [|done]. simpl in Hd.
      injection Hd as <- <- <- <-. simpl. congruence.
    + destruct (cas st Head head _) as [[[ok e'] st2]|] eqn:Hc; [|done].
      simpl in Hd. injection Hd as <- <- <- <-. by destruct ok.
    + destruct (ptr head) as [a|].
      * destruct (heap st !! a) as [n|] eqn:Hn; [|done]. simpl in Hd.
        by injection Hd as <- <- <- <-.
      * by injection Hd as <- <- <- <-.
    + done.
Qed.

End AnyStep.

Section AnyStepQueue.
Context {T : Type}.
Implicit Types (st : state T) (th : thread T).



End AnyStepQueue.

(** ** Generations along a schedule *)

Section Chain.
Context {T : Type}.
Implicit Types (st : state T) (th : thread T) (ths : list (thread T))
  (c : cell) (tr : list event).



Lemma run_schedule_trace_run sched : ∀ st ths tr st' ths',
  run_schedule_trace sched st ths = Some (tr, st', ths') →
  run_schedule sched st ths = Some (st', ths').
Proof.
  induction sched as [|i sched IH]; intros st ths tr st' ths'; simpl.
  - by intros [= <- <- <-].
  - destruct (ths !! i) as [th|]; simpl; [|done].
    destruct (finished th); [by apply IH|].
    destruct (step_thread st th) as [[[e st1] th1]|]; simpl; [|done].
    destruct (run_schedule_trace sched st1 (<[i:=th1]> ths))
      as [[[tr1 st2] ths2]|] eqn:Hr; simpl; [|done].
    intros [= <- <- <-]. by eapply IH.
Qed.





End Chain.





(** X1. Whatever the other threads do between the steps, a step of
    [enqueue] or [dequeue] never changes the [value] of a node: a node
    that is in memory before the step is there after it with the same
    value, unless the step is the [delete] of that node; and a node that
    appears is the one [new] returned, holding the enqueued value and
    [next = (null, 0)]. *)
Theorem step_node_lifecycle {T : Type} (st : state T) (th : thread T)
    (e : event) (st' : state T) (th' : thread T) :
  step_thread st th = Some (e, st', th') →
  (∀ a n, heap st !! a = Some n →
     (∃ n', heap st' !! a = Some n' ∧ value n' = value n) ∨
     (heap st' !! a = None ∧ e = EvDelete (Some a))) ∧
  (∀ a n', heap st !! a = None → heap st' !! a = Some n' →
     e = EvNew a ∧ ∃ v, th = TEnq (ENew v) ∧ n' = mkNode v (NP None 0)).
Proof.
  intros Hs.
  destruct (step_heap_cases _ _ _ _ _ Hs)
    as [Hh|[(v & -> & -> & Hh)|[(a0 & n0 & d & -> & Hn0 & Hh & _)
                               |(a0 & n0 & -> & Hn0 & Hh)]]];
    rewrite Hh; split.
  - intros a n Hn. left. eauto.
  - intros a n' Hn Hn'. congruence.
  - intros a n Hn. left. exists n. split; [|done].
    rewrite lookup_insert_ne; [done|]. intros <-.
    rewrite new_loc_fresh in Hn. done.
  - intros a n' Hn Hn'.
    destruct (decide (a = new_loc (heap st))) as [->|Hne].
    + rewrite lookup_insert_eq in Hn'. injection Hn' as <-. eauto.
    + rewrite lookup_insert_ne in Hn' by done. congruence.
  - intros a n Hn. left. destruct (decide (a = a0)) as [->|Hne].
    + rewrite lookup_insert_eq. eexists. split; [done|]. simpl. congruence.
    + rewrite lookup_insert_ne by done. eauto.
  - intros a n' Hn Hn'. destruct (decide (a = a0)) as [->|Hne]; [congruence|].
    rewrite lookup_insert_ne in Hn' by done. congruence.
  - intros a n Hn. destruct (decide (a = a0)) as [->|Hne].
    + right. by rewrite lookup_delete_eq.
    + left. rewrite lookup_delete_ne by done. eauto.
  - intros a n' Hn Hn'. destruct (decide (a = a0)) as [->|Hne].
    + rewrite lookup_delete_eq in Hn'. done.
    + rewrite lookup_delete_ne in Hn' by done. congruence.
Qed.

Lemma step_node_lifecycle_witness :
  step_thread mem_linked (TEnq (ENew 9))
  = Some (EvNew 3%positive, mem_linked_new, TEnq (ELoadTail 3%positive)) ∧
  (∀ a n, heap mem_linked !! a = Some n →
     (∃ n', heap mem_linked_new !! a = Some n' ∧ value n' = value n) ∨
     (heap mem_linked_new !! a = None ∧ EvNew 3%positive = EvDelete (Some a))) ∧
  (∀ a n', heap mem_linked !! a = None → heap mem_linked_new !! a = Some n' →
     EvNew 3%positive = EvNew a ∧
     ∃ v, TEnq (ENew 9) = TEnq (ENew v) ∧ n' = mkNode v (NP None 0)).
Proof.
  split; [reflexivity|].
  apply (step_node_lifecycle mem_linked (TEnq (ENew 9)) (EvNew 3%positive)
           mem_linked_new (TEnq (ELoadTail 3%positive))).
  reflexivity.
Defined.

(** X2. Whatever the other threads do between the steps, the [next] field
    of a node is written at most once while the node lives: once it holds
    a non-null reference, no step of [enqueue] or [dequeue] changes it;
    the only thing that can happen to it is the [delete] of the node. *)
Theorem step_next_written_once {T : Type} (st : state T) (th : thread T)
    (e : event) (st' : state T) (th' : thread T) (a : loc)
    (old : NodePointer) :
  thread_ok th → step_thread st th = Some (e, st', th') →
  load st (Next a) = Some old → ptr old ≠ None →
  thread_ok th' ∧
  (load st' (Next a) = Some old ∨
   (load st' (Next a) = None ∧ e = EvDelete (Some a))).
Proof.
  intros Hok Hs Hold Hptr. split; [by eapply step_thread_ok|].
  simpl in *.
  destruct (heap st !! a) as [n|] eqn:Hn; [|done]. injection Hold as <-.
  destruct (step_heap_cases _ _ _ _ _ Hs)
    as [Hh|[(v & -> & -> & Hh)|[(a0 & n0 & d & -> & Hn0 & Hh & node & tl & ->)
                               |(a0 & n0 & -> & Hn0 & Hh)]]];
    rewrite Hh.
  - left. by rewrite Hn.
  - left. rewrite lookup_insert_ne; [by rewrite Hn|]. intros <-.
    rewrite new_loc_fresh in Hn. done.
  - left. destruct (decide (a = a0)) as [->|Hne].
    + simpl in Hok. congruence.
    + rewrite lookup_insert_ne by done. by rewrite Hn.
  - destruct (decide (a = a0)) as [->|Hne].
    + right. by rewrite lookup_delete_eq.
    + left. rewrite lookup_delete_ne by done. by rewrite Hn.
Qed.

Lemma step_next_written_once_witness :
  @thread_ok Z
    (TEnq (ECasNext 2%positive (NP (Some 1%positive) 0) (NP None 0))) ∧
  step_thread mem_linked
    (TEnq (ECasNext 2%positive (NP (Some 1%positive) 0) (NP None 0)))
  = Some (EvCas (Next 1%positive) (NP None 0) (NP (Some 2%positive) 1) false,
          mem_linked, TEnq (ELoadTail 2%positive)) ∧
  load mem_linked (Next 1%positive) = Some (NP (Some 2%positive) 1) ∧
  ptr (NP (Some 2%positive) 1) ≠ None ∧
  @thread_ok Z (TEnq (ELoadTail 2%positive)) ∧
  (load mem_linked (Next 1%positive) = Some (NP (Some 2%positive) 1) ∨
   (load mem_linked (Next 1%positive) = None ∧
    EvCas (Next 1%positive) (NP None 0) (NP (Some 2%positive) 1) false
    = EvDelete (Some 1%positive))).
Proof.
  split; [reflexivity|]. split; [reflexivity|]. split; [reflexivity|].
  split; [discriminate|].
  apply (step_next_written_once mem_linked
           (TEnq (ECasNext 2%positive (NP (Some 1%positive) 0) (NP None 0)))
           (EvCas (Next 1%positive) (NP None 0) (NP (Some 2%positive) 1) false)
           mem_linked (TEnq (ELoadTail 2%positive)) 1%positive
           (NP (Some 2%positive) 1)).
  - reflexivity.
  - reflexivity.
  - reflexivity.
  - discriminate.
Defined.



(** ** The memory after a call *)

Section Explicit.
Context {T : Type}.
Implicit Types (st : state T) (h : gmap loc (Node T)) (r v : T)
  (ns : list loc) (vs : list T).

(** [_tail] points to the last node: the new node is linked behind it and
    [_tail] is swung to it. *)
Lemma enqueue_last_steps st t nt a :
  ptr (_tail (queue st)) = Some t → heap st !! t = Some nt →
  ptr (next nt) = None →
  steps st (TEnq (ELoadTail a))
    [EvLoad Tail (_tail (queue st)); EvLoad (Next t) (next nt);
     EvLoad Tail (_tail (queue st));
     EvCas (Next t) (next nt) (NP (Some a) (int_succ (count (next nt)))) true;
     EvCas Tail (_tail (queue st))
       (NP (Some a) (int_succ (count (_tail (queue st))))) true]
    (mkState
       (<[t := mkNode (value nt) (NP (Some a) (int_succ (count (next nt))))]>
          (heap st))
       (mkQueue (_head (queue st))
          (NP (Some a) (int_succ (count (_tail (queue st)))))))
    (TEnq EReturn).
Proof.
  intros Ht Hn Hnext.
  eapply steps_cons; [done|done|].
  eapply steps_cons; [done|by eapply step_ELoadNext|].
  eapply steps_cons; [done|by eapply step_ERecheck_last|].
  eapply steps_cons; [done|by eapply step_ECasNext|].
  eapply steps_cons; [done|by eapply step_ESwing|].
  constructor.
Qed.

(** [_tail] lags: it is advanced by one node and the loop starts again. *)
Lemma enqueue_help_steps st t nt b a :
  ptr (_tail (queue st)) = Some t → heap st !! t = Some nt →
  ptr (next nt) = Some b →
  steps st (TEnq (ELoadTail a))
    [EvLoad Tail (_tail (queue st)); EvLoad (Next t) (next nt);
     EvLoad Tail (_tail (queue st));
     EvCas Tail (_tail (queue st))
       (NP (ptr (next nt)) (int_succ (count (_tail (queue st))))) true]
    (mkState (heap st)
       (mkQueue (_head (queue st))
          (NP (ptr (next nt)) (int_succ (count (_tail (queue st)))))))
    (TEnq (ELoadTail a)).
Proof.
  intros Ht Hn Hnext.
  eapply steps_cons; [done|done|].
  eapply steps_cons; [done|by eapply step_ELoadNext|].
  eapply steps_cons; [done|by eapply step_ERecheck_lag|].
  eapply steps_cons; [done|by eapply step_ECasTail|].
  constructor.
Qed.

Lemma enqueue_loop_explicit post : ∀ pre t st a,
  linked (heap st) (pre ++ t :: post) →
  ptr (_tail (queue st)) = Some t →
  ∃ tr l nl c,
    steps st (TEnq (ELoadTail a)) tr
      (mkState
         (<[l := mkNode (value nl) (NP (Some a) (int_succ (count (next nl))))]>
            (heap st))
         (mkQueue (_head (queue st)) (NP (Some a) c)))
      (TEnq EReturn) ∧
    last (pre ++ t :: post) = Some l ∧
    heap st !! l = Some nl ∧ ptr (next nl) = None ∧
    length tr = (4 * length post + 5)%nat ∧
    (post = [] → c = int_succ (count (_tail (queue st)))).
Proof.
  induction post as [|b post IH]; intros pre t st a Hl Ht.
  - destruct (linked_split _ _ _ _ Hl) as (nt & Hn & Hnext). simpl in Hnext.
    eexists _, t, nt, _. split; [by apply enqueue_last_steps|].
    split; [by rewrite last_snoc|]. done.
  - destruct (linked_split _ _ _ _ Hl) as (nt & Hn & Hnext). simpl in Hnext.
    pose proof (enqueue_help_steps st t nt b a Ht Hn Hnext) as Hs1.
    rewrite Hnext in Hs1.
    destruct (IH (pre ++ [t]) b
                (mkState (heap st)
                   (mkQueue (_head (queue st))
                      (NP (Some b) (int_succ (count (_tail (queue st)))))))
                a) as (tr & l & nl & c & Hs2 & Hlast & Hnl & Hnull & Hlen & _).
    + by rewrite <- app_assoc.
    + done.
    + eexists _, l, nl, c. split; [exact (steps_trans _ _ _ _ _ _ _ _ Hs1 Hs2)|].
      split; [by rewrite <- app_assoc in Hlast|].
      split; [done|]. split; [done|]. split; [|done].
      rewrite length_app, Hlen. simpl. lia.
Qed.

Lemma enqueue_explicit st s ns vs v :
  repr st s ns vs →
  ∃ tr l nl c,
    steps st (TEnq (ENew v)) tr
      (mkState
         (<[l := mkNode (value nl)
                   (NP (Some (new_loc (heap st))) (int_succ (count (next nl))))]>
            (<[new_loc (heap st) := mkNode v (NP None 0)]> (heap st)))
         (mkQueue (_head (queue st)) (NP (Some (new_loc (heap st))) c)))
      (TEnq EReturn) ∧
    last (s :: ns) = Some l ∧
    heap st !! l = Some nl ∧ ptr (next nl) = None ∧
    (length tr ≤ 4 * length ns + 6)%nat ∧
    (ptr (_tail (queue st)) = Some l →
     c = int_succ (count (_tail (queue st))) ∧ length tr = 6%nat).
Proof.
  intros [Hh Hl Hnd (t & Ht & Hin) Hv].
  set (a := new_loc (heap st)).
  assert (a ∉ s :: ns) as Hfresh.
  { intros Hin'. destruct (linked_lookup _ _ _ Hl Hin') as [? Hx].
    unfold a in Hx. rewrite new_loc_fresh in Hx. done. }
  destruct (list_elem_of_split _ _ Hin) as (pre & post & Hsplit).
  set (st1 := mkState (<[a := mkNode v (NP None 0)]> (heap st)) (queue st)).
  destruct (enqueue_loop_explicit post pre t st1 a)
    as (tr & l & nl & c & Hs & Hlast & Hnl & Hnull & Hlen & Hc).
  - rewrite <- Hsplit. eapply (linked_frame (heap st)); [|done].
    intros x Hx. cbn [st1 heap]. apply lookup_insert_ne. intros ->. done.
  - done.
  - assert (l ∈ s :: ns) as Hlin.
    { rewrite Hsplit. apply last_Some in Hlast as (l' & ->).
      apply elem_of_app. right. by left. }
    assert (heap st !! l = Some nl) as Hnl0.
    { cbn [st1 heap] in Hnl. rewrite lookup_insert_ne in Hnl; [done|].
      intros ->. done. }
    exists (EvNew a :: tr), l, nl, c. split; [|split; [|split; [|split; [|split]]]].
    + eapply steps_cons; [done|done|]. exact Hs.
    + by rewrite Hsplit.
    + done.
    + done.
    + simpl. rewrite Hlen.
      assert (length (s :: ns) = length (pre ++ t :: post)) as Hl'
        by by rewrite Hsplit.
      rewrite length_app in Hl'. simpl in Hl'. lia.
    + intros Htl. assert (t = l) as -> by congruence.
      assert (post = []) as ->.
      { destruct post as [|b post] using rev_ind; [done|].
        rewrite app_comm_cons, app_assoc, last_snoc in Hlast.
        injection Hlast as ->. rewrite Hsplit in Hnd.
        apply NoDup_app in Hnd as (_ & _ & Hnd).
        apply NoDup_cons in Hnd as [Hnotin _]. exfalso. apply Hnotin.
        apply elem_of_app. right. by left. }
      split; [by apply Hc|]. simpl. rewrite Hlen. done.
Qed.

(** [_tail] is ahead of the dummy node [s]: the first element is read,
    [_head] moves to its node and [s] is deleted. *)
Lemma dequeue_front_steps st s n b nb r :
  ptr (_head (queue st)) = Some s → heap st !! s = Some n →
  ptr (next n) = Some b → heap st !! b = Some nb →
  ptr (_tail (queue st)) ≠ Some s →
  steps st (TDeq DLoadHead r)
    [EvLoad Head (_head (queue st)); EvLoad Tail (_tail (queue st));
     EvLoad (Next s) (next n); EvLoad Head (_head (queue st)); EvValue b;
     EvCas Head (_head (queue st))
       (NP (ptr (next n)) (int_succ (count (_head (queue st))))) true;
     EvDelete (Some s)]
    (mkState (delete s (heap st))
       (mkQueue (NP (ptr (next n)) (int_succ (count (_head (queue st)))))
          (_tail (queue st))))
    (TDeq (DReturn true) (value nb)).
Proof.
  intros Hh Hn Hnext Hnb Hne.
  eapply steps_cons; [done|done|].
  eapply steps_cons; [done|done|].
  eapply steps_cons; [done|by eapply step_DLoadNext|].
  eapply steps_cons; [done|eapply step_DRecheck_ne; [done|congruence]|].
  eapply steps_cons; [done|by eapply step_DReadValue|].
  eapply steps_cons; [done|by eapply step_DCasHead|].
  eapply steps_cons; [done|by eapply step_DDelete|].
  constructor.
Qed.

(** [_tail] still points to the dummy node [s], which has a node linked
    behind it: [_tail] is advanced and the loop starts again. *)
Lemma dequeue_lag_steps st s n b r :
  ptr (_head (queue st)) = Some s → ptr (_tail (queue st)) = Some s →
  heap st !! s = Some n → ptr (next n) = Some b →
  steps st (TDeq DLoadHead r)
    [EvLoad Head (_head (queue st)); EvLoad Tail (_tail (queue st));
     EvLoad (Next s) (next n); EvLoad Head (_head (queue st));
     EvCas Tail (_tail (queue st))
       (NP (ptr (next n)) (int_succ (count (_tail (queue st))))) true]
    (mkState (heap st)
       (mkQueue (_head (queue st))
          (NP (ptr (next n)) (int_succ (count (_tail (queue st)))))))
    (TDeq DLoadHead r).
Proof.
  intros Hh Ht Hn Hnext.
  eapply steps_cons; [done|done|].
  eapply steps_cons; [done|done|].
  eapply steps_cons; [done|by eapply step_DLoadNext|].
  eapply steps_cons; [done|eapply step_DRecheck_lag; [done|congruence|done]|].
  eapply steps_cons; [done|by eapply step_DCasTail|].
  constructor.
Qed.

(** A successful [dequeue] on a represented queue, with its trace and the
    memory it leaves. *)
Lemma dequeue_explicit st s b ns v vs r :
  repr st s (b :: ns) (v :: vs) →
  ∃ tr tl,
    steps st (TDeq DLoadHead r) tr
      (mkState (delete s (heap st))
         (mkQueue (NP (Some b) (int_succ (count (_head (queue st))))) tl))
      (TDeq (DReturn true) v) ∧
    (length tr ≤ 12)%nat ∧
    (∀ a, a ∈ derefs tr → a = s ∨ a = b) ∧
    (∀ a, EvValue a ∈ tr → a = b) ∧
    (ptr (_tail (queue st)) ≠ Some s →
     tl = _tail (queue st) ∧ length tr = 7%nat) ∧
    repr (mkState (delete s (heap st))
            (mkQueue (NP (Some b) (int_succ (count (_head (queue st))))) tl))
      b ns vs.
Proof.
  intros Hr. pose proof Hr as [Hh Hl Hnd _ Hv].
  destruct Hl as [(n & Hn & Hnext) Hl]. simpl in Hnext.
  inversion Hv as [|? ? ? ? Hb Hvs]; subst.
  destruct (heap st !! b) as [nb|] eqn:Hnb; [|done]. simpl in Hb.
  injection Hb as <-.
  assert (∀ tr' tl',
    steps st (TDeq DLoadHead r) tr'
      (mkState (delete s (heap st))
         (mkQueue (NP (Some b) (int_succ (count (_head (queue st))))) tl'))
      (TDeq (DReturn true) (value nb)) →
    repr (mkState (delete s (heap st))
            (mkQueue (NP (Some b) (int_succ (count (_head (queue st))))) tl'))
      b ns vs) as Hrepr.
  { intros tr' tl' Hs'.
    destruct (decide (ptr (_tail (queue st)) = Some s)) as [Ht|Ht].
    - destruct (dequeue_steps_help st s b ns _ r Hr Ht)
        as (tr1 & st1 & Hs1 & _ & Hr1 & Ht1).
      assert (ptr (_tail (queue st1)) ≠ Some s) as Hne.
      { rewrite Ht1. intros [= ->].
        apply NoDup_cons in Hnd as [Hnotin _]. apply Hnotin. by left. }
      destruct (dequeue_steps_take st1 s b ns (value nb) vs r Hr1 Hne)
        as (tr2 & st2 & Hs2 & _ & Hr2).
      pose proof (steps_trans _ _ _ _ _ _ _ _ Hs1 Hs2) as Hs12.
      destruct (steps_det _ _ _ _ _ _ _ _ Hs' eq_refl Hs12 eq_refl)
        as (_ & -> & _). done.
    - destruct (dequeue_steps_take st s b ns (value nb) vs r Hr Ht)
        as (tr2 & st2 & Hs2 & _ & Hr2).
      destruct (steps_det _ _ _ _ _ _ _ _ Hs' eq_refl Hs2 eq_refl)
        as (_ & -> & _). done. }
  destruct (decide (ptr (_tail (queue st)) = Some s)) as [Ht|Ht].
  - pose proof (dequeue_lag_steps st s n b r Hh Ht Hn Hnext) as Hs1.
    assert (ptr (next n) ≠ Some s) as Hne.
    { rewrite Hnext. intros [= ->].
      apply NoDup_cons in Hnd as [Hnotin _]. apply Hnotin. by left. }
    pose proof (dequeue_front_steps
                  (mkState (heap st)
                     (mkQueue (_head (queue st))
                        (NP (ptr (next n))
                           (int_succ (count (_tail (queue st)))))))
                  s n b nb r Hh Hn Hnext Hnb Hne) as Hs2.
    cbn [heap queue _head _tail ptr] in Hs2.
    pose proof (steps_trans _ _ _ _ _ _ _ _ Hs1 Hs2) as Hs.
    rewrite Hnext in Hs.
    eexists _, _. split; [exact Hs|]. split; [simpl; lia|].
    split; [|split; [|split; [done|by eapply Hrepr]]].
    + intros a Ha. unfold derefs in Ha. simpl in Ha.
      repeat (apply elem_of_cons in Ha as [->|Ha]; [by auto|]).
      by apply elem_of_nil in Ha.
    + intros a Ha. simpl in Ha.
      repeat (apply elem_of_cons in Ha as [Ha|Ha];
              [by (discriminate Ha || injection Ha as ->)|]).
      by apply elem_of_nil in Ha.
  - pose proof (dequeue_front_steps st s n b nb r Hh Hn Hnext Hnb Ht) as Hs.
    rewrite Hnext in Hs.
    eexists _, _. split; [exact Hs|]. split; [simpl; lia|].
    split; [|split; [|split; [done|by eapply Hrepr]]].
    + intros a Ha. unfold derefs in Ha. simpl in Ha.
      repeat (apply elem_of_cons in Ha as [->|Ha]; [by auto|]).
      by apply elem_of_nil in Ha.
    + intros a Ha. simpl in Ha.
      repeat (apply elem_of_cons in Ha as [Ha|Ha];
              [by (discriminate Ha || injection Ha as ->)|]).
      by apply elem_of_nil in Ha.
Qed.

End Explicit.

(** X4. [enqueue] appends: on every memory that represents a queue with
    elements [vs], however far [_tail] lags, [enqueue(v)] returns and the
    queue then holds [vs ++ [v]]; it allocates exactly one node, which
    holds [v] with a null [next], and does not write [_head]. *)
Theorem enqueue_appends {T : Type} (st : state T) (vs : list T) (v : T)
    (fuel : nat) :
  holds st vs → (4 * length vs + 6 ≤ fuel)%nat →
  ∃ st',
    enqueue fuel st v = Ret st' ∧
    holds st' (vs ++ [v]) ∧
    _head (queue st') = _head (queue st) ∧
    heap st !! new_loc (heap st) = None ∧
    heap st' !! new_loc (heap st) = Some (mkNode v (NP None 0)) ∧
    dom (heap st') = {[new_loc (heap st)]} ∪ dom (heap st).
Proof.
  intros (s & ns & Hr) Hfuel.
  destruct (enqueue_explicit st s ns vs v Hr)
    as (tr & l & nl & c & Hs & Hlast & Hnl & Hnull & Hlen & _).
  destruct (enqueue_steps st s ns vs v Hr) as (tr' & st' & Hs' & _ & Hr' & _).
  destruct (steps_det _ _ _ _ _ _ _ _ Hs' eq_refl Hs eq_refl) as (_ & -> & _).
  eexists. split.
  { eapply (enqueue_of_steps _ _ _ _ Hs).
    destruct Hr as [_ _ _ _ Hv]. apply Forall2_length in Hv. lia. }
  split; [by eexists _, _|]. split; [done|].
  split; [apply new_loc_fresh|].
  assert (l ≠ new_loc (heap st)) as Hne.
  { intros ->. rewrite new_loc_fresh in Hnl. done. }
  cbn [heap]. split.
  - by rewrite lookup_insert_ne, lookup_insert_eq.
  - rewrite !dom_insert_L.
    assert (l ∈ dom (heap st)) as Hl by (apply elem_of_dom; eauto).
    apply set_eq. intros x. rewrite !elem_of_union, !elem_of_singleton.
    split; [intros [->|?]; auto|auto].
Qed.

Lemma enqueue_appends_witness :
  holds mem_linked [5] ∧ (4 * length [5] + 6 ≤ 10)%nat ∧
  ∃ st',
    enqueue 10 mem_linked 9 = Ret st' ∧
    holds st' ([5] ++ [9]) ∧
    _head (queue st') = _head (queue mem_linked) ∧
    heap mem_linked !! new_loc (heap mem_linked) = None ∧
    heap st' !! new_loc (heap mem_linked) = Some (mkNode 9 (NP None 0)) ∧
    dom (heap st') = {[new_loc (heap mem_linked)]} ∪ dom (heap mem_linked).
Proof.
  assert (holds mem_linked [5]) as Hh.
  { exists 1%positive, [2%positive]. split.
    - reflexivity.
    - split; [eexists; split; reflexivity|].
      split; [eexists; split; reflexivity|exact I].
    - apply NoDup_cons. split; [|apply NoDup_singleton].
      intros Hin%list_elem_of_singleton. discriminate.
    - exists 1%positive. split; [reflexivity|]. by left.
    - constructor; [reflexivity|constructor]. }
  split; [exact Hh|]. split; [simpl; lia|].
  apply (enqueue_appends mem_linked [5] 9 10 Hh). simpl. lia.
Defined.

(** X5. A successful [dequeue] frees exactly the node [_head] pointed to:
    on a queue with dummy node [s] and first element [v] in node [b], the
    call returns [true] with [v], the heap afterwards is the heap before
    without [s], [_head] is [(b, generation + 1)], and [b] is the dummy
    node of the queue that holds the remaining elements. *)
Theorem dequeue_frees_old_dummy {T : Type} (st : state T) (s b : loc)
    (ns : list loc) (v : T) (vs : list T) (r : T) (fuel : nat) :
  repr st s (b :: ns) (v :: vs) → (12 ≤ fuel)%nat →
  ∃ st',
    dequeue fuel st r = Ret (true, v, st') ∧
    heap st' = delete s (heap st) ∧
    _head (queue st') = NP (Some b) (int_succ (count (_head (queue st)))) ∧
    repr st' b ns vs.
Proof.
  intros Hr Hfuel.
  destruct (dequeue_explicit st s b ns v vs r Hr)
    as (tr & tl & Hs & Hlen & _ & _ & _ & Hr').
  eexists. split; [|split; [|split; [|exact Hr']]]; [|done|done].
  eapply (dequeue_of_steps _ _ _ _ _ _ Hs). lia.
Qed.

Lemma dequeue_frees_old_dummy_witness :
  repr mem_linked 1%positive [2%positive] [5] ∧ (12 ≤ 12)%nat ∧
  ∃ st',
    dequeue 12 mem_linked 0 = Ret (true, 5, st') ∧
    heap st' = delete 1%positive (heap mem_linked) ∧
    _head (queue st')
    = NP (Some 2%positive) (int_succ (count (_head (queue mem_linked)))) ∧
    repr st' 2%positive [] [].
Proof.
  assert (repr mem_linked 1%positive [2%positive] [5]) as Hr.
  { split.
    - reflexivity.
    - split; [eexists; split; reflexivity|].
      split; [eexists; split; reflexivity|exact I].
    - apply NoDup_cons. split; [|apply NoDup_singleton].
      intros Hin%list_elem_of_singleton. discriminate.
    - exists 1%positive. split; [reflexivity|]. by left.
    - constructor; [reflexivity|constructor]. }
  split; [exact Hr|]. split; [lia|].
  apply (dequeue_frees_old_dummy mem_linked 1%positive 2%positive [] 5 [] 0 12
           Hr).
  lia.
Defined.

(** X6. A successful [dequeue] dereferences only the dummy node and the
    node behind it, and the only [value] it reads is that of the node
    behind the dummy: the value of the dummy node, which [Queue()] leaves
    uninitialised, is never read. *)
Theorem dequeue_reads_first_node_only {T : Type} (st : state T) (s b : loc)
    (ns : list loc) (v : T) (vs : list T) (r : T) (fuel : nat) :
  repr st s (b :: ns) (v :: vs) → (12 ≤ fuel)%nat →
  ∃ tr st',
    dequeue_trace fuel st r = Ret (tr, (true, v, st')) ∧
    (∀ a, a ∈ derefs tr → a = s ∨ a = b) ∧
    (∀ a, EvValue a ∈ tr → a = b) ∧
    s ≠ b.
Proof.
  intros Hr Hfuel.
  destruct (dequeue_explicit st s b ns v vs r Hr)
    as (tr & tl & Hs & Hlen & Hd & Hv & _ & _).
  eexists tr, _. split; [|split; [done|split; [done|]]].
  - eapply (dequeue_of_steps _ _ _ _ _ _ Hs). lia.
  - destruct Hr as [_ _ Hnd _ _]. apply NoDup_cons in Hnd as [Hnotin _].
    intros ->. apply Hnotin. by left.
Qed.

Lemma dequeue_reads_first_node_only_witness :
  repr mem_linked 1%positive [2%positive] [5] ∧ (12 ≤ 12)%nat ∧
  ∃ tr st',
    dequeue_trace 12 mem_linked 0 = Ret (tr, (true, 5, st')) ∧
    (∀ a, a ∈ derefs tr → a = 1%positive ∨ a = 2%positive) ∧
    (∀ a, EvValue a ∈ tr → a = 2%positive) ∧
    1%positive ≠ 2%positive.
Proof.
  assert (repr mem_linked 1%positive [2%positive] [5]) as Hr.
  { split.
    - reflexivity.
    - split; [eexists; split; reflexivity|].
      split; [eexists; split; reflexivity|exact I].
    - apply NoDup_cons. split; [|apply NoDup_singleton].
      intros Hin%list_elem_of_singleton. discriminate.
    - exists 1%positive. split; [reflexivity|]. by left.
    - constructor; [reflexivity|constructor]. }
  split; [exact Hr|]. split; [lia|].
  apply (dequeue_reads_first_node_only mem_linked 1%positive 2%positive [] 5
           [] 0 12 Hr).
  lia.
Defined.

Section Refinement.
Context {T : Type}.
Implicit Types (st : state T) (r : T) (vs : list T) (cs : list (call T)).

Lemma run_calls_fifo cs : ∀ st vs r fuel,
  holds st vs → (4 * (length vs + length cs) + 12 ≤ fuel)%nat →
  ∃ st',
    run_calls fuel st r cs
    = Ret ((fifo_calls vs r cs).1.1, (fifo_calls vs r cs).1.2, st') ∧
    holds st' (fifo_calls vs r cs).2.
Proof.
  induction cs as [|[v|] cs IH]; intros st vs r fuel Hh Hfuel; simpl.
  - by exists st.
  - destruct (enqueue_holds st vs v fuel Hh) as (st1 & -> & Hh1);
      [simpl in Hfuel; lia|].
    destruct (IH st1 (vs ++ [v]) r fuel Hh1) as (st' & -> & Hh').
    { rewrite length_app. simpl in *. lia. }
    exists st'. by destruct (fifo_calls (vs ++ [v]) r cs) as [[rs r'] vs'].
  - destruct vs as [|v vs0].
    + rewrite (dequeue_empty st r fuel Hh) by lia.
      destruct (IH st [] r fuel Hh) as (st' & -> & Hh').
      { simpl in *. lia. }
      exists st'. by destruct (fifo_calls [] r cs) as [[rs r'] vs'].
    + destruct (dequeue_cons st r v vs0 fuel Hh) as (st1 & -> & Hh1); [lia|].
      destruct (IH st1 vs0 v fuel Hh1) as (st' & -> & Hh').
      { simpl in *. lia. }
      exists st'. by destruct (fifo_calls vs0 v cs) as [[rs r'] vs'].
Qed.

End Refinement.

(** X7. Single-threaded use refines a first-in first-out list: for every
    sequence of [enqueue] and [dequeue] calls on a memory that represents
    a queue with elements [vs], every call returns, the flags and values
    the [dequeue] calls yield are those of the same calls on the list
    [vs], and the memory afterwards represents the list's final content. *)
Theorem single_thread_refines_fifo {T : Type} (st : state T) (vs : list T)
    (r : T) (cs : list (call T)) (fuel : nat) :
  holds st vs → (4 * (length vs + length cs) + 12 ≤ fuel)%nat →
  ∃ rs r' vs' st',
    fifo_calls vs r cs = (rs, r', vs') ∧
    run_calls fuel st r cs = Ret (rs, r', st') ∧
    holds st' vs'.
Proof.
  intros Hh Hfuel.
  destruct (run_calls_fifo cs st vs r fuel Hh Hfuel) as (st' & Hrun & Hh').
  destruct (fifo_calls vs r cs) as [[rs r'] vs'].
  by exists rs, r', vs', st'.
Qed.

Lemma single_thread_refines_fifo_witness :
  holds mem_linked [5] ∧
  (4 * (length [5] + length [CDequeue; CEnqueue 8; CDequeue; CDequeue]) + 12
   ≤ 32)%nat ∧
  ∃ rs r' vs' st',
    fifo_calls [5] 0 [CDequeue; CEnqueue 8; CDequeue; CDequeue]
    = (rs, r', vs') ∧
    run_calls 32 mem_linked 0 [CDequeue; CEnqueue 8; CDequeue; CDequeue]
    = Ret (rs, r', st') ∧
    holds st' vs'.
Proof.
  assert (holds mem_linked [5]) as Hh.
  { exists 1%positive, [2%positive]. split.
    - reflexivity.
    - split; [eexists; split; reflexivity|].
      split; [eexists; split; reflexivity|exact I].
    - apply NoDup_cons. split; [|apply NoDup_singleton].
      intros Hin%list_elem_of_singleton. discriminate.
    - exists 1%positive. split; [reflexivity|]. by left.
    - constructor; [reflexivity|constructor]. }
  split; [exact Hh|]. split; [simpl; lia|].
  apply (single_thread_refines_fifo mem_linked [5] 0
           [CDequeue; CEnqueue 8; CDequeue; CDequeue] 32 Hh).
  simpl. lia.
Defined.

(** ** Single-threaded use of a new queue *)

Section TightUse.
Context {T : Type}.
Implicit Types (st : state T) (hz : gmap loc (Node T)) (r v : T)
  (ns : list loc) (vs : list T) (cs : list (call T)).

Lemma wrap_int_idem (z : Z) : wrap_int (wrap_int z) = wrap_int z.
Proof.
  unfold wrap_int.
  replace (((z + 2147483648) mod 4294967296 - 2147483648) + 2147483648)
    with ((z + 2147483648) mod 4294967296) by lia.
  by rewrite Z.mod_mod.
Qed.

Lemma int_succ_wrap (z : Z) : int_succ (wrap_int z) = wrap_int (z + 1).
Proof.
  unfold int_succ, wrap_int.
  replace (((z + 2147483648) mod 4294967296 - 2147483648) + 1 + 2147483648)
    with ((z + 2147483648) mod 4294967296 + 1) by lia.
  replace (z + 1 + 2147483648) with ((z + 2147483648) + 1) by lia.
  by rewrite Zplus_mod_idemp_l.
Qed.

Lemma linked_last h ns t :
  linked h ns → last ns = Some t →
  ∃ n : Node T, h !! t = Some n ∧ ptr (next n) = None.
Proof.
  intros Hl Hlast. apply last_Some in Hlast as (pre & ->).
  by destruct (linked_split _ _ _ _ Hl) as (n & Hn & Hnext); eauto.
Qed.

Lemma NoDup_last_ne (a b : loc) (l : list loc) :
  NoDup (a :: b :: l) → last (a :: b :: l) ≠ Some a.
Proof.
  intros Hnd Hlast. apply NoDup_cons in Hnd as [Hnotin _].
  apply Hnotin. change (last (a :: b :: l)) with (last (b :: l)) in Hlast.
  apply last_Some in Hlast as (pre & Heq). rewrite Heq.
  apply elem_of_app. right. by left.
Qed.

Lemma Queue_new_tight (raw : Node T) hz :
  tight hz (Queue_new raw hz) (new_loc hz) [] 0 0.
Proof.
  split; [done|]. split; [done|]. split; [done|]. split; [|split].
  - cbn [Queue_new heap]. rewrite dom_insert_L. simpl.
    apply set_eq. intros x.
    rewrite !elem_of_union, !elem_of_singleton, elem_of_empty. tauto.
  - intros a ->%list_elem_of_singleton. apply new_loc_fresh.
  - intros a n Hn. cbn [Queue_new heap]. rewrite lookup_insert_ne; [done|].
    intros <-. rewrite new_loc_fresh in Hn. done.
Qed.

Lemma enqueue_tight hz st s ns vs ne nd v fuel :
  repr st s ns vs → tight hz st s ns ne nd → (6 ≤ fuel)%nat →
  ∃ st',
    enqueue fuel st v = Ret st' ∧
    repr st' s (ns ++ [new_loc (heap st)]) (vs ++ [v]) ∧
    tight hz st' s (ns ++ [new_loc (heap st)]) (S ne) nd.
Proof.
  intros Hr (Ht & Hce & Hcd & Hdom & Hfresh & Hsub) Hfuel.
  destruct (enqueue_explicit st s ns vs v Hr)
    as (tr & l & nl & c & Hs & Hlast & Hnl & Hnull & _ & Htl).
  destruct Htl as [-> Hlen]; [congruence|].
  destruct (enqueue_steps st s ns vs v Hr) as (tr' & st' & Hs' & _ & Hr' & _).
  destruct (steps_det _ _ _ _ _ _ _ _ Hs' eq_refl Hs eq_refl) as (_ & -> & _).
  set (a := new_loc (heap st)) in *.
  assert (heap st !! a = None) as Ha by apply new_loc_fresh.
  assert (l ∈ s :: ns) as Hlin.
  { apply last_Some in Hlast as (pre & ->). apply elem_of_app. right. by left. }
  eexists. split; [eapply (enqueue_of_steps _ _ _ _ Hs); lia|].
  split; [exact Hr'|].
  split; [|split; [|split; [|split; [|split]]]]; cbn [heap queue _head _tail ptr count].
  - by rewrite app_comm_cons, last_snoc.
  - rewrite Hce, int_succ_wrap. f_equal. lia.
  - done.
  - rewrite !dom_insert_L, Hdom. apply set_eq. intros x.
    rewrite !elem_of_union, !elem_of_singleton, !elem_of_list_to_set.
    rewrite app_comm_cons, elem_of_app, list_elem_of_singleton.
    split; [intros [-> | [-> | [? | ?]]]; auto|intros [? | [? | ->]]; auto].
  - intros x Hx. rewrite app_comm_cons in Hx.
    apply elem_of_app in Hx as [Hx| ->%list_elem_of_singleton];
      [by apply Hfresh|].
    destruct (hz !! a) as [n|] eqn:Hn; [|done].
    apply Hsub in Hn. congruence.
  - intros x n Hn. rewrite !lookup_insert_ne; [by apply Hsub| |].
    + intros <-. apply Hsub in Hn. congruence.
    + intros <-. rewrite (Hfresh l Hlin) in Hn. done.
Qed.

Lemma dequeue_tight hz st s b ns v vs ne nd r fuel :
  repr st s (b :: ns) (v :: vs) → tight hz st s (b :: ns) ne nd →
  (7 ≤ fuel)%nat →
  ∃ st',
    dequeue fuel st r = Ret (true, v, st') ∧
    repr st' b ns vs ∧ tight hz st' b ns ne (S nd).
Proof.
  intros Hr (Ht & Hce & Hcd & Hdom & Hfresh & Hsub) Hfuel.
  pose proof Hr as [_ _ Hnd _ _].
  destruct (dequeue_explicit st s b ns v vs r Hr)
    as (tr & tl & Hs & _ & _ & _ & Htl & Hr').
  destruct Htl as [-> Hlen].
  { rewrite Ht. by apply NoDup_last_ne. }
  eexists. split; [eapply (dequeue_of_steps _ _ _ _ _ _ Hs); lia|].
  split; [exact Hr'|].
  apply NoDup_cons in Hnd as [Hnotin Hnd].
  split; [|split; [|split; [|split; [|split]]]]; cbn [heap queue _head _tail ptr count].
  - done.
  - done.
  - rewrite Hcd, int_succ_wrap. f_equal. lia.
  - rewrite dom_delete_L, Hdom. apply set_eq. intros x.
    rewrite elem_of_difference, !elem_of_union, !elem_of_singleton,
      !elem_of_list_to_set, (elem_of_cons (b :: ns)).
    split.
    + intros [[? | [-> | ?]] Hne]; auto. done.
    + intros [Hx|Hx]; (split; [auto|]); intros ->.
      * apply elem_of_dom in Hx as [n Hn].
        rewrite Hfresh in Hn; [done|by left].
      * done.
  - intros x Hx. apply Hfresh. by right.
  - intros x n Hn. rewrite lookup_delete_ne; [by apply Hsub|].
    intros <-. rewrite Hfresh in Hn; [done|by left].
Qed.

Lemma run_calls_tight hz cs : ∀ st s ns vs r ne nd fuel,
  repr st s ns vs → tight hz st s ns ne nd → (7 ≤ fuel)%nat →
  ∃ rs r' vs' st' s' ns',
    fifo_calls vs r cs = (rs, r', vs') ∧
    run_calls fuel st r cs = Ret (rs, r', st') ∧
    repr st' s' ns' vs' ∧
    tight hz st' s' ns' (ne + enqueues cs) (nd + dequeued rs).
Proof.
  induction cs as [|[v|] cs IH]; intros st s ns vs r ne nd fuel Hr Ht Hfuel;
    simpl.
  - exists [], r, vs, st, s, ns. rewrite !Nat.add_0_r. done.
  - destruct (enqueue_tight hz st s ns vs ne nd v fuel Hr Ht) as (st1 & -> & Hr1 & Ht1);
      [lia|].
    destruct (IH st1 s _ _ r _ _ fuel Hr1 Ht1 Hfuel)
      as (rs & r' & vs' & st' & s' & ns' & -> & -> & Hr' & Ht').
    exists (REnqueue :: rs), r', vs', st', s', ns'.
    simpl. rewrite <- Nat.add_succ_comm. done.
  - destruct vs as [|v vs0].
    + rewrite (dequeue_empty st r fuel) by (by eexists _, _ || lia).
      destruct (IH st s ns [] r ne nd fuel Hr Ht Hfuel)
        as (rs & r' & vs' & st' & s' & ns' & -> & -> & Hr' & Ht').
      exists (RDequeue false r :: rs), r', vs', st', s', ns'. done.
    + destruct ns as [|b ns]; [destruct Hr as [_ _ _ _ Hv]; inversion Hv|].
      destruct (dequeue_tight hz st s b ns v vs0 ne nd r fuel Hr Ht Hfuel)
        as (st1 & -> & Hr1 & Ht1).
      destruct (IH st1 b ns vs0 v ne (S nd) fuel Hr1 Ht1 Hfuel)
        as (rs & r' & vs' & st' & s' & ns' & -> & -> & Hr' & Ht').
      exists (RDequeue true v :: rs), r', vs', st', s', ns'.
      simpl. rewrite <- Nat.add_succ_comm. done.
Qed.

End TightUse.

(** X8. No leak and no stray write under single-threaded use: after any
    sequence of calls on a new queue, each call given fuel for 7 steps,
    the heap holds exactly the nodes that were there before the queue was
    made, unchanged, plus one node per element still in the queue, plus
    the dummy node. *)
Theorem single_thread_no_leak {T : Type} (raw : Node T)
    (h : gmap loc (Node T)) (r : T) (cs : list (call T)) (fuel : nat) :
  (7 ≤ fuel)%nat →
  ∃ rs r' vs' st',
    fifo_calls [] r cs = (rs, r', vs') ∧
    run_calls fuel (Queue_new raw h) r cs = Ret (rs, r', st') ∧
    size (heap st') = (size h + 1 + length vs')%nat ∧
    (∀ a n, h !! a = Some n → heap st' !! a = Some n).
Proof.
  intros Hfuel.
  destruct (run_calls_tight h cs (Queue_new raw h) (new_loc h) [] [] r 0 0 fuel)
    as (rs & r' & vs' & st' & s' & ns' & Hf & Hrun & Hr' & Ht');
    [apply Queue_new_repr|apply Queue_new_tight|done|].
  exists rs, r', vs', st'. split; [done|]. split; [done|].
  destruct Ht' as (_ & _ & _ & Hdom & Hfresh & Hsub). split; [|done].
  destruct Hr' as [_ _ Hnd _ Hv]. apply Forall2_length in Hv.
  rewrite <- (size_dom (heap st')), Hdom, size_union.
  - rewrite size_dom, size_list_to_set by done. simpl. lia.
  - intros x Hx Hx'. apply elem_of_list_to_set in Hx'.
    apply elem_of_dom in Hx as [n Hn]. rewrite Hfresh in Hn; done.
Qed.

Lemma single_thread_no_leak_witness :
  (7 ≤ 7)%nat ∧
  ∃ rs r' vs' st',
    fifo_calls [] 0 [CEnqueue 1; CEnqueue 2; CDequeue] = (rs, r', vs') ∧
    run_calls 7 (Queue_new raw_seven (heap mem_linked)) 0
      [CEnqueue 1; CEnqueue 2; CDequeue]
    = Ret (rs, r', st') ∧
    size (heap st') = (size (heap mem_linked) + 1 + length vs')%nat ∧
    (∀ a n, heap mem_linked !! a = Some n → heap st' !! a = Some n).
Proof.
  split; [lia|].
  apply (single_thread_no_leak raw_seven (heap mem_linked) 0
           [CEnqueue 1; CEnqueue 2; CDequeue] 7).
  lia.
Defined.

(** ** Two queues in one heap *)

Section Frame.
Context {T : Type}.
Implicit Types (st : state T) (r v : T) (ns : list loc) (vs : list T)
  (qo : Queue).

(** A queue represented on nodes that the heaps [h] and [h'] agree on. *)
Lemma repr_frame (h h' : gmap loc (Node T)) qo s ns vs :
  (∀ a, a ∈ s :: ns → h' !! a = h !! a) →
  repr (mkState h qo) s ns vs → repr (mkState h' qo) s ns vs.
Proof.
  intros Hsame [Hh Hl Hnd Ht Hv]. split; cbn [heap queue] in *; try done.
  - by eapply linked_frame.
  - eapply (values_frame h); [|done].
    intros a Ha. rewrite Hsame; [done|]. by right.
Qed.

Lemma enqueue_frame st s1 ns1 vs1 qo s2 ns2 vs2 v fuel :
  repr st s1 ns1 vs1 → repr (mkState (heap st) qo) s2 ns2 vs2 →
  (∀ a, a ∈ s1 :: ns1 → a ∉ s2 :: ns2) →
  (4 * length vs1 + 6 ≤ fuel)%nat →
  ∃ st',
    enqueue fuel st v = Ret st' ∧
    repr st' s1 (ns1 ++ [new_loc (heap st)]) (vs1 ++ [v]) ∧
    repr (mkState (heap st') qo) s2 ns2 vs2 ∧
    (∀ a, a ∈ s1 :: ns1 ++ [new_loc (heap st)] → a ∉ s2 :: ns2) ∧
    (∀ a, a ∈ s2 :: ns2 → heap st' !! a = heap st !! a).
Proof.
  intros Hr Hr2 Hdis Hfuel.
  destruct (enqueue_explicit st s1 ns1 vs1 v Hr)
    as (tr & l & nl & c & Hs & Hlast & Hnl & Hnull & Hlen & _).
  destruct (enqueue_steps st s1 ns1 vs1 v Hr) as (tr' & st' & Hs' & _ & Hr' & _).
  destruct (steps_det _ _ _ _ _ _ _ _ Hs' eq_refl Hs eq_refl) as (_ & -> & _).
  assert (l ∈ s1 :: ns1) as Hlin.
  { apply last_Some in Hlast as (pre & ->). apply elem_of_app. right. by left. }
  assert (∀ a, a ∈ s2 :: ns2 → a ≠ new_loc (heap st)) as Hfresh2.
  { intros a Ha ->. destruct Hr2 as [_ Hl2 _ _ _].
    destruct (linked_lookup _ _ _ Hl2 Ha) as [n Hn]. cbn [heap] in Hn.
    rewrite new_loc_fresh in Hn. done. }
  assert (∀ a, a ∈ s2 :: ns2 →
            <[l := mkNode (value nl)
                     (NP (Some (new_loc (heap st)))
                        (int_succ (count (next nl))))]>
              (<[new_loc (heap st) := mkNode v (NP None 0)]> (heap st)) !! a
            = heap st !! a) as Hsame.
  { intros a Ha. rewrite !lookup_insert_ne; [done| |].
    - intros <-. by apply (Hfresh2 _ Ha).
    - intros <-. by apply (Hdis l). }
  eexists. split.
  { eapply (enqueue_of_steps _ _ _ _ Hs).
    destruct Hr as [_ _ _ _ Hv]. apply Forall2_length in Hv. lia. }
  split; [exact Hr'|]. cbn [heap]. split; [|split; [|exact Hsame]].
  - by eapply repr_frame.
  - intros a Ha Ha2. rewrite app_comm_cons in Ha.
    apply elem_of_app in Ha as [Ha| ->%list_elem_of_singleton].
    + by apply (Hdis a).
    + by apply (Hfresh2 _ Ha2).
Qed.

Lemma dequeue_frame st s1 b ns1 v vs1 qo s2 ns2 vs2 r fuel :
  repr st s1 (b :: ns1) (v :: vs1) →
  repr (mkState (heap st) qo) s2 ns2 vs2 →
  (∀ a, a ∈ s1 :: b :: ns1 → a ∉ s2 :: ns2) →
  (12 ≤ fuel)%nat →
  ∃ st',
    dequeue fuel st r = Ret (true, v, st') ∧
    repr st' b ns1 vs1 ∧
    repr (mkState (heap st') qo) s2 ns2 vs2 ∧
    (∀ a, a ∈ b :: ns1 → a ∉ s2 :: ns2) ∧
    (∀ a, a ∈ s2 :: ns2 → heap st' !! a = heap st !! a).
Proof.
  intros Hr Hr2 Hdis Hfuel.
  destruct (dequeue_explicit st s1 b ns1 v vs1 r Hr)
    as (tr & tl & Hs & Hlen & _ & _ & _ & Hr').
  assert (∀ a, a ∈ s2 :: ns2 → delete s1 (heap st) !! a = heap st !! a)
    as Hsame.
  { intros a Ha. rewrite lookup_delete_ne; [done|].
    intros <-. apply (Hdis s1); [by left|done]. }
  eexists. split; [eapply (dequeue_of_steps _ _ _ _ _ _ Hs); lia|].
  split; [exact Hr'|]. cbn [heap]. split; [|split; [|exact Hsame]].
  - by eapply repr_frame.
  - intros a Ha. apply Hdis. by right.
Qed.

Lemma run_calls_frame qo s2 ns2 vs2 cs : ∀ st s1 ns1 vs1 r fuel,
  repr st s1 ns1 vs1 → repr (mkState (heap st) qo) s2 ns2 vs2 →
  (∀ a, a ∈ s1 :: ns1 → a ∉ s2 :: ns2) →
  (4 * (length vs1 + length cs) + 12 ≤ fuel)%nat →
  ∃ rs r' vs1' st' s1' ns1',
    fifo_calls vs1 r cs = (rs, r', vs1') ∧
    run_calls fuel st r cs = Ret (rs, r', st') ∧
    repr st' s1' ns1' vs1' ∧
    repr (mkState (heap st') qo) s2 ns2 vs2 ∧
    (∀ a, a ∈ s1' :: ns1' → a ∉ s2 :: ns2) ∧
    (∀ a, a ∈ s2 :: ns2 → heap st' !! a = heap st !! a).
Proof.
  induction cs as [|[v|] cs IH]; intros st s1 ns1 vs1 r fuel Hr Hr2 Hdis Hfuel;
    simpl.
  - by exists [], r, vs1, st, s1, ns1.
  - destruct (enqueue_frame st s1 ns1 vs1 qo s2 ns2 vs2 v fuel Hr Hr2 Hdis)
      as (st1 & -> & Hr1 & Hr21 & Hdis1 & Hsame1); [simpl in Hfuel; lia|].
    destruct (IH st1 s1 _ _ r fuel Hr1 Hr21 Hdis1)
      as (rs & r' & vs' & st' & s' & ns' & -> & -> & Hr' & Hr2' & Hdis' & Hsame').
    { rewrite length_app. simpl in *. lia. }
    exists (REnqueue :: rs), r', vs', st', s', ns'.
    repeat (split; [done|]). intros a Ha. by rewrite Hsame', Hsame1.
  - destruct vs1 as [|v vs0].
    + rewrite (dequeue_empty st r fuel) by (by eexists _, _ || lia).
      destruct (IH st s1 ns1 [] r fuel Hr Hr2 Hdis)
        as (rs & r' & vs' & st' & s' & ns' & -> & -> & Hr' & Hr2' & Hdis' & Hsame').
      { simpl in *. lia. }
      by exists (RDequeue false r :: rs), r', vs', st', s', ns'.
    + destruct ns1 as [|b ns1]; [destruct Hr as [_ _ _ _ Hv]; inversion Hv|].
      destruct (dequeue_frame st s1 b ns1 v vs0 qo s2 ns2 vs2 r fuel Hr Hr2 Hdis)
        as (st1 & -> & Hr1 & Hr21 & Hdis1 & Hsame1); [lia|].
      destruct (IH st1 b ns1 vs0 v fuel Hr1 Hr21 Hdis1)
        as (rs & r' & vs' & st' & s' & ns' & -> & -> & Hr' & Hr2' & Hdis' & Hsame').
      { simpl in *. lia. }
      exists (RDequeue true v :: rs), r', vs', st', s', ns'.
      repeat (split; [done|]). intros a Ha. by rewrite Hsame', Hsame1.
Qed.

Lemma drain_frame qo s2 ns2 vs2 vs1 : ∀ st s1 ns1 x n fuel,
  repr st s1 ns1 vs1 → repr (mkState (heap st) qo) s2 ns2 vs2 →
  (∀ a, a ∈ s1 :: ns1 → a ∉ s2 :: ns2) →
  (length vs1 < n)%nat → (12 ≤ fuel)%nat →
  ∃ st' s1',
    drain n fuel st x = Ret (vs1, default x (last vs1), st') ∧
    repr st' s1' [] [] ∧
    repr (mkState (heap st') qo) s2 ns2 vs2 ∧
    s1' ∉ s2 :: ns2.
Proof.
  induction vs1 as [|v vs1 IH]; intros st s1 ns1 x n fuel Hr Hr2 Hdis Hn Hfuel.
  - destruct n as [|n]; [simpl in Hn; lia|]. simpl.
    rewrite (dequeue_empty st x fuel) by (by eexists _, _ || lia).
    pose proof (repr_nil_nodes _ _ _ Hr) as ->.
    exists st, s1. split; [done|]. split; [done|]. split; [done|].
    apply Hdis. by left.
  - destruct n as [|n]; [simpl in Hn; lia|]. simpl.
    destruct ns1 as [|b ns1]; [destruct Hr as [_ _ _ _ Hv]; inversion Hv|].
    destruct (dequeue_frame st s1 b ns1 v vs1 qo s2 ns2 vs2 x fuel Hr Hr2 Hdis)
      as (st1 & -> & Hr1 & Hr21 & Hdis1 & _); [lia|].
    destruct (IH st1 b ns1 v n fuel Hr1 Hr21 Hdis1)
      as (st' & s' & -> & Hr' & Hr2' & Hdis'); [simpl in Hn; lia|done|].
    exists st', s'. split; [|done].
    do 3 f_equal. destruct vs1 as [|v' vs1]; [done|].
    change (last (v :: v' :: vs1)) with (last (v' :: vs1)).
    by destruct (last (v' :: vs1)) eqn:Hlast; [|apply last_None in Hlast].
Qed.

End Frame.

(** X11. Two queues in one heap do not disturb each other: when a second
    queue is represented on nodes apart from those of the queue that is
    called, any sequence of single-threaded calls leaves every node of
    the second queue as it was, so that it still holds the same
    elements. *)
Theorem other_queue_untouched {T : Type} (st : state T) (s1 : loc)
    (ns1 : list loc) (vs1 : list T) (qo : Queue) (s2 : loc) (ns2 : list loc)
    (vs2 : list T) (r : T) (cs : list (call T)) (fuel : nat) :
  repr st s1 ns1 vs1 → repr (mkState (heap st) qo) s2 ns2 vs2 →
  (∀ a, a ∈ s1 :: ns1 → a ∉ s2 :: ns2) →
  (4 * (length vs1 + length cs) + 12 ≤ fuel)%nat →
  ∃ rs r' st',
    run_calls fuel st r cs = Ret (rs, r', st') ∧
    repr (mkState (heap st') qo) s2 ns2 vs2 ∧
    (∀ a, a ∈ s2 :: ns2 → heap st' !! a = heap st !! a).
Proof.
  intros Hr Hr2 Hdis Hfuel.
  destruct (run_calls_frame qo s2 ns2 vs2 cs st s1 ns1 vs1 r fuel Hr Hr2 Hdis
              Hfuel)
    as (rs & r' & vs' & st' & s' & ns' & _ & Hrun & _ & Hr2' & _ & Hsame).
  by exists rs, r', st'.
Qed.

Lemma other_queue_untouched_witness :
  repr (Demo.q_state (Demo.setup raw_seven raw_seven ∅)) 1%positive [] [] ∧
  repr (mkState (heap (Demo.q_state (Demo.setup raw_seven raw_seven ∅)))
          (Demo.results (Demo.setup raw_seven raw_seven ∅)))
    2%positive [] [] ∧
  (∀ a : loc, a ∈ [1%positive] → a ∉ [2%positive]) ∧
  (4 * (length (@nil Z) + length [CEnqueue 4; CDequeue]) + 12 ≤ 20)%nat ∧
  ∃ rs r' st',
    run_calls 20 (Demo.q_state (Demo.setup raw_seven raw_seven ∅)) 0
      [CEnqueue 4; CDequeue]
    = Ret (rs, r', st') ∧
    repr (mkState (heap st') (Demo.results (Demo.setup raw_seven raw_seven ∅)))
      2%positive [] [] ∧
    (∀ a, a ∈ [2%positive] →
       heap st' !! a
       = heap (Demo.q_state (Demo.setup raw_seven raw_seven ∅)) !! a).
Proof.
  assert (repr (Demo.q_state (Demo.setup raw_seven raw_seven ∅))
            1%positive [] []) as Hr1.
  { split.
    - reflexivity.
    - split; [eexists; split; reflexivity|exact I].
    - apply NoDup_singleton.
    - exists 1%positive. split; [reflexivity|]. by left.
    - constructor. }
  assert (repr (mkState (heap (Demo.q_state (Demo.setup raw_seven raw_seven ∅)))
                  (Demo.results (Demo.setup raw_seven raw_seven ∅)))
            2%positive [] []) as Hr2.
  { split.
    - reflexivity.
    - split; [eexists; split; reflexivity|exact I].
    - apply NoDup_singleton.
    - exists 2%positive. split; [reflexivity|]. by left.
    - constructor. }
  assert (∀ a : loc, a ∈ [1%positive] → a ∉ [2%positive]) as Hdis.
  { intros a ->%list_elem_of_singleton Hin%list_elem_of_singleton.
    discriminate. }
  split; [exact Hr1|]. split; [exact Hr2|]. split; [exact Hdis|].
  split; [simpl; lia|].
  apply (other_queue_untouched _ 1%positive [] [] _ 2%positive [] [] 0
           [CEnqueue 4; CDequeue] 20 Hr1 Hr2 Hdis).
  simpl. lia.
Defined.

Section Drain.
Context {T : Type}.

Lemma drain_holds (vs : list T) : ∀ (st : state T) (x : T) (n fuel : nat),
  holds st vs → (length vs < n)%nat → (12 ≤ fuel)%nat →
  ∃ st',
    drain n fuel st x = Ret (vs, default x (last vs), st') ∧ holds st' [].
Proof.
  induction vs as [|v vs IH]; intros st x n fuel Hh Hn Hfuel.
  - destruct n as [|n]; [simpl in Hn; lia|]. simpl.
    rewrite (dequeue_empty st x fuel) by (done || lia). by exists st.
  - destruct n as [|n]; [simpl in Hn; lia|]. simpl.
    destruct (dequeue_cons st x v vs fuel Hh Hfuel) as (st1 & -> & Hh1).
    destruct (IH st1 v n fuel Hh1) as (st' & -> & Hh'); [simpl in Hn; lia|done|].
    exists st'. split; [|done].
    do 3 f_equal. destruct vs as [|v' vs]; [done|].
    change (last (v :: v' :: vs)) with (last (v' :: vs)).
    by destruct (last (v' :: vs)) eqn:Hlast; [|apply last_None in Hlast].
Qed.

End Drain.

(** X12. The draining loop of [main],
    [while (q.dequeue(numberToPrint)) cout << numberToPrint << endl;],
    on a queue that holds [vs]: it ends, it has written exactly [vs],
    oldest first, the queue is empty afterwards, and [numberToPrint]
    holds the last element written (its old value if there was none). *)
Theorem drain_prints_contents {T : Type} (st : state T) (vs : list T) (x : T)
    (n fuel : nat) :
  holds st vs → (length vs < n)%nat → (12 ≤ fuel)%nat →
  ∃ st',
    drain n fuel st x = Ret (vs, default x (last vs), st') ∧ holds st' [].
Proof. intros. by apply drain_holds. Qed.

Lemma drain_prints_contents_witness :
  holds mem_linked [5] ∧ (length [5] < 2)%nat ∧ (12 ≤ 12)%nat ∧
  ∃ st',
    drain 2 12 mem_linked 0 = Ret ([5], default 0 (last [5]), st') ∧
    holds st' [].
Proof.
  assert (holds mem_linked [5]) as Hh.
  { exists 1%positive, [2%positive]. split.
    - reflexivity.
    - split; [eexists; split; reflexivity|].
      split; [eexists; split; reflexivity|exact I].
    - apply NoDup_cons. split; [|apply NoDup_singleton].
      intros Hin%list_elem_of_singleton. discriminate.
    - exists 1%positive. split; [reflexivity|]. by left.
    - constructor; [reflexivity|constructor]. }
  split; [exact Hh|]. split; [simpl; lia|]. split; [lia|].
  apply (drain_prints_contents mem_linked [5] 0 2 12 Hh); simpl; lia.
Defined.

(** ** The demo driver *)

Section DemoUse.
Import Demo.
Implicit Types (w : world) (vs rs : list Z).

Lemma both_setup (raw_q raw_results : Node Z) (h : gmap loc (Node Z)) :
  both (setup raw_q raw_results h) [] [].
Proof.
  set (st_q := Queue_new raw_q h).
  exists (new_loc h), [], (new_loc (heap st_q)), [].
  assert (new_loc (heap st_q) ≠ new_loc h) as Hne.
  { intros Heq. pose proof (new_loc_fresh (heap st_q)) as Hf.
    rewrite Heq in Hf. cbn [st_q Queue_new heap] in Hf.
    by rewrite lookup_insert_eq in Hf. }
  split; [|split].
  - eapply (repr_frame (heap st_q)); [|apply Queue_new_repr].
    intros a ->%list_elem_of_singleton.
    cbn. rewrite lookup_insert_ne; [done|exact Hne].
  - apply (Queue_new_repr raw_results (heap st_q)).
  - intros a ->%list_elem_of_singleton Hin%list_elem_of_singleton. done.
Qed.

Lemma both_enqueue_q w vs rs v c fuel :
  both w vs rs → (4 * length vs + 6 ≤ fuel)%nat →
  ∃ st',
    enqueue fuel (q_state w) v = Ret st' ∧
    both (mkWorld (heap st') (queue st') (results w) c) (vs ++ [v]) rs.
Proof.
  intros (s1 & ns1 & s2 & ns2 & Hr1 & Hr2 & Hdis) Hfuel.
  destruct (enqueue_frame (q_state w) s1 ns1 vs (results w) s2 ns2 rs v fuel
              Hr1 Hr2 Hdis Hfuel) as (st' & He & Hr1' & Hr2' & Hdis' & _).
  exists st'. split; [done|]. eexists s1, _, s2, ns2.
  split; [by destruct st'|]. split; [done|done].
Qed.

Lemma both_enqueue_results w vs rs v fuel :
  both w vs rs → (4 * length rs + 6 ≤ fuel)%nat →
  ∃ st',
    enqueue fuel (results_state w) v = Ret st' ∧
    both (with_results w st') vs (rs ++ [v]).
Proof.
  intros (s1 & ns1 & s2 & ns2 & Hr1 & Hr2 & Hdis) Hfuel.
  destruct (enqueue_frame (results_state w) s2 ns2 rs (q w) s1 ns1 vs v fuel
              Hr2 Hr1) as (st' & He & Hr2' & Hr1' & Hdis' & _); [|done|].
  { intros a Ha Ha1. by apply (Hdis a). }
  exists st'. split; [done|]. eexists s1, ns1, s2, _.
  split; [done|]. split; [by destruct st'|].
  intros a Ha Ha2. by apply (Hdis' a).
Qed.

Lemma both_dequeue_q w v vs rs r fuel :
  both w (v :: vs) rs → (12 ≤ fuel)%nat →
  ∃ st',
    dequeue fuel (q_state w) r = Ret (true, v, st') ∧
    both (with_q w st') vs rs.
Proof.
  intros (s1 & ns1 & s2 & ns2 & Hr1 & Hr2 & Hdis) Hfuel.
  destruct ns1 as [|b ns1]; [destruct Hr1 as [_ _ _ _ Hv]; inversion Hv|].
  destruct (dequeue_frame (q_state w) s1 b ns1 v vs (results w) s2 ns2 rs r
              fuel Hr1 Hr2 Hdis Hfuel) as (st' & Hd & Hr1' & Hr2' & Hdis' & _).
  exists st'. split; [done|]. eexists b, ns1, s2, ns2.
  split; [by destruct st'|]. split; [done|done].
Qed.

Lemma both_dequeue_q_empty w rs r fuel :
  both w [] rs → (4 ≤ fuel)%nat →
  dequeue fuel (q_state w) r = Ret (false, r, q_state w).
Proof.
  intros (s1 & ns1 & s2 & ns2 & Hr1 & Hr2 & Hdis) Hfuel.
  apply dequeue_empty; [by eexists _, _|done].
Qed.

Lemma with_q_same w : with_q w (q_state w) = w.
Proof. by destruct w. Qed.

Lemma report_both w vs rs n fuel :
  both w vs rs → (length vs < n)%nat → (length rs < n)%nat → (12 ≤ fuel)%nat →
  ∃ w',
    report n fuel w
    = Ret ((Number <$> rs) ++ Leftovers :: (Number <$> vs), w') ∧
    both w' [] [].
Proof.
  intros (s1 & ns1 & s2 & ns2 & Hr1 & Hr2 & Hdis) Hn1 Hn2 Hfuel.
  unfold report.
  destruct (drain_frame (q w) s1 ns1 vs rs (results_state w) s2 ns2 0 n fuel
              Hr2 Hr1) as (st1 & s2' & -> & Hr2' & Hr1' & Hdis1); [|done|done|].
  { intros a Ha Ha1. by apply (Hdis a). }
  destruct (drain_frame (results (with_results w st1)) s2' [] [] vs
              (q_state (with_results w st1)) s1 ns1 (default 0 (last rs)) n fuel)
    as (st2 & s1' & -> & Hr1'' & Hr2'' & Hdis2); [done|by destruct st1| |done|done|].
  { intros a Ha ->%list_elem_of_singleton. done. }
  eexists. split; [done|].
  exists s1', [], s2', []. split; [by destruct st2|]. split; [done|].
  intros a ->%list_elem_of_singleton Hin. done.
Qed.

End DemoUse.

(** X13. The end of [main]: when, after the tasks have been joined,
    [results] holds [rs] and [q] holds [vs] (on nodes apart), the lines
    written are the numbers [rs] in order, then
    ["leftovers from data race:"], then the numbers [vs] in order, and
    both queues are empty afterwards. *)
Theorem report_prints_both (w : Demo.world) (vs rs : list Z) (n fuel : nat) :
  Demo.both w vs rs →
  (length vs < n)%nat → (length rs < n)%nat → (12 ≤ fuel)%nat →
  ∃ w',
    Demo.report n fuel w
    = Ret ((Demo.Number <$> rs) ++ Demo.Leftovers :: (Demo.Number <$> vs), w') ∧
    Demo.both w' [] [].
Proof. intros. by apply report_both. Qed.

Lemma report_prints_both_witness :
  Demo.both world_joined [7] [3; 4] ∧
  (length [7] < 3)%nat ∧ (length [3; 4] < 3)%nat ∧ (12 ≤ 12)%nat ∧
  ∃ w',
    Demo.report 3 12 world_joined
    = Ret ((Demo.Number <$> [3; 4]) ++
           Demo.Leftovers :: (Demo.Number <$> [7]), w') ∧
    Demo.both w' [] [].
Proof.
  assert (Demo.both world_joined [7] [3; 4]) as Hb.
  { exists 1%positive, [3%positive], 2%positive, [4%positive; 5%positive].
    split; [|split].
    - split.
      + reflexivity.
      + split; [eexists; split; reflexivity|].
        split; [eexists; split; reflexivity|exact I].
      + apply NoDup_cons. split; [|apply NoDup_singleton].
        intros Hin%list_elem_of_singleton. discriminate.
      + exists 3%positive. split; [reflexivity|]. right. by left.
      + constructor; [reflexivity|constructor].
    - split.
      + reflexivity.
      + split; [eexists; split; reflexivity|].
        split; [eexists; split; reflexivity|].
        split; [eexists; split; reflexivity|exact I].
      + apply NoDup_cons. split.
        { intros Hin. repeat (apply elem_of_cons in Hin as [Hin|Hin]; [discriminate|]).
          by apply elem_of_nil in Hin. }
        apply NoDup_cons. split; [|apply NoDup_singleton].
        intros Hin%list_elem_of_singleton. discriminate.
      + exists 5%positive. split; [reflexivity|]. right. right. by left.
      + constructor; [reflexivity|]. constructor; [reflexivity|constructor].
    - intros a Ha Hin.
      repeat (apply elem_of_cons in Ha as [->|Ha];
              [repeat (apply elem_of_cons in Hin as [Hin|Hin]; [discriminate|]);
               by apply elem_of_nil in Hin|]).
      by apply elem_of_nil in Ha. }
  split; [exact Hb|]. split; [simpl; lia|]. split; [simpl; lia|].
  split; [lia|].
  apply (report_prints_both world_joined [7] [3; 4] 3 12 Hb); simpl; lia.
Defined.

Section TaskAlone.
Import Demo.
Implicit Types (w : world) (vs rs : list Z).

Lemma move_even w r n fuel :
  Z.rem (counter w) 2 = 0 → move (S n) fuel w r = Ret (w, r).
Proof. intros Hc. simpl. by rewrite Hc. Qed.

Lemma move_odd vs : ∀ w rs r n fuel,
  both w vs rs → Z.rem (counter w) 2 ≠ 0 → (length vs < n)%nat →
  (4 * (length rs + length vs) + 12 ≤ fuel)%nat →
  ∃ w' r',
    move n fuel w r = Ret (w', r') ∧ both w' [] (rs ++ vs) ∧
    counter w' = counter w.
Proof.
  induction vs as [|v vs IH]; intros w rs r n fuel Hb Hc Hn Hfuel.
  - destruct n as [|n]; [simpl in Hn; lia|]. simpl.
    apply Z.eqb_neq in Hc. rewrite Hc.
    rewrite (both_dequeue_q_empty w rs r fuel Hb) by lia.
    rewrite with_q_same, app_nil_r. by exists w, r.
  - destruct n as [|n]; [simpl in Hn; lia|]. simpl.
    pose proof Hc as Hc'. apply Z.eqb_neq in Hc'. rewrite Hc'.
    destruct (both_dequeue_q w v vs rs r fuel Hb) as (st1 & -> & Hb1); [lia|].
    destruct (both_enqueue_results (with_q w st1) vs rs v fuel Hb1)
      as (st2 & -> & Hb2); [simpl in Hfuel; lia|].
    destruct (IH (with_results (with_q w st1) st2) (rs ++ [v]) v n fuel Hb2)
      as (w' & r' & -> & Hb' & Hc''); [done|simpl in Hn; lia| |].
    { rewrite length_app. simpl in *. lia. }
    exists w', r'. rewrite <- app_assoc in Hb'. done.
Qed.

Lemma kept_moved_step (c : Z) :
  0 <= c →
  if Z.even c
  then kept (c + 1) = [] ∧ moved (c + 1) = moved c ++ kept c ++ [c]
  else kept (c + 1) = kept c ++ [c] ∧ moved (c + 1) = moved c.
Proof.
  intros Hc. unfold moved, kept.
  rewrite Z.even_add. change (Z.even 1) with false.
  destruct (Z.even c) eqn:He; simpl.
  - split; [done|]. destruct (0 <? c) eqn:Hpos; simpl.
    + apply Z.ltb_lt in Hpos.
      replace (c + 1 - Z.of_nat 0) with ((c - 1) + 2) by lia.
      replace (c - Z.of_nat 1) with (c - 1) by lia.
      rewrite seqZ_app by lia. f_equal.
      replace (0 + (c - 1)) with (c - 1) by lia.
      change 2 with (Z.succ 1). rewrite seqZ_cons by lia. simpl.
      f_equal. replace (Z.succ (c - 1)) with c by lia. done.
    + apply Z.ltb_ge in Hpos. assert (c = 0) as -> by lia. done.
  - assert ((0 <? c + 1) = true) as -> by (apply Z.ltb_lt; lia).
    split; [by replace (c + 1 - 1) with c by lia|].
    f_equal. simpl. lia.
Qed.

Lemma rem2_succ (c : Z) :
  0 <= c → Z.rem (c + 1) 2 = if Z.even c then 1 else 0.
Proof.
  intros Hc. rewrite Z.rem_mod_nonneg by lia.
  rewrite Zmod_even, Z.even_add. change (Z.even 1) with false.
  by destruct (Z.even c).
Qed.

Lemma kept_length (c : Z) : (length (kept c) ≤ 1)%nat.
Proof. unfold kept. destruct (Z.even c && (0 <? c)); simpl; lia. Qed.

Lemma moved_length (c : Z) : 0 <= c → (length (moved c) ≤ Z.to_nat c)%nat.
Proof. intros Hc. unfold moved. rewrite length_seqZ. lia. Qed.

Lemma produce_from (k : nat) : ∀ w r n fuel limit,
  0 <= counter w → counter w + Z.of_nat k = limit → limit <= int_max →
  both w (kept (counter w)) (moved (counter w)) →
  (k + 3 ≤ n)%nat → (4 * Z.to_nat limit + 20 ≤ fuel)%nat →
  ∃ w' r',
    produce n fuel limit w r = Ret (w', r') ∧
    counter w' = limit ∧ both w' (kept limit) (moved limit).
Proof.
  induction k as [|k IH]; intros w r n fuel limit Hc0 Hck Hlim Hb Hn Hfuel.
  - destruct n as [|n]; [lia|]. simpl.
    assert ((counter w <? limit) = false) as -> by (apply Z.ltb_ge; lia).
    exists w, r. assert (limit = counter w) as -> by lia. done.
  - destruct n as [|n]; [lia|]. cbn [produce].
    assert ((counter w <? limit) = true) as -> by (apply Z.ltb_lt; lia).
    pose proof (kept_length (counter w)) as Hkl.
    pose proof (moved_length (counter w) Hc0) as Hml.
    destruct (both_enqueue_q w _ _ (counter w) (int_succ (counter w)) fuel Hb)
      as (st1 & -> & Hb1); [lia|].
    rewrite int_succ_no_overflow in * by (unfold int_min, int_max in *; lia).
    set (w1 := mkWorld (heap st1) (queue st1) (results w) (counter w + 1)) in *.
    pose proof (kept_moved_step (counter w) Hc0) as Hstep.
    destruct (Z.even (counter w)) eqn:He.
    + destruct Hstep as [Hk Hm].
      destruct (move_odd (kept (counter w) ++ [counter w]) w1
                  (moved (counter w)) r (S n) fuel Hb1)
        as (w2 & r2 & -> & Hb2 & Hc2).
      * cbn [w1 counter]. rewrite rem2_succ, He by done. done.
      * rewrite length_app. simpl. lia.
      * rewrite length_app. simpl. lia.
      * destruct (IH w2 r2 n fuel limit) as (w' & r' & -> & Hc' & Hb');
          rewrite ?Hc2; cbn [w1 counter]; try lia.
        -- by rewrite Hk, Hm.
        -- by exists w', r'.
    + destruct Hstep as [Hk Hm].
      rewrite move_even.
      * destruct (IH w1 r n fuel limit) as (w' & r' & -> & Hc' & Hb');
          cbn [w1 counter]; try lia.
        -- by rewrite Hk, Hm.
        -- by exists w', r'.
      * cbn [w1 counter]. rewrite rem2_succ, He by done. done.
Qed.

End TaskAlone.

(** X14. A task that runs alone: started with [counter = c] between 0 and
    [RESULT_COUNT], with [q] and [results] as a task running alone leaves
    them at [c], the task's loop ends with [counter = RESULT_COUNT], [q]
    holding only 99 and [results] holding 0, 1, ..., 98 in order: every
    value is moved to [results] in FIFO order except the last one, which
    is enqueued when [counter] becomes even.  Started with
    [counter = RESULT_COUNT], the task changes nothing. *)
Theorem task_alone_moves_all_but_last (w : Demo.world) (n fuel : nat) :
  0 <= Demo.counter w <= Demo.RESULT_COUNT →
  Demo.both w (Demo.kept (Demo.counter w)) (Demo.moved (Demo.counter w)) →
  (103 ≤ n)%nat → (420 ≤ fuel)%nat →
  ∃ w',
    Demo.task n fuel w = Ret w' ∧
    Demo.counter w' = Demo.RESULT_COUNT ∧
    Demo.both w' [99] (seqZ 0 99) ∧
    (Demo.counter w = Demo.RESULT_COUNT → w' = w).
Proof.
  intros Hc Hb Hn Hfuel. unfold Demo.task.
  destruct (produce_from (Z.to_nat (Demo.RESULT_COUNT - Demo.counter w))
              w 0 n fuel Demo.RESULT_COUNT)
    as (w' & r' & Hp & Hc' & Hb');
    [unfold Demo.RESULT_COUNT, int_max in *; try lia..|done| | |].
  - unfold Demo.RESULT_COUNT in *. lia.
  - unfold Demo.RESULT_COUNT in *. simpl. lia.
  - rewrite Hp. exists w'. split; [done|]. split; [done|]. split; [exact Hb'|].
    intros Heq. destruct n as [|n]; [lia|]. simpl in Hp.
    rewrite Heq, Z.ltb_irrefl in Hp. by injection Hp as ->.
Qed.

Lemma task_alone_moves_all_but_last_witness :
  0 <= Demo.counter (Demo.setup raw_seven raw_seven ∅) <= Demo.RESULT_COUNT ∧
  Demo.both (Demo.setup raw_seven raw_seven ∅)
    (Demo.kept (Demo.counter (Demo.setup raw_seven raw_seven ∅)))
    (Demo.moved (Demo.counter (Demo.setup raw_seven raw_seven ∅))) ∧
  (103 ≤ 103)%nat ∧ (420 ≤ 420)%nat ∧
  ∃ w',
    Demo.task 103 420 (Demo.setup raw_seven raw_seven ∅) = Ret w' ∧
    Demo.counter w' = Demo.RESULT_COUNT ∧
    Demo.both w' [99] (seqZ 0 99) ∧
    (Demo.counter (Demo.setup raw_seven raw_seven ∅) = Demo.RESULT_COUNT →
     w' = Demo.setup raw_seven raw_seven ∅).
Proof.
  assert (Demo.both (Demo.setup raw_seven raw_seven ∅) [] []) as Hb.
  { exists 1%positive, [], 2%positive, []. split; [|split].
    - split.
      + reflexivity.
      + split; [eexists; split; reflexivity|exact I].
      + apply NoDup_singleton.
      + exists 1%positive. split; [reflexivity|]. by left.
      + constructor.
    - split.
      + reflexivity.
      + split; [eexists; split; reflexivity|exact I].
      + apply NoDup_singleton.
      + exists 2%positive. split; [reflexivity|]. by left.
      + constructor.
    - intros a ->%list_elem_of_singleton Hin%list_elem_of_singleton.
      discriminate. }
  assert (0 <= Demo.counter (Demo.setup raw_seven raw_seven ∅)
          <= Demo.RESULT_COUNT) as Hc.
  { split; [reflexivity|discriminate]. }
  split; [exact Hc|]. split; [exact Hb|]. split; [lia|]. split; [lia|].
  apply (task_alone_moves_all_but_last (Demo.setup raw_seven raw_seven ∅)
           103 420 Hc Hb); lia.
Defined.

(** ** Concurrent [enqueue] calls under every schedule *)

Section ProducersProof.
Context {T : Type}.
Implicit Types (st : state T) (th : thread T) (ths : list (thread T))
  (x : T) (xs ys vs : list T) (l : list loc).

Lemma linked_null_last (h : gmap loc (Node T)) l t n :
  linked h l → t ∈ l → h !! t = Some n → ptr (next n) = None →
  ∃ pre, l = pre ++ [t].
Proof.
  intros Hl Hin Hn Hnull.
  destruct (list_elem_of_split _ _ Hin) as (pre & post & ->).
  destruct (linked_split _ _ _ _ Hl) as (n' & Hn' & Hnext).
  assert (n' = n) as -> by congruence.
  exists pre. destruct post; [done|]. simpl in Hnext. congruence.
Qed.

Lemma linked_next_in (h : gmap loc (Node T)) l t n b :
  linked h l → t ∈ l → h !! t = Some n → ptr (next n) = Some b → b ∈ l.
Proof.
  intros Hl Hin Hn Hnext.
  destruct (list_elem_of_split _ _ Hin) as (pre & post & ->).
  destruct (linked_split _ _ _ _ Hl) as (n' & Hn' & Hnext').
  assert (n' = n) as -> by congruence.
  destruct post as [|b' post]; simpl in Hnext'; [congruence|].
  assert (b' = b) as -> by congruence.
  apply elem_of_app. right. right. by left.
Qed.

Lemma todo_same ths : ∀ xs i th x th',
  ths !! i = Some th → xs !! i = Some x → todo th' x = todo th x →
  concat (zip_with todo (<[i:=th']> ths) xs) = concat (zip_with todo ths xs).
Proof.
  induction ths as [|th0 ths IH]; intros xs i th x th' Hi Hx Ht; [done|].
  destruct xs as [|x0 xs]; [done|].
  destruct i as [|i]; simpl in *.
  - injection Hi as ->. injection Hx as ->. by rewrite Ht.
  - f_equal. by eapply IH.
Qed.

Lemma todo_flip ths : ∀ xs i th x th',
  ths !! i = Some th → xs !! i = Some x → todo th x = [x] → todo th' x = [] →
  concat (zip_with todo ths xs)
  ≡ₚ x :: concat (zip_with todo (<[i:=th']> ths) xs).
Proof.
  induction ths as [|th0 ths IH]; intros xs i th x th' Hi Hx Ht Ht'; [done|].
  destruct xs as [|x0 xs]; [done|].
  destruct i as [|i]; simpl in *.
  - injection Hi as ->. injection Hx as ->. by rewrite Ht, Ht'.
  - rewrite (IH xs i th x th' Hi Hx Ht Ht').
    by rewrite Permutation_middle.
Qed.

(** What a call in progress relies on survives the steps of the others. *)
Lemma enq_inv_stable st l th x st' l' :
  enq_inv st l th x →
  (∀ a, a ∈ l → a ∈ l') →
  (∀ a, pending_node th = Some a → a ∉ l') →
  (∀ t n, heap st !! t = Some n → t ∉ l ∨ ptr (next n) ≠ None →
          heap st' !! t = Some n) →
  enq_inv st' l' th x.
Proof.
  intros Hinv Hsub Hpend Hheap.
  assert (∀ a, owns st l a x → pending_node th = Some a → owns st' l' a x)
    as Howns.
  { intros a [Hnotin Ha] Hp. split; [by apply Hpend|]. apply Hheap; auto. }
  assert (∀ tl, points_into l tl → points_into l' tl) as Hpt.
  { intros tl (t & Ht & Hin). exists t. auto. }
  assert (∀ tl nx, seen st tl nx → seen st' tl nx) as Hseen.
  { intros tl nx Hs Hnx. destruct (Hs Hnx) as (t & n & Ht & Hn & Hnext).
    exists t, n. split; [done|]. split; [|done].
    apply Hheap; [done|]. right. congruence. }
  destruct th as [[]|]; simpl in *; try done.
  - by apply Howns.
  - destruct Hinv as [? ?]. split; [by apply Howns|by apply Hpt].
  - destruct Hinv as (? & ? & ?).
    split; [by apply Howns|]. split; [by apply Hpt|by apply Hseen].
  - destruct Hinv as (? & ? & ?).
    split; [by apply Howns|]. split; [by apply Hpt|done].
  - destruct Hinv as (? & ? & ? & ?).
    split; [by apply Howns|]. split; [by apply Hpt|].
    split; [by apply Hseen|done].
  - by apply Hsub.
Qed.

Lemma producers_rebuild vs st ths xs l ys i th x st' th' l' ys' :
  producers_inv vs st ths xs l ys →
  ths !! i = Some th → xs !! i = Some x →
  hd_error l' = ptr (_head (queue st')) →
  linked (heap st') l' → NoDup l' →
  points_into l' (_tail (queue st')) →
  values (heap st') (tail l') (vs ++ ys') →
  (∀ a, a ∈ l → a ∈ l') →
  (∀ t n, heap st !! t = Some n → t ∉ l ∨ ptr (next n) ≠ None →
          heap st' !! t = Some n) →
  (∀ j thj a, j ≠ i → ths !! j = Some thj → pending_node thj = Some a →
              a ∉ l') →
  enq_inv st' l' th' x →
  (∀ a, pending_node th' = Some a →
        pending_node th = Some a ∨ heap st !! a = None) →
  ys' ++ concat (zip_with todo (<[i:=th']> ths) xs) ≡ₚ xs →
  producers_inv vs st' (<[i:=th']> ths) xs l' ys'.
Proof.
  intros [Hhd Hne Hl Hnd Ht Hv Hths Hap Hcnt] Hi Hx Hhd' Hl' Hnd' Ht' Hv'
    Hsub Hheap Hothers Hth' Hpend Hcnt'.
  split; try done.
  - destruct l as [|s l]; [done|]. intros ->.
    assert (s ∈ @nil loc) as Hin by (apply Hsub; by left).
    by apply elem_of_nil in Hin.
  - apply Forall2_same_length_lookup. split.
    { rewrite length_insert. by eapply Forall2_length. }
    intros j thj xj Hj Hxj.
    destruct (decide (j = i)) as [->|Hji].
    + rewrite list_lookup_insert_eq in Hj by (by eapply lookup_lt_Some).
      injection Hj as <-. assert (xj = x) as -> by congruence. done.
    + rewrite list_lookup_insert_ne in Hj by done.
      eapply enq_inv_stable; [| |by eauto|done]; [|done].
      by eapply (Forall2_lookup_lr _ ths xs).
  - intros j k thj thk a Hjk Hj Hk Hpj Hpk.
    assert (∀ m thm, m ≠ i → ths !! m = Some thm → pending_node thm = Some a →
              heap st !! a ≠ None) as Hlive.
    { intros m thm Hmi Hm Hpm.
      assert (∃ xm, xs !! m = Some xm) as [xm Hxm].
      { apply lookup_lt_is_Some. rewrite <- (Forall2_length _ _ _ Hths).
        by eapply lookup_lt_Some. }
      pose proof (Forall2_lookup_lr _ ths xs _ _ _ Hths Hm Hxm) as Hinv.
      destruct thm as [[]|]; simpl in *; try done;
        injection Hpm as ->; destruct Hinv as [[_ Ha] _] || destruct Hinv as [_ Ha];
        congruence. }
    destruct (decide (j = i)) as [->|Hji]; destruct (decide (k = i)) as [->|Hki];
      try done.
    + rewrite list_lookup_insert_eq in Hj by (by eapply lookup_lt_Some).
      injection Hj as <-. rewrite list_lookup_insert_ne in Hk by done.
      destruct (Hpend a Hpj) as [Hp|Hnew].
      * by eapply (Hap i k).
      * by eapply (Hlive k).
    + rewrite list_lookup_insert_eq in Hk by (by eapply lookup_lt_Some).
      injection Hk as <-. rewrite list_lookup_insert_ne in Hj by done.
      destruct (Hpend a Hpk) as [Hp|Hnew].
      * by eapply (Hap i j).
      * by eapply (Hlive j).
    + rewrite list_lookup_insert_ne in Hj, Hk by done.
      by eapply (Hap j k).
Qed.

End ProducersProof.

Section ProducersStep.
Context {T : Type}.
Implicit Types (st : state T) (th : thread T) (ths : list (thread T))
  (x : T) (xs ys vs : list T) (l : list loc).

Lemma producers_lookup vs st ths xs l ys i th :
  producers_inv vs st ths xs l ys → ths !! i = Some th →
  ∃ x, xs !! i = Some x ∧ enq_inv st l th x.
Proof.
  intros [_ _ _ _ _ _ Hths _ _] Hi.
  assert (∃ x, xs !! i = Some x) as [x Hx].
  { apply lookup_lt_is_Some. rewrite <- (Forall2_length _ _ _ Hths).
    by eapply lookup_lt_Some. }
  exists x. split; [done|]. by eapply (Forall2_lookup_lr _ ths xs).
Qed.

Lemma pending_owns st l th x a :
  enq_inv st l th x → pending_node th = Some a → owns st l a x.
Proof.
  intros Hinv Hp. destruct th as [[]|]; simpl in *; try done;
    injection Hp as ->; tauto.
Qed.

Lemma producers_rebuild_same vs st ths xs l ys i th x st' th' :
  producers_inv vs st ths xs l ys →
  ths !! i = Some th → xs !! i = Some x →
  heap st' = heap st → _head (queue st') = _head (queue st) →
  points_into l (_tail (queue st')) →
  enq_inv st' l th' x →
  (∀ a, pending_node th' = Some a → pending_node th = Some a) →
  todo th' x = todo th x →
  producers_inv vs st' (<[i:=th']> ths) xs l ys.
Proof.
  intros Hinv Hi Hx Hheap Hhead Htail Hth' Hpend Htodo.
  pose proof Hinv as [Hhd Hne Hl Hnd Ht Hv Hths Hap Hcnt].
  eapply producers_rebuild; eauto; rewrite ?Hheap, ?Hhead; try done.
  - intros j thj a Hji Hj Hp.
    destruct (producers_lookup _ _ _ _ _ _ _ _ Hinv Hj) as (xj & _ & Hinvj).
    by destruct (pending_owns _ _ _ _ _ Hinvj Hp).
  - by rewrite (todo_same ths xs i th x th').
Qed.

Lemma producers_step vs st ths xs l ys i th e st' th' :
  producers_inv vs st ths xs l ys → ths !! i = Some th →
  step_thread st th = Some (e, st', th') →
  ∃ l' ys', producers_inv vs st' (<[i:=th']> ths) xs l' ys'.
Proof.
  intros Hinv Hi Hs.
  destruct (producers_lookup _ _ _ _ _ _ _ _ Hinv Hi) as (x & Hx & Hth).
  pose proof Hinv as [Hhd Hne Hl Hnd Ht Hv Hths Hap Hcnt].
  destruct th as [pc|]; [|done]. simpl in Hs.
  destruct (step_enq st pc) as [[[e1 st1] pc1]|] eqn:Hd; [|done].
  injection Hs as <- <- <-.
  destruct pc as [val|node|node tl|node tl nx|node tl nx|node tl nx|node tl|];
    simpl in Hd, Hth.
  - (* new *)
    injection Hd as <- <- <-. subst val.
    set (a := new_loc (heap st)).
    assert (heap st !! a = None) as Ha by apply new_loc_fresh.
    assert (a ∉ l) as Hal.
    { intros Hin. destruct (linked_lookup _ _ _ Hl Hin) as [n Hn]. congruence. }
    exists l, ys.
    apply (producers_rebuild vs st ths xs l ys i (TEnq (ENew x)) x _ _ l ys
             Hinv Hi Hx); cbn [heap queue].
    + done.
    + eapply linked_frame; [|done]. intros b Hb.
      apply lookup_insert_ne. intros <-. done.
    + done.
    + done.
    + eapply (values_frame (heap st)); [|done]. intros b Hb.
      rewrite lookup_insert_ne; [done|]. intros <-.
      apply Hal. destruct l; [done|]. by right.
    + done.
    + intros t n Hn _. rewrite lookup_insert_ne; [done|]. intros <-. congruence.
    + intros j thj b Hji Hj Hp.
      destruct (producers_lookup _ _ _ _ _ _ _ _ Hinv Hj) as (xj & _ & Hinvj).
      by destruct (pending_owns _ _ _ _ _ Hinvj Hp).
    + split; [done|]. cbn [heap]. by rewrite lookup_insert_eq.
    + intros b [= <-]. by right.
    + by rewrite (todo_same ths xs i (TEnq (ENew x)) x).
  - (* load tl *)
    injection Hd as <- <- <-. exists l, ys.
    eapply producers_rebuild_same; eauto. by split.
  - (* load next *)
    destruct Hth as [Hown (t & Hpt & Hin)]. rewrite Hpt in Hd. simpl in Hd.
    destruct (heap st !! t) as [n|] eqn:Hn; [|done]. simpl in Hd.
    injection Hd as <- <- <-. exists l, ys.
    eapply producers_rebuild_same; eauto. simpl.
    split; [done|]. split; [by exists t|]. intros _. by exists t, n.
  - (* recheck *)
    injection Hd as <- <- <-. destruct Hth as (Hown & Hpt & Hseen).
    exists l, ys.
    destruct (NodePointer_eq tl (_tail (queue st))).
    + destruct (ptr nx) eqn:Hp.
      * eapply producers_rebuild_same; eauto. simpl.
        repeat (split; [done|]). congruence.
      * eapply producers_rebuild_same; eauto. by simpl.
    + eapply producers_rebuild_same; eauto.
  - (* link *)
    destruct Hth as (Hown & (t & Hpt & Hin) & Hnull).
    rewrite Hpt in Hd. simpl in Hd.
    destruct (cas st (Next t) nx _) as [[[ok e'] st2]|] eqn:Hc; [|done].
    simpl in Hd. injection Hd as <- <- <-.
    apply cas_inv in Hc as [(-> & _ & Hload & Hst)|(-> & -> & _)].
    + simpl in Hload, Hst.
      destruct (heap st !! t) as [n|] eqn:Hn; [|done].
      simpl in Hload, Hst. injection Hload as <-. injection Hst as <-.
      destruct Hown as [Hnl Hnode].
      destruct (linked_null_last _ _ _ _ Hl Hin Hn Hnull) as (pre & ->).
      assert (node ≠ t) as Hnt.
      { intros ->. apply Hnl. apply elem_of_app. right. by left. }
      exists ((pre ++ [t]) ++ [node]), (ys ++ [x]).
      apply (producers_rebuild vs st ths xs (pre ++ [t]) ys i
               (TEnq (ECasNext node tl (next n))) x _ _
               ((pre ++ [t]) ++ [node]) (ys ++ [x]) Hinv Hi Hx);
        cbn [heap queue].
      * rewrite <- Hhd. by destruct pre.
      * rewrite <- app_assoc. simpl. eapply linked_snoc; eauto.
      * apply NoDup_app. split; [done|]. split; [|apply NoDup_singleton].
        intros b Hb ->%list_elem_of_singleton. done.
      * destruct Ht as (t' & Ht' & Hin'). exists t'. split; [done|].
        apply elem_of_app. by left.
      * assert (tail ((pre ++ [t]) ++ [node]) = tail (pre ++ [t]) ++ [node])
          as -> by by destruct pre.
        rewrite app_assoc. apply Forall2_app.
        -- eapply (values_frame (heap st)); [|done]. intros b Hb.
           destruct (decide (b = t)) as [->|Hbt].
           ++ rewrite lookup_insert_eq, Hn. done.
           ++ by rewrite lookup_insert_ne.
        -- constructor; [|constructor].
           rewrite lookup_insert_ne by done. by rewrite Hnode.
      * intros b Hb. apply elem_of_app. by left.
      * intros b nb Hb [Hnotin|Hnn]; (rewrite lookup_insert_ne; [done|]);
          intros <-; [done|congruence].
      * intros j thj b Hji Hj Hp Hb.
        destruct (producers_lookup _ _ _ _ _ _ _ _ Hinv Hj) as (xj & _ & Hinvj).
        destruct (pending_owns _ _ _ _ _ Hinvj Hp) as [Hbl _].
        apply elem_of_app in Hb as [Hb| ->%list_elem_of_singleton]; [done|].
        by eapply (Hap j i thj _ node).
      * simpl. apply elem_of_app. right. by left.
      * intros b [=].
      * rewrite <- app_assoc. simpl. rewrite <- Hcnt at 2.
        apply Permutation_app_head.
        symmetry.
        by apply (todo_flip ths xs i (TEnq (ECasNext node tl (next n))) x).
    + exists l, ys. eapply producers_rebuild_same; eauto.
  - (* help *)
    destruct Hth as (Hown & (t & Hpt & Hin) & Hseen & Hnn).
    destruct (cas st Tail tl _) as [[[ok e'] st2]|] eqn:Hc; [|done].
    simpl in Hd. injection Hd as <- <- <-.
    exists l, ys.
    apply cas_inv in Hc as [(-> & _ & Hload & Hst)|(-> & -> & _)].
    + simpl in Hst. injection Hst as <-.
      eapply producers_rebuild_same; eauto; cbn [heap queue _head _tail].
      destruct (Hseen Hnn) as (t' & n & Ht' & Hn & Hnext).
      assert (t' = t) as -> by congruence.
      destruct (ptr nx) as [b|] eqn:Hb; [|done].
      exists b. split; [done|]. by eapply linked_next_in.
    + eapply producers_rebuild_same; eauto.
  - (* swing *)
    destruct (cas st Tail tl _) as [[[ok e'] st2]|] eqn:Hc; [|done].
    simpl in Hd. injection Hd as <- <- <-.
    exists l, ys.
    apply cas_inv in Hc as [(-> & _ & Hload & Hst)|(-> & -> & _)].
    + simpl in Hst. injection Hst as <-.
      eapply producers_rebuild_same; eauto; cbn [heap queue _head _tail].
      * by exists node.
      * done.
    + eapply producers_rebuild_same; eauto. done.
  - done.
Qed.

Lemma producers_progress vs st ths xs l ys i th :
  producers_inv vs st ths xs l ys → ths !! i = Some th →
  finished th = false → is_Some (step_thread st th).
Proof.
  intros Hinv Hi Hfin.
  destruct (producers_lookup _ _ _ _ _ _ _ _ Hinv Hi) as (x & Hx & Hth).
  pose proof Hinv as [Hhd Hne Hl Hnd Ht Hv Hths Hap Hcnt].
  destruct th as [pc|]; [|done]. destruct pc; simpl in *; try done.
  - destruct Hth as [_ (t & -> & Hin)]. simpl.
    destruct (linked_lookup _ _ _ Hl Hin) as [n Hn].
    destruct (heap st !! t); [done|congruence].
  - destruct Hth as (_ & (t & -> & Hin) & _). simpl.
    destruct (linked_lookup _ _ _ Hl Hin) as [n Hn].
    unfold cas. simpl. destruct (heap st !! t) as [n'|]; [|congruence].
    simpl. by destruct (decide (next n' = next0)).
  - unfold cas. simpl. by destruct (decide (_tail (queue st) = tail)).
  - unfold cas. simpl. by destruct (decide (_tail (queue st) = tail)).
Qed.

End ProducersStep.

Section ProducersRun.
Context {T : Type}.
Implicit Types (st : state T) (th : thread T) (ths : list (thread T))
  (x : T) (xs ys vs : list T) (l : list loc).

Lemma todo_fresh xs :
  concat (zip_with todo ((λ v, TEnq (ENew v)) <$> xs) xs) = xs.
Proof. induction xs as [|x xs IH]; csimpl; [done|]. by rewrite IH. Qed.

Lemma producers_start st s ns vs xs :
  repr st s ns vs →
  producers_inv vs st ((λ v, TEnq (ENew v)) <$> xs) xs (s :: ns) [].
Proof.
  intros [Hh Hl Hnd Ht Hv]. split; try done.
  - by rewrite app_nil_r.
  - apply Forall2_fmap_l. by apply Forall_Forall2_diag, Forall_forall.
  - intros i j thi thj a _ Hi _ Hp _.
    rewrite list_lookup_fmap in Hi.
    destruct (xs !! i) as [v|]; simpl in Hi; [|done].
    injection Hi as <-. done.
  - by rewrite todo_fresh.
Qed.

Lemma producers_holds vs st ths xs l ys :
  producers_inv vs st ths xs l ys → holds st (vs ++ ys).
Proof.
  intros [Hhd Hne Hl Hnd Ht Hv _ _ _].
  destruct l as [|s ns]; [done|]. exists s, ns. by split.
Qed.

Lemma producers_done vs st ths xs l ys :
  producers_inv vs st ths xs l ys →
  Forall (λ th, finished th = true) ths →
  concat (zip_with todo ths xs) = [].
Proof.
  intros [_ _ _ _ _ _ Hths _ _] Hfin.
  induction Hths as [|th x ths xs Hth _ IH]; [done|].
  apply Forall_cons in Hfin as [Hf Hfin]. simpl. rewrite IH by done.
  by destruct th as [[]|[]].
Qed.

Lemma run_schedule_valid sched : ∀ st ths st' ths',
  run_schedule sched st ths = Some (st', ths') →
  ∀ i, i ∈ sched → (i < length ths)%nat.
Proof.
  induction sched as [|i sched IH]; intros st ths st' ths' Hrun j Hj.
  - by apply elem_of_nil in Hj.
  - simpl in Hrun. destruct (ths !! i) as [th|] eqn:Hi; [|done].
    simpl in Hrun. apply elem_of_cons in Hj as [->|Hj].
    + by eapply lookup_lt_Some.
    + destruct (finished th); [by eapply IH|].
      destruct (step_thread st th) as [[[e st1] th1]|]; [|done].
      simpl in Hrun. specialize (IH _ _ _ _ Hrun j Hj).
      by rewrite length_insert in IH.
Qed.

Lemma producers_run vs xs sched : ∀ st ths l ys,
  producers_inv vs st ths xs l ys →
  (∀ i, i ∈ sched → (i < length ths)%nat) →
  ∃ st' ths' l' ys',
    run_schedule sched st ths = Some (st', ths') ∧
    producers_inv vs st' ths' xs l' ys'.
Proof.
  induction sched as [|i sched IH]; intros st ths l ys Hinv Hvalid.
  - by exists st, ths, l, ys.
  - simpl.
    destruct (lookup_lt_is_Some_2 ths i) as [th Hi];
      [apply Hvalid; by left|].
    rewrite Hi. simpl. destruct (finished th) eqn:Hfin.
    + apply (IH st ths l ys Hinv). intros j Hj. apply Hvalid. by right.
    + destruct (producers_progress _ _ _ _ _ _ _ _ Hinv Hi Hfin)
        as [[[e st1] th1] Hs].
      rewrite Hs. simpl.
      destruct (producers_step _ _ _ _ _ _ _ _ _ _ _ Hinv Hi Hs)
        as (l1 & ys1 & Hinv1).
      apply (IH _ _ _ _ Hinv1). intros j Hj. rewrite length_insert.
      apply Hvalid. by right.
Qed.

End ProducersRun.

(** ** A [dequeue] call among [enqueue] calls *)

Section AmongProof.
Context {T : Type}.
Implicit Types (st : state T) (th thd : thread T) (ths es : list (thread T))
  (r x : T) (vs xs : list T) (E : Prop).











End AmongProof.

Section AmongRun.
Context {T : Type}.
Implicit Types (st : state T) (th thd : thread T) (ths es : list (thread T))
  (r : T) (vs xs : list T) (sched pre total : list nat).




End AmongRun.




(** X15. No loss and no duplication among concurrent producers: when any
    number of threads each call [enqueue] once on a queue that holds
    [vs], then under every schedule of their steps the queue holds, at
    every moment, [vs] followed by the values linked so far, each of them
    the value of exactly one call; once all calls have returned, the
    queue holds [vs] followed by a permutation of all the enqueued
    values. *)
Theorem concurrent_enqueues_no_loss {T : Type} (st : state T) (s : loc)
    (ns : list loc) (vs xs : list T) (sched : list nat) (st' : state T)
    (ths' : list (thread T)) :
  repr st s ns vs →
  run_schedule sched st ((λ v, TEnq (ENew v)) <$> xs) = Some (st', ths') →
  ∃ ys zs,
    holds st' (vs ++ ys) ∧ ys ++ zs ≡ₚ xs ∧
    (Forall (λ th, finished th = true) ths' → zs = []).
Proof.
  intros Hr Hrun.
  destruct (producers_run vs xs sched st _ _ _ (producers_start st s ns vs xs Hr))
    as (st1 & ths1 & l1 & ys1 & Hrun1 & Hinv1).
  { by eapply run_schedule_valid. }
  rewrite Hrun in Hrun1. injection Hrun1 as <- <-.
  exists ys1, (concat (zip_with todo ths' xs)).
  split; [by eapply producers_holds|]. split; [by destruct Hinv1|].
  by eapply producers_done.
Qed.

Lemma concurrent_enqueues_no_loss_witness :
  repr mem_linked 1%positive [2%positive] [5] ∧
  run_schedule two_producers_schedule mem_linked
    ((λ v, TEnq (ENew v)) <$> [7; 8])
  = Some (two_producers_state, two_producers_threads) ∧
  ∃ ys zs,
    holds two_producers_state ([5] ++ ys) ∧ ys ++ zs ≡ₚ [7; 8] ∧
    (Forall (λ th, finished th = true) two_producers_threads → zs = []).
Proof.
  assert (repr mem_linked 1%positive [2%positive] [5]) as Hr.
  { split.
    - reflexivity.
    - split; [eexists; split; reflexivity|].
      split; [eexists; split; reflexivity|exact I].
    - apply NoDup_cons. split; [|apply NoDup_singleton].
      intros Hin%list_elem_of_singleton. discriminate.
    - exists 1%positive. split; [reflexivity|]. by left.
    - constructor; [reflexivity|constructor]. }
  assert (run_schedule two_producers_schedule mem_linked
            ((λ v, TEnq (ENew v)) <$> [7; 8])
          = Some (two_producers_state, two_producers_threads)) as Hrun.
  { vm_compute. reflexivity. }
  split; [exact Hr|]. split; [exact Hrun|].
  apply (concurrent_enqueues_no_loss mem_linked 1%positive [2%positive] [5]
           [7; 8] two_producers_schedule two_producers_state
           two_producers_threads Hr Hrun).
Defined.

(** X16. Concurrent producers never fault: on a represented queue, under
    every schedule of the steps of any number of [enqueue] calls, every
    step finds the node it dereferences in memory. *)
Theorem concurrent_enqueues_never_fault {T : Type} (st : state T) (s : loc)
    (ns : list loc) (vs xs : list T) (sched : list nat) :
  repr st s ns vs →
  (∀ i, i ∈ sched → (i < length xs)%nat) →
  ∃ st' ths',
    run_schedule sched st ((λ v, TEnq (ENew v)) <$> xs) = Some (st', ths').
Proof.
  intros Hr Hvalid.
  destruct (producers_run vs xs sched st _ _ _ (producers_start st s ns vs xs Hr))
    as (st1 & ths1 & l1 & ys1 & Hrun1 & _).
  { intros i Hi. rewrite length_fmap. by apply Hvalid. }
  by exists st1, ths1.
Qed.

Lemma concurrent_enqueues_never_fault_witness :
  repr mem_linked 1%positive [2%positive] [5] ∧
  (∀ i, i ∈ [1; 0; 0; 1; 1]%nat → (i < length [7; 8])%nat) ∧
  ∃ st' ths',
    run_schedule [1; 0; 0; 1; 1]%nat mem_linked
      ((λ v, TEnq (ENew v)) <$> [7; 8])
    = Some (st', ths').
Proof.
  assert (repr mem_linked 1%positive [2%positive] [5]) as Hr.
  { split.
    - reflexivity.
    - split; [eexists; split; reflexivity|].
      split; [eexists; split; reflexivity|exact I].
    - apply NoDup_cons. split; [|apply NoDup_singleton].
      intros Hin%list_elem_of_singleton. discriminate.
    - exists 1%positive. split; [reflexivity|]. by left.
    - constructor; [reflexivity|constructor]. }
  assert (∀ i, i ∈ [1; 0; 0; 1; 1]%nat → (i < length [7; 8])%nat) as Hv.
  { intros i Hi. simpl.
    repeat (apply elem_of_cons in Hi as [->|Hi]; [lia|]).
    by apply elem_of_nil in Hi. }
  split; [exact Hr|]. split; [exact Hv|].
  apply (concurrent_enqueues_never_fault mem_linked 1%positive [2%positive]
           [5] [7; 8] [1; 0; 0; 1; 1]%nat Hr Hv).
Defined.

(** ** One [enqueue] call racing with one [dequeue] call *)

Section RaceProof.
Context {T : Type}.
Implicit Types (st : state T) (th the thd : thread T) (x r : T)
  (vs cur got sent : list T) (s : loc) (ns : list loc) (E : Prop).

Lemma last_cons_cons (a b : loc) (l : list loc) :
  last (a :: b :: l) = last (b :: l).
Proof. done. Qed.

Lemma last_in (l : list loc) (a : loc) : last l = Some a → a ∈ l.
Proof.
  intros (pre & ->)%last_Some. apply elem_of_app. right. by left.
Qed.

Lemma last_first_nil (s : loc) (ns : list loc) :
  NoDup (s :: ns) → last (s :: ns) = Some s → ns = [].
Proof.
  intros Hnd Hlast. destruct ns as [|b ns]; [done|].
  rewrite last_cons_cons in Hlast. apply last_in in Hlast.
  by apply NoDup_cons in Hnd as [Hnotin _].
Qed.

(** [_tail] points into the list. *)
Lemma tail_race_in st s ns the x :
  tail_race st s ns the → enq_race st s ns the x →
  ∃ t, ptr (_tail (queue st)) = Some t ∧ t ∈ s :: ns.
Proof.
  intros Ht He.
  assert (ptr (_tail (queue st)) = last (s :: ns) →
          ∃ t, ptr (_tail (queue st)) = Some t ∧ t ∈ s :: ns) as Hlast.
  { intros Heq. destruct (last (s :: ns)) as [t|] eqn:Hl.
    - exists t. split; [done|]. by apply last_in.
    - by apply last_None in Hl. }
  destruct the as [[]|]; simpl in *; try by apply Hlast.
  destruct Ht as [Ht|(<- & t & n & Hpt & Hin & _)].
  - exists node. split; [done|]. by apply last_in.
  - by exists t.
Qed.

(** What the [dequeue] call relies on survives a step of the [enqueue]
    call. *)
Lemma deq_race_stable E r st s ns cur thd st' ns' cur' :
  deq_race E r st s ns cur thd →
  _head (queue st') = _head (queue st) →
  (ptr (_tail (queue st)) ≠ Some s → ptr (_tail (queue st')) ≠ Some s) →
  (∀ o n, heap st !! o = Some n → ptr (next n) ≠ None →
          heap st' !! o = Some n ∧ (o ∉ s :: ns → o ∉ s :: ns')) →
  (∀ v, hd_error cur = Some v → hd_error cur' = Some v) →
  deq_race E r st' s ns' cur' thd.
Proof.
  intros Hd Hhead Htail Hheap Hcur.
  assert (∀ tl, ptr tl = Some s ∨ ptr (_tail (queue st)) ≠ Some s →
                ptr tl = Some s ∨ ptr (_tail (queue st')) ≠ Some s) as Hahead.
  { intros tl [?|?]; auto. }
  assert (∀ nx, ptr nx ≠ None →
            (∃ n, heap st !! s = Some n ∧ ptr (next n) = ptr nx) →
            ∃ n, heap st' !! s = Some n ∧ ptr (next n) = ptr nx) as Hnext.
  { intros nx Hnx (n & Hn & Hp). exists n. split; [|done].
    apply Hheap; [done|congruence]. }
  destruct thd as [|[] res]; simpl in *; rewrite ?Hhead; try done.
  - destruct Hd as (? & ? & ?). auto.
  - destruct Hd as (? & ? & ? & ? & ? & ?). repeat (split; [by auto|]). auto.
  - destruct Hd as (? & ? & ? & ?). repeat (split; [by auto|]). auto.
  - destruct Hd as (? & ? & ? & ? & ?). repeat (split; [by auto|]). auto.
  - destruct Hd as (? & ? & ? & ? & ?). repeat (split; [by auto|]). auto.
  - destruct Hd as (o & n & Ho & Hn & Hnn & Hnotin).
    destruct (Hheap o n Hn Hnn) as [Hn' Hnotin']. exists o, n. auto.
Qed.

Lemma race_step_enq E got sent x r st the thd s ns cur e st' the' :
  race_inv E got sent x r st the thd s ns cur →
  step_thread st the = Some (e, st', the') →
  ∃ ns' cur', race_inv E got sent x r st' the' thd s ns' cur'.
Proof.
  intros Hinv Hs.
  pose proof Hinv as [Hh Hl Hnd Hv Ht He Hd Hbase].
  destruct the as [pc|]; [|done]. simpl in Hs.
  destruct (step_enq st pc) as [[[e1 st1] pc1]|] eqn:Hstep; [|done].
  injection Hs as <- <- <-.
  destruct pc as [val|node|node tl|node tl nx|node tl nx|node tl nx|node tl|];
    simpl in Hstep, He, Ht.
  - (* new *)
    injection Hstep as <- <- <-. subst val.
    set (a := new_loc (heap st)).
    assert (heap st !! a = None) as Ha by apply new_loc_fresh.
    assert (a ∉ s :: ns) as Hal.
    { intros Hin. destruct (linked_lookup _ _ _ Hl Hin) as [n Hn]. congruence. }
    assert (∀ o n, heap st !! o = Some n →
              <[a := mkNode x (NP None 0)]> (heap st) !! o = Some n) as Hsame.
    { intros o n Hn. rewrite lookup_insert_ne; [done|]. intros <-. congruence. }
    exists ns, cur. split; cbn [heap queue]; try done.
    + eapply linked_frame; [|done]. intros b Hb.
      apply lookup_insert_ne. intros <-. done.
    + eapply (values_frame (heap st)); [|done]. intros b Hb.
      rewrite lookup_insert_ne; [done|]. intros <-. apply Hal. by right.
    + split; [done|]. cbn [heap]. by rewrite lookup_insert_eq.
    + eapply deq_race_stable; [exact Hd|done|done| |done].
      intros o n Hn _. split; [|done]. by apply Hsame.
  - (* load tail *)
    injection Hstep as <- <- <-. exists ns, cur. by split.
  - (* load next *)
    destruct He as [Hown ->].
    destruct (last (s :: ns)) as [t|] eqn:Hlast; [|by apply last_None in Hlast].
    rewrite Ht in Hstep. simpl in Hstep.
    destruct (linked_lookup _ _ _ Hl (last_in _ _ Hlast)) as [n Hn].
    rewrite Hn in Hstep. simpl in Hstep. injection Hstep as <- <- <-.
    exists ns, cur. split; try done.
    + simpl. congruence.
    + simpl. split; [done|]. split; [done|]. exists t, n. done.
  - (* recheck *)
    injection Hstep as <- <- <-.
    destruct He as (Hown & -> & t & n & Hpt & Hn & <-).
    rewrite NodePointer_eq_refl.
    assert (ptr (next n) = None) as Hnull.
    { rewrite Ht in Hpt.
      destruct (linked_last _ _ _ Hl Hpt) as (n' & Hn' & Hnull). congruence. }
    rewrite Hnull. exists ns, cur. split; try done. simpl.
    split; [done|]. split; [done|]. by exists t, n.
  - (* link *)
    destruct He as (Hown & -> & t & n & Hpt & Hn & <-).
    rewrite Hpt in Hstep. simpl in Hstep.
    rewrite (cas_same st (Next t) (next n) _
               (mkState (<[t := mkNode (value n)
                                  (NP (Some node) (int_succ (count (next n))))]>
                           (heap st)) (queue st))) in Hstep;
      [|by simpl; rewrite Hn|by simpl; rewrite Hn].
    simpl in Hstep. injection Hstep as <- <- <-.
    destruct Hown as [Hnl Hnode].
    assert (last (s :: ns) = Some t) as Hlast by congruence.
    destruct (proj1 (last_Some _ _) Hlast) as (pre & Hpre).
    assert (ptr (next n) = None) as Hnull.
    { destruct (linked_last _ _ _ Hl Hlast) as (n' & Hn' & Hnull). congruence. }
    assert (node ≠ t) as Hnt.
    { intros ->. apply Hnl. by apply last_in. }
    exists (ns ++ [node]), (cur ++ [x]). split; cbn [heap queue].
    + done.
    + rewrite app_comm_cons, Hpre, <- app_assoc. simpl.
      eapply linked_snoc; rewrite <- ?Hpre; eauto.
    + rewrite app_comm_cons. apply NoDup_app. split; [done|].
      split; [|apply NoDup_singleton].
      intros b Hb ->%list_elem_of_singleton. done.
    + apply Forall2_app.
      * eapply (values_frame (heap st)); [|done]. intros b Hb.
        destruct (decide (b = t)) as [->|Hbt].
        -- rewrite lookup_insert_eq, Hn. done.
        -- by rewrite lookup_insert_ne.
      * constructor; [|constructor].
        rewrite lookup_insert_ne by done. by rewrite Hnode.
    + simpl. right. split; [done|].
      exists t, (mkNode (value n) (NP (Some node) (int_succ (count (next n))))).
      split; [done|]. split.
      { rewrite app_comm_cons. apply elem_of_app. left. by apply last_in. }
      split; [done|]. split; [by rewrite lookup_insert_eq|done].
    + simpl. by rewrite app_comm_cons, last_snoc.
    + eapply deq_race_stable; [exact Hd|done|done| |]; cbn [heap queue].
      * intros o no Ho Hnn. assert (o ≠ t) as Hot by (intros ->; congruence).
        split; [by rewrite lookup_insert_ne|].
        intros Hnotin Hin. rewrite app_comm_cons in Hin.
        apply elem_of_app in Hin as [Hin| ->%list_elem_of_singleton]; [done|].
        rewrite Hnode in Ho. injection Ho as <-. done.
      * intros v Hv'. destruct cur; [done|]. done.
    + unfold linked_by in *. simpl in *. rewrite app_nil_r in Hbase.
      by rewrite !app_assoc, <- (app_assoc got), Hbase.
  - (* help: not reached *)
    done.
  - (* swing *)
    destruct (cas st Tail tl _) as [[[ok e'] st2]|] eqn:Hc; [|done].
    simpl in Hstep. injection Hstep as <- <- <-.
    apply cas_inv in Hc as [(-> & _ & Hload & Hst)|(-> & -> & Hload & Hne)].
    + simpl in Hst. injection Hst as <-.
      exists ns, cur. split; cbn [heap queue _head _tail]; try done.
      eapply deq_race_stable; [exact Hd|done| | |done];
        cbn [heap queue _head _tail ptr].
      * intros Hts [= ->]. apply last_first_nil in He as ->; [|done].
        destruct Ht as [Ht|(_ & t & n & _ & Hin & Hta & _)]; [done|].
        by apply list_elem_of_singleton in Hin.
      * intros o n Ho _. done.
    + exists ns, cur. split; try done. simpl.
      destruct Ht as [Ht|(Heq & _)]; [congruence|].
      simpl in Hload. congruence.
  - done.
Qed.

(** What the [enqueue] call relies on survives a step of the [dequeue]
    call. *)
Lemma enq_race_stable st s ns the x st' s' ns' :
  linked (heap st) (s :: ns) →
  tail_race st s ns the → enq_race st s ns the x →
  _tail (queue st') = _tail (queue st) →
  (∀ a, a ∈ s' :: ns' → a ∈ s :: ns) →
  last (s' :: ns') = last (s :: ns) →
  (∀ t, ptr (_tail (queue st)) = Some t → t ∈ s :: ns → t ∈ s' :: ns') →
  (∀ o n, heap st !! o = Some n → o ∈ s' :: ns' ∨ ptr (next n) = None →
          heap st' !! o = Some n) →
  tail_race st' s' ns' the ∧ enq_race st' s' ns' the x.
Proof.
  intros Hl Ht He Htail Hsub Hlast Hin Hheap.
  assert (∀ a, owns st (s :: ns) a x → owns st' (s' :: ns') a x) as Hown.
  { intros a [Hnotin Ha]. split; [by intros ?%Hsub|].
    apply Hheap; [done|by right]. }
  assert (ptr (_tail (queue st)) = last (s :: ns) →
          ∀ t n, ptr (_tail (queue st)) = Some t → heap st !! t = Some n →
                 heap st' !! t = Some n) as Hkeep.
  { intros Heq t n Hpt Hn. apply Hheap; [done|]. left.
    apply Hin; [done|]. apply last_in. congruence. }
  destruct the as [[val|a|a tl|a tl nx|a tl nx|a tl nx|a tl|]|];
    simpl in *; rewrite ?Htail, ?Hlast; try done.
  - auto.
  - destruct He as [? ->]. auto.
  - destruct He as (? & -> & t & n & ? & ? & ?).
    split; [done|]. split; [by auto|]. split; [done|].
    exists t, n. split; [done|]. split; [by eapply Hkeep|done].
  - destruct He as (? & -> & t & n & ? & ? & ?).
    split; [done|]. split; [by auto|]. split; [done|].
    exists t, n. split; [done|]. split; [by eapply Hkeep|done].
  - split; [|done]. destruct Ht as [?|(<- & t & n & Hpt & Htin & Hta & Hn & Hnext)];
      [by left|right].
    split; [done|]. exists t, n. split; [done|].
    split; [by apply Hin|]. split; [done|]. split; [|done].
    apply Hheap; [done|]. left. by apply Hin.
Qed.

(** When [_tail] points to a dummy node that has a successor, the
    [enqueue] call is between its link and its swing. *)
Lemma tail_at_dummy st s ns the x n :
  linked (heap st) (s :: ns) → NoDup (s :: ns) →
  tail_race st s ns the → enq_race st s ns the x →
  ptr (_tail (queue st)) = Some s →
  heap st !! s = Some n → ptr (next n) ≠ None →
  ∃ a tl, the = TEnq (ESwing a tl) ∧ ptr (next n) = Some a.
Proof.
  intros Hl Hnd Ht He Hpt Hn Hnn.
  assert (last (s :: ns) = Some s → False) as Hno.
  { intros Hlast. destruct (linked_last _ _ _ Hl Hlast) as (n' & Hn' & Hnull).
    congruence. }
  destruct the as [[val|a|a tl|a tl nx|a tl nx|a tl nx|a tl|]|];
    simpl in *; try (exfalso; apply Hno; congruence); try done.
  exists a, tl. split; [done|].
  destruct Ht as [Ht|(<- & t & n' & Hptl & _ & _ & Hn' & Hnext)].
  - exfalso. apply Hno. congruence.
  - congruence.
Qed.

Lemma race_step_deq E got sent x r st the thd s ns cur e st' thd' :
  (∀ ys, got = sent ++ ys → E) →
  race_inv E got sent x r st the thd s ns cur →
  step_thread st thd = Some (e, st', thd') →
  ∃ s' ns' cur', race_inv E got sent x r st' the thd' s' ns' cur'.
Proof.
  intros HE Hinv Hs.
  pose proof Hinv as [Hh Hl Hnd Hv Ht He Hd Hbase].
  destruct thd as [|pc res]; [done|]. simpl in Hs.
  destruct (step_deq st pc res) as [[[[e1 st1] pc1] res1]|] eqn:Hstep; [|done].
  injection Hs as <- <- <-.
  destruct pc as [|hd|hd tl|hd tl nx|tl nx|hd nx|hd nx|hd|b];
    simpl in Hstep, Hd, Hbase.
  - (* load head *)
    injection Hstep as <- <- <- <-. exists s, ns, cur. by split.
  - (* load tail *)
    destruct Hd as [-> ->]. injection Hstep as <- <- <- <-.
    exists s, ns, cur. split; try done. simpl.
    split; [done|]. split; [done|].
    destruct (decide (ptr (_tail (queue st)) = Some s)); auto.
  - (* load next *)
    destruct Hd as (-> & -> & Hahead). rewrite Hh in Hstep. simpl in Hstep.
    pose proof Hl as [(n & Hn & Hnext) Hl'].
    rewrite Hn in Hstep. simpl in Hstep. injection Hstep as <- <- <- <-.
    exists s, ns, cur. split; try done. simpl.
    split; [done|]. split; [done|]. split; [done|]. split; [|split].
    + destruct Hahead as [?|Hne]; [by left|right].
      destruct (tail_race_in _ _ _ _ _ Ht He) as (t & Hpt & Hin).
      rewrite Hnext. destruct ns; [|done].
      apply list_elem_of_singleton in Hin as ->. congruence.
    + rewrite Hnext. destruct ns; [|done]. intros _.
      apply Forall2_nil_inv_l in Hv as ->. apply (HE (linked_by the x)).
      by rewrite <- Hbase, !app_nil_r.
    + intros _. by exists n.
  - (* recheck *)
    destruct Hd as (-> & -> & Hahead & Hor & Hnil & Hnext).
    injection Hstep as <- <- <- <-. rewrite NodePointer_eq_refl, Hh.
    destruct (decide (Some s = ptr tl)) as [Heq|Hne].
    + destruct (ptr nx) as [b|] eqn:Hnx.
      * exists s, ns, cur. split; try done. simpl.
        split; [done|]. split; [done|]. rewrite Hnx. split; [done|].
        by apply Hnext.
      * exists s, ns, cur. split; try done. simpl. auto.
    + exists s, ns, cur. split; try done. simpl.
      split; [done|]. split; [done|].
      assert (ptr nx ≠ None) as Hnx by (by destruct Hor).
      split; [by destruct Hahead|]. split; [done|]. by apply Hnext.
  - (* help *)
    destruct Hd as (-> & Hptl & Hnx & (n & Hn & Hnext)).
    destruct (cas st Tail tl _) as [[[ok e'] st2]|] eqn:Hc; [|done].
    simpl in Hstep. injection Hstep as <- <- <- <-.
    apply cas_inv in Hc as [(-> & _ & Hload & Hst)|(-> & -> & Hload & Hne)].
    + simpl in Hload, Hst. injection Hload as Hload. injection Hst as <-.
      destruct (tail_at_dummy st s ns the x n) as (a & tl' & -> & Ha);
        [done|done|done|done|congruence|done|congruence|].
      exists s, ns, cur. split; try done.
      simpl. left. congruence.
    + exists s, ns, cur. by split.
  - (* read the value *)
    destruct Hd as (-> & -> & Htne & Hnx & (n & Hn & Hnext)).
    pose proof Hl as [(n' & Hn' & Hnext') Hl'].
    assert (n' = n) as -> by congruence.
    destruct ns as [|b ns']; [simpl in Hnext'; congruence|].
    simpl in Hnext'. assert (ptr nx = Some b) as Hb by congruence.
    rewrite Hb in Hstep. simpl in Hstep.
    apply Forall2_cons_inv_l in Hv as (v & cur' & Hvb & Hv' & ->).
    destruct (heap st !! b) as [nb|] eqn:Hnb; [|done].
    simpl in Hstep, Hvb. injection Hvb as Hvb. injection Hstep as <- <- <- <-.
    exists s, (b :: ns'), (v :: cur'). split; try done.
    + constructor; [by rewrite Hnb; simpl; rewrite Hvb|done].
    + simpl. split; [done|]. split; [done|]. split; [done|].
      split; [by exists n|]. by rewrite Hvb.
  - (* move head *)
    destruct Hd as (-> & Htne & Hnx & (n & Hn & Hnext) & Hcur).
    rewrite (cas_same st Head (_head (queue st)) _
               (mkState (heap st)
                  (mkQueue (NP (ptr nx) (int_succ (count (_head (queue st)))))
                           (_tail (queue st))))) in Hstep by done.
    simpl in Hstep. injection Hstep as <- <- <- <-.
    pose proof Hl as [(n' & Hn' & Hnext') Hl'].
    assert (n' = n) as -> by congruence.
    destruct ns as [|b ns']; [simpl in Hnext'; congruence|].
    simpl in Hnext'. assert (ptr nx = Some b) as Hb by congruence.
    destruct cur as [|v cur']; [done|]. injection Hcur as ->.
    apply Forall2_cons in Hv as [_ Hv'].
    apply NoDup_cons in Hnd as [Hs_notin Hnd'].
    destruct (enq_race_stable st s (b :: ns') the x
                (mkState (heap st)
                   (mkQueue (NP (ptr nx) (int_succ (count (_head (queue st)))))
                            (_tail (queue st)))) b ns')
      as [Ht' He']; try done.
    { intros a Ha. by right. }
    { intros t Hpt [->|Hin]%elem_of_cons; [congruence|done]. }
    exists b, ns', cur'. split; try done.
    simpl. exists s, n. split; [done|]. split; [done|].
    split; [congruence|done].
  - (* delete *)
    destruct Hd as (o & n & Hpo & Hn & Hnn & Hnotin).
    rewrite Hpo, Hn in Hstep. simpl in Hstep. injection Hstep as <- <- <- <-.
    destruct (enq_race_stable st s ns the x
                (mkState (delete o (heap st)) (queue st)) s ns)
      as [Ht' He']; try done.
    { intros o' n' Hn' Hor. cbn [heap]. rewrite lookup_delete_ne; [done|].
      intros <-. destruct Hor as [?|?]; [done|congruence]. }
    exists s, ns, cur. split; try done; cbn [heap queue].
    + eapply linked_frame; [|done]. intros a Ha.
      apply lookup_delete_ne. by intros <-.
    + eapply (values_frame (heap st)); [|done]. intros a Ha.
      rewrite lookup_delete_ne; [done|]. intros <-. apply Hnotin. by right.
  - done.
Qed.

(** A call that has not returned can take its next step. *)
Lemma race_progress_enq E got sent x r st the thd s ns cur :
  race_inv E got sent x r st the thd s ns cur → finished the = false →
  is_Some (step_thread st the).
Proof.
  intros [Hh Hl Hnd Hv Ht He Hd Hbase] Hfin.
  destruct the as [[val|a|a tl|a tl nx|a tl nx|a tl nx|a tl|]|];
    simpl in He, Ht, Hfin; try done.
  - destruct He as [_ ->].
    destruct (last (s :: ns)) as [t|] eqn:Hlast; [|by apply last_None in Hlast].
    destruct (linked_lookup _ _ _ Hl (last_in _ _ Hlast)) as [n Hn].
    simpl. rewrite Ht. simpl. rewrite Hn. done.
  - destruct He as (_ & _ & t & n & Hpt & Hn & <-).
    by rewrite (step_ECasNext st a tl t n Hpt Hn).
  - simpl. unfold cas. simpl. by destruct (decide (_tail (queue st) = tl)).
Qed.

Lemma race_progress_deq E got sent x r st the thd s ns cur :
  race_inv E got sent x r st the thd s ns cur → finished thd = false →
  is_Some (step_thread st thd).
Proof.
  intros [Hh Hl Hnd Hv Ht He Hd Hbase] Hfin.
  pose proof Hl as [(n & Hn & Hnext) Hl'].
  destruct thd as [|[|hd|hd tl|hd tl nx|tl nx|hd nx|hd nx|hd|b] res];
    simpl in *; try done.
  - destruct Hd as (_ & -> & _). rewrite Hh. simpl. by rewrite Hn.
  - unfold cas. simpl. by destruct (decide (_tail (queue st) = tl)).
  - destruct Hd as (_ & _ & _ & Hnx & (n' & Hn' & Hnext')).
    assert (n' = n) as -> by congruence.
    destruct ns as [|b ns']; [simpl in Hnext; congruence|].
    simpl in Hnext. assert (ptr nx = Some b) as -> by congruence. simpl.
    destruct Hl' as [(nb & -> & _) _]. done.
  - unfold cas. simpl. by destruct (decide (_head (queue st) = hd)).
  - destruct Hd as (o & n' & -> & -> & _). done.
Qed.

Lemma race_run vs x r sched : ∀ st the thd s ns cur,
  race_inv (vs = []) [] vs x r st the thd s ns cur →
  (∀ i, i ∈ sched → (i < 2)%nat) →
  ∃ st' the' thd' s' ns' cur',
    run_schedule sched st [the; thd] = Some (st', [the'; thd']) ∧
    race_inv (vs = []) [] vs x r st' the' thd' s' ns' cur'.
Proof.
  induction sched as [|i sched IH]; intros st the thd s ns cur Hinv Hvalid.
  - by exists st, the, thd, s, ns, cur.
  - assert (∀ j, j ∈ sched → (j < 2)%nat) as Hvalid'.
    { intros j Hj. apply Hvalid. by right. }
    assert (i < 2)%nat as Hi by (apply Hvalid; by left).
    destruct i as [|[|i]]; [| |lia]; simpl.
    + destruct (finished the) eqn:Hfin; [by apply (IH _ _ _ _ _ _ Hinv)|].
      destruct (race_progress_enq _ _ _ _ _ _ _ _ _ _ _ Hinv Hfin)
        as [[[e st1] th1] Hs].
      rewrite Hs. simpl.
      destruct (race_step_enq _ _ _ _ _ _ _ _ _ _ _ _ _ _ Hinv Hs)
        as (ns1 & cur1 & Hinv1).
      by apply (IH _ _ _ _ _ _ Hinv1).
    + destruct (finished thd) eqn:Hfin; [by apply (IH _ _ _ _ _ _ Hinv)|].
      destruct (race_progress_deq _ _ _ _ _ _ _ _ _ _ _ Hinv Hfin)
        as [[[e st1] th1] Hs].
      rewrite Hs. simpl.
      destruct (race_step_deq (vs = []) [] vs x r st the thd s ns cur e st1 th1)
        as (s1 & ns1 & cur1 & Hinv1); [|done|done|].
      { intros ys Hys. symmetry in Hys. by apply app_eq_nil in Hys as [-> _]. }
      by apply (IH _ _ _ _ _ _ Hinv1).
Qed.

Lemma race_start E got x r st s ns cur :
  repr st s ns cur → ptr (_tail (queue st)) = last (s :: ns) →
  race_inv E got (got ++ cur) x r st (TEnq (ENew x)) (TDeq DLoadHead r) s ns cur.
Proof.
  intros [Hh Hl Hnd Ht Hv] Hlast. split; try done.
  unfold linked_by. simpl. by rewrite app_nil_r.
Qed.

Lemma race_repr E got sent x r st the thd s ns cur :
  race_inv E got sent x r st the thd s ns cur → repr st s ns cur.
Proof.
  intros [Hh Hl Hnd Hv Ht He Hd Hbase]. split; try done.
  by eapply tail_race_in.
Qed.

Lemma race_end vs x r st b r' s ns cur :
  race_inv (vs = []) [] vs x r st (TEnq EReturn) (TDeq (DReturn b) r') s ns cur →
  ptr (_tail (queue st)) = last (s :: ns) ∧
  if b then vs ++ [x] = r' :: cur else vs = [] ∧ r' = r ∧ cur = [x].
Proof.
  intros [Hh Hl Hnd Hv Ht He Hd Hbase]. unfold linked_by, taken_by in *.
  simpl in *. split; [done|].
  destruct b; simpl in *; [done|].
  destruct Hd as [-> ->]. done.
Qed.

End RaceProof.

(** X17. One [enqueue(x)] racing with one [dequeue(result)]: on a queue
    that holds [vs] and whose [_tail] points to the last node, under
    every schedule of the steps of the two calls, once both have
    returned the outcome is that of one of the two orders of the calls.
    If [vs] is not empty, [dequeue] returned [true] with the oldest
    element of [vs] and the queue holds the rest of [vs] followed by [x];
    if [vs] is empty, either [dequeue] returned [false] with [result]
    unchanged and the queue holds [x], or it returned [true] with [x]
    and the queue is empty. *)
Theorem enqueue_races_dequeue {T : Type} (st : state T) (s : loc)
    (ns : list loc) (vs : list T) (x r : T) (sched : list nat)
    (st' : state T) (ths' : list (thread T)) :
  repr st s ns vs →
  ptr (_tail (queue st)) = last (s :: ns) →
  run_schedule sched st [TEnq (ENew x); TDeq DLoadHead r] = Some (st', ths') →
  Forall (λ th, finished th = true) ths' →
  ∃ b r',
    ths' = [TEnq EReturn; TDeq (DReturn b) r'] ∧
    match vs with
    | v :: vs' => b = true ∧ r' = v ∧ holds st' (vs' ++ [x])
    | [] => (b = false ∧ r' = r ∧ holds st' [x]) ∨
            (b = true ∧ r' = x ∧ holds st' [])
    end.
Proof.
  intros Hr Htail Hrun Hfin.
  destruct (race_run vs x r sched st _ _ s ns vs
              (race_start (vs = []) [] x r st s ns vs Hr Htail))
    as (st1 & the & thd & s1 & ns1 & cur1 & Hrun1 & Hinv).
  { intros i Hi. by apply (run_schedule_valid _ _ _ _ _ Hrun). }
  rewrite Hrun in Hrun1. injection Hrun1 as <- ->.
  apply Forall_cons in Hfin as [He Hfin]. apply Forall_cons in Hfin as [Hd _].
  destruct the as [pe|pe re]; [|by destruct Hinv as [_ _ _ _ _ ? _ _]].
  destruct thd as [pd|pd r']; [by destruct Hinv as [_ _ _ _ _ _ ? _]|].
  destruct pe; simpl in He; try done.
  destruct pd; simpl in Hd; try done.
  pose proof (race_repr _ _ _ _ _ _ _ _ _ _ _ Hinv) as Hrepr.
  assert (holds st' cur1) as Hholds by (by exists s1, ns1).
  apply race_end in Hinv as [Hlast Hb].
  exists b, r'. split; [done|].
  destruct b.
  - destruct vs as [|v vs']; simpl in Hb.
    + injection Hb as <- <-. by right.
    + injection Hb as <- <-. done.
  - destruct Hb as (-> & -> & ->). by left.
Qed.

Lemma enqueue_races_dequeue_witness :
  repr (Queue_new raw_seven ∅) 1%positive [] [] ∧
  ptr (_tail (queue (Queue_new raw_seven ∅))) = last [1%positive] ∧
  run_schedule race_schedule (Queue_new raw_seven ∅)
    [TEnq (ENew 7); TDeq DLoadHead 0] = Some (race_state, race_threads) ∧
  Forall (λ th, finished th = true) race_threads ∧
  ∃ b r',
    race_threads = [TEnq EReturn; TDeq (DReturn b) r'] ∧
    ((b = false ∧ r' = 0 ∧ holds race_state [7]) ∨
     (b = true ∧ r' = 7 ∧ holds race_state [])).
Proof.
  assert (repr (Queue_new raw_seven ∅) 1%positive [] []) as Hr.
  { pose proof (Queue_new_repr raw_seven ∅) as Hr.
    assert (new_loc (∅ : gmap loc (Node Z)) = 1%positive) as Hloc
      by (vm_compute; reflexivity).
    by rewrite Hloc in Hr. }
  assert (ptr (_tail (queue (Queue_new raw_seven ∅))) = last [1%positive])
    as Htail by reflexivity.
  assert (run_schedule race_schedule (Queue_new raw_seven ∅)
            [TEnq (ENew 7); TDeq DLoadHead 0]
          = Some (race_state, race_threads)) as Hrun.
  { vm_compute. reflexivity. }
  assert (Forall (λ th, finished th = true) race_threads) as Hfin.
  { repeat constructor. }
  split; [exact Hr|]. split; [exact Htail|]. split; [exact Hrun|].
  split; [exact Hfin|].
  apply (enqueue_races_dequeue (Queue_new raw_seven ∅) 1%positive [] [] 7 0
           race_schedule race_state race_threads Hr Htail Hrun Hfin).
Defined.
